(** * mcreversi: the Reversi board and the Monte Carlo search tree

    A shallow embedding of [mcreversi.cpp]: the [Board] class (cell
    parsing, [put], [getNextStates], [flipPlayer]) and the [Node] class of
    the search tree ([expand], [playout], [propagateResult], the UCB
    selection), with the properties of its specification. *)

From Stdlib Require Import ZArith Lia List String Ascii Bool.
From Stdlib Require Import QArith Qcanon SpecFloat.
From Stdlib Require Import DecimalString.
From stdpp Require Import base tactics numbers option list.

Local Open Scope Z_scope.

(** ** Machine integers

    [size_t] is a 64-bit unsigned integer and [int] a 32-bit signed one;
    both are carried by [Z], conversions and wrap-around written out. *)

Definition to_size_t (z : Z) : Z := z mod 2 ^ 64.
Definition to_int (z : Z) : Z := (z + 2 ^ 31) mod 2 ^ 32 - 2 ^ 31.

Definition BOARD_SIZE : Z := 8.
Definition BOARD_CELLS : Z := to_size_t (BOARD_SIZE * BOARD_SIZE).
Definition MIN_VISITS_TO_EXPAND : Z := 1.

(** ** Cells and players *)

Inductive Player := PBLACK | PWHITE.
Inductive Cell := BLACK | WHITE | EMPTY.

#[global] Instance Cell_eq_dec : EqDecision Cell.
Proof. solve_decision. Defined.
#[global] Instance Player_eq_dec : EqDecision Player.
Proof. solve_decision. Defined.

Definition other_player (p : Player) : Player :=
  match p with PBLACK => PWHITE | PWHITE => PBLACK end.

(** [tolower] of the C locale, on the character's code. *)
Definition tolower (chr : ascii) : ascii :=
  let n := N_of_ascii chr in
  if ((65 <=? n) && (n <=? 90))%N then ascii_of_N (n + 32) else chr.

(** [toupper] of the C locale; the program does not call it, it only serves
    to name the uppercase counterpart of a layout string. *)
Definition toupper (chr : ascii) : ascii :=
  let n := N_of_ascii chr in
  if ((97 <=? n) && (n <=? 122))%N then ascii_of_N (n - 32) else chr.

(** [parseCell]; [None] is the failed [assert(false)]. *)
Definition parseCell (chr : ascii) : option Cell :=
  let c := tolower chr in
  if Ascii.eqb c "x" then Some BLACK
  else if Ascii.eqb c "o" then Some WHITE
  else if Ascii.eqb c "." then Some EMPTY
  else None.

(** ** Boards

    [std::array<Cell, BOARD_CELLS>] in row-major order. [std::array::at]
    throws when the index is out of range: every access is in [option]. *)

Abbreviation Board := (list Cell).

Definition cell_index (x y : Z) : Z :=
  to_size_t (x + to_size_t (y * BOARD_SIZE)).

Definition cells_at (cells : Board) (i : Z) : option Cell :=
  cells !! Z.to_nat i.

Definition cells_set (cells : Board) (i : Z) (c : Cell) : option Board :=
  if decide (Z.to_nat i < length cells)%nat
  then Some (<[Z.to_nat i := c]> cells) else None.

Definition Board_at (b : Board) (x y : Z) : option Cell :=
  cells_at b (cell_index x y).

Definition Board_set (b : Board) (x y : Z) (c : Cell) : option Board :=
  cells_set b (cell_index x y) c.

(** The constructor [Board(const std::string&)]: the array starts with the
    indeterminate contents [cells0] and is filled cell by cell. *)
Fixpoint Board_fill (cells : Board) (idx : Z) (str : list ascii)
  : option (Board * Z) :=
  match str with
  | [] => Some (cells, idx)
  | chr :: rest =>
      c ← parseCell chr;
      cells' ← cells_set cells idx c;
      Board_fill cells' (to_size_t (idx + 1)) rest
  end.

Definition Board_of_string (cells0 : Board) (str : string) : option Board :=
  '(cells, idx) ← Board_fill cells0 0 (list_ascii_of_string str);
  if idx =? BOARD_CELLS then Some cells else None.

Definition INITIAL_BOARD : string :=
  "........" ++
  "........" ++
  "........" ++
  "...OX..." ++
  "...XO..." ++
  "........" ++
  "........" ++
  "........".

Definition isFilled (b : Board) : bool :=
  forallb (fun cell => negb (bool_decide (cell = EMPTY))) b.

(** The counter of [getBlackOccupation] before the division. *)
Definition count_black (b : Board) : Z :=
  fold_left (fun black cell =>
               if decide (cell = BLACK) then to_size_t (black + 1) else black)
            b 0.

Definition flip_cell (c : Cell) : Cell :=
  match c with BLACK => WHITE | WHITE => BLACK | EMPTY => EMPTY end.

Definition flipPlayer (b : Board) : Board := map flip_cell b.

Definition flipped (b : Board) : Board := flipPlayer b.

Definition isInBound (x y dx dy : Z) : bool :=
  if (dx <? 0) && (x <? to_size_t (- dx)) then false
  else if (dy <? 0) && (y <? to_size_t (- dy)) then false
  else (to_size_t (x + to_size_t dx) <? BOARD_SIZE)
       && (to_size_t (y + to_size_t dy) <? BOARD_SIZE).

(** The product [n * dx] of a [size_t] and an [int], as a [size_t]. *)
Definition step_mul (n d : Z) : Z := to_size_t (n * to_size_t d).

(** The inner [for (; isInBound(x, y, n * dx, n * dy); ++n)] of [put]:
    the final [n] and [blackFound]. [None] when [fuel] runs out or when
    [at] throws. *)
Fixpoint scan_run (fuel : nat) (b : Board) (x y dx dy n : Z)
  : option (Z * bool) :=
  match fuel with
  | O => None
  | S fuel' =>
      if isInBound x y (to_int (step_mul n dx)) (to_int (step_mul n dy)) then
        state ← Board_at b (to_size_t (x + step_mul n dx))
                          (to_size_t (y + step_mul n dy));
        match state with
        | WHITE => scan_run fuel' b x y dx dy (to_size_t (n + 1))
        | BLACK => Some (n, true)
        | EMPTY => Some (n, false)
        end
      else Some (n, false)
  end.

(** [for (size_t i = 1; i < n; ++i) at(x + i * dx, y + i * dy) = BLACK]. *)
Fixpoint flip_run (fuel : nat) (b : Board) (x y dx dy i n : Z)
  : option Board :=
  match fuel with
  | O => None
  | S fuel' =>
      if i <? n then
        b' ← Board_set b (to_size_t (x + step_mul i dx))
                         (to_size_t (y + step_mul i dy)) BLACK;
        flip_run fuel' b' x y dx dy (to_size_t (i + 1)) n
      else Some b
  end.

Definition RUN_FUEL : nat := 8.

(** The body of the two direction loops of [put], on the pair of the board
    and [valid]. *)
Definition put_dir (x y dx dy : Z) (st : Board * bool)
  : option (Board * bool) :=
  if (dx =? 0) && (dy =? 0) then Some st
  else
    '(n, blackFound) ← scan_run RUN_FUEL st.1 x y dx dy 1;
    if blackFound && (1 <? n) then
      b' ← flip_run RUN_FUEL st.1 x y dx dy 1 n;
      Some (b', true)
    else Some st.

Fixpoint for_each {S A : Type} (body : A → S → option S) (l : list A) (st : S)
  : option S :=
  match l with
  | [] => Some st
  | a :: l' => st' ← body a st; for_each body l' st'
  end.

Definition DELTAS : list Z := [-1; 0; 1].

(** [Board::put]: the result and the board after the call. *)
Definition put (b : Board) (x y : Z) : option (bool * Board) :=
  if negb (isInBound x y 0 0) then Some (false, b)
  else
    c ← Board_at b x y;
    if negb (bool_decide (c = EMPTY)) then Some (false, b)
    else
      b1 ← Board_set b x y BLACK;
      '(b2, valid) ←
        for_each (fun dx => for_each (fun dy => put_dir x y dx dy) DELTAS)
                 DELTAS (b1, false);
      Some (valid, b2).

Definition COORDS : list Z := seqZ 0 BOARD_SIZE.

(** [Board::getNextStates]: [tmp] is a copy of [*this] at every call of
    [put]. *)
Definition getNextStates (b : Board) : option (list Board) :=
  for_each (fun y =>
    for_each (fun x boards =>
      '(ok, tmp) ← put b x y;
      Some (if ok : bool then boards ++ [flipPlayer tmp] else boards))
    COORDS)
  COORDS [].

(** ** Floating-point arithmetic

    [float] values and the operations the program applies to them. The
    tree code is written once over this interface; [binary32] below is the
    IEEE 754 single-precision arithmetic the compiled program runs, and
    [exact_arith] is arithmetic without rounding, over the rationals. *)

Class FloatArith (F : Type) := {
  f_of_size : Z → F;          (* conversion of a [size_t] to [float] *)
  f_of_int : Z → F;           (* conversion of an [int] to [float] *)
  f_add : F → F → F;
  f_sub : F → F → F;
  f_mul : F → F → F;
  f_div : F → F → F;
}.

(** What [calcUCB] needs on top: the order, [INFINITY], [sqrtf], [logf] and
    the constant [(float)M_SQRT2]. [sqrtf] and [logf] belong to the C
    library, not to this program. *)
Class FloatUCB (F : Type) `{FloatArith F} := {
  f_lt : F → F → bool;
  f_INFINITY : F;
  f_M_SQRT2 : F;
  sqrtf : F → F;
  logf : F → F;
}.

Definition b32_of_Z (z : Z) : spec_float := binary_normalize 24 128 z 0 false.

#[global] Instance binary32 : FloatArith spec_float := {|
  f_of_size := b32_of_Z;
  f_of_int := b32_of_Z;
  f_add := SFadd 24 128;
  f_sub := SFsub 24 128;
  f_mul := SFmul 24 128;
  f_div := SFdiv 24 128;
|}.

#[global] Instance exact_arith : FloatArith Qc := {|
  f_of_size := Qc_of_Z;
  f_of_int := Qc_of_Z;
  f_add := Qcplus;
  f_sub := Qcminus;
  f_mul := Qcmult;
  f_div := Qcdiv;
|}.

(** The rational a finite [spec_float] denotes. *)
Definition SF2Q (f : spec_float) : option Q :=
  match f with
  | S754_zero _ => Some 0%Q
  | S754_finite s m e =>
      let v := (inject_Z (Z.pos m) * (if 0 <=? e then inject_Z (2 ^ e)
                                      else / inject_Z (2 ^ (- e))))%Q in
      Some (if s then (- v)%Q else v)
  | _ => None
  end.

(** ** The random source

    [std::mt19937] with [std::uniform_int_distribution<size_t>(lo, hi)]:
    a state and a draw that lands in [lo .. hi]. *)

Class RandomEngine (R : Type) := {
  uniform_int : R → Z → Z → Z * R;
  uniform_int_range : ∀ g lo hi, lo ≤ hi →
    lo ≤ (uniform_int g lo hi).1 ≤ hi;
}.

(** [RNG::randomIndex]; [None] is the failed [assert(n > 0)]. *)
Definition randomIndex {R} `{RandomEngine R} (g : R) (n : Z) : option (Z * R) :=
  if negb (0 <? n) then None
  else if n =? 1 then Some (0, g)
  else Some (uniform_int g 0 (to_size_t (n - 1))).

(** ** Search-tree nodes

    Nodes live in a store addressed by position; [parent_] and [children_]
    hold addresses. [std::make_shared<Node>] allocates at the end of the
    store. *)

Record Node (F : Type) := mkNode {
  board_ : Board;
  player_ : Player;
  isPassMove_ : bool;
  games_ : Z;
  mean_ : F;
  parent_ : option nat;
  children_ : list nat;
}.
Arguments mkNode {F}.
Arguments board_ {F}.
Arguments player_ {F}.
Arguments isPassMove_ {F}.
Arguments games_ {F}.
Arguments mean_ {F}.
Arguments parent_ {F}.
Arguments children_ {F}.

Abbreviation Heap F := (list (Node F)).

Section TreeOps.
Context {F : Type} `{FloatArith F}.

(** The constructor [Node(board, player, parent)]. *)
Definition new_Node (board : Board) (player : Player) (parent : option nat)
  : Node F :=
  mkNode board player false 0 (f_of_int 0) parent [].

Definition set_isPassMove (b : bool) (n : Node F) : Node F :=
  mkNode (board_ n) (player_ n) b (games_ n) (mean_ n) (parent_ n)
         (children_ n).

Definition set_stats (games : Z) (mean : F) (n : Node F) : Node F :=
  mkNode (board_ n) (player_ n) (isPassMove_ n) games mean (parent_ n)
         (children_ n).

Definition push_child (c : nat) (n : Node F) : Node F :=
  mkNode (board_ n) (player_ n) (isPassMove_ n) (games_ n) (mean_ n)
         (parent_ n) (children_ n ++ [c]).

(** [children_.emplace_back(std::make_shared<Node>(board, player, this))]
    executed by the node at address [a]. *)
Definition emplace_child (a : nat) (player : Player) (board : Board)
           (h : Heap F) : Heap F :=
  let c := length h in
  alter (push_child c) a (h ++ [new_Node board player (Some a)]).

Definition isLeafNode (h : Heap F) (a : nat) : option bool :=
  n ← h !! a;
  if bool_decide (children_ n = []) then Some true
  else if isFilled (board_ n) then Some true
  else match parent_ n with
       | None => Some false
       | Some p =>
           if isPassMove_ n then pn ← h !! p; Some (isPassMove_ pn)
           else Some false
       end.

Definition getBlackOccupation (b : Board) : F :=
  f_div (f_of_size (count_black b)) (f_of_size BOARD_CELLS).

(** The statement [mean_ = (games_ * mean_ + occ) / (games_ + 1); ++games_]
    of [propagateResult], on one node. *)
Definition receive (occ : F) (n : Node F) : Node F :=
  set_stats (to_size_t (games_ n + 1))
            (f_div (f_add (f_mul (f_of_size (games_ n)) (mean_ n)) occ)
                   (f_of_size (to_size_t (games_ n + 1))))
            n.

(** [Node::propagateResult]; [fuel] bounds the depth of the recursion. *)
Fixpoint propagateResult (fuel : nat) (h : Heap F) (a : nat) (occ : F)
  : option (Heap F) :=
  match fuel with
  | O => None
  | S fuel' =>
      n ← h !! a;
      let h' := <[a := receive occ n]> h in
      match parent_ n with
      | Some p => propagateResult fuel' h' p (f_sub (f_of_int 1) occ)
      | None => Some h'
      end
  end.

(** The [while (!current.isFilled())] loop of [playout]: the final board
    and player. *)
Fixpoint playout_loop {R} `{RandomEngine R} (fuel : nat) (g : R)
         (current : Board) (player : Player) (passed : bool)
  : option (Board * Player * R) :=
  match fuel with
  | O => None
  | S fuel' =>
      if isFilled current then Some (current, player, g)
      else
        boards ← getNextStates current;
        if bool_decide (boards = []) then
          if passed then Some (current, player, g)
          else playout_loop fuel' g (flipped current) (other_player player)
                            true
        else
          '(idx, g') ← randomIndex g (Z.of_nat (length boards));
          next ← boards !! Z.to_nat idx;
          playout_loop fuel' g' next (other_player player) false
  end.

(** [Node::playout] of the node at address [a]; the recursion of
    [propagateResult] gets the size of the store as fuel. *)
Definition playout {R} `{RandomEngine R} (fuel : nat) (h : Heap F)
           (a : nat) (g : R) : option (Heap F * R) :=
  n ← h !! a;
  '(current, player, g') ←
    playout_loop fuel g (board_ n) (player_ n) (isPassMove_ n);
  let occ := getBlackOccupation current in
  h' ← propagateResult (length h) h a
         (if bool_decide (player = player_ n)
          then f_sub (f_of_int 1) occ else occ);
  Some (h', g').

(** [Node::expand]; [None] is a failed [assert(parent_)]. *)
Definition expand (h : Heap F) (a : nat) : option (Heap F) :=
  n ← h !! a;
  stop ← (if isPassMove_ n
          then p ← parent_ n; pn ← h !! p; Some (isPassMove_ pn)
          else Some false);
  if stop : bool then Some h
  else if bool_decide (children_ n = [])
          && (MIN_VISITS_TO_EXPAND <=? games_ n) then
    let nextPlayer := other_player (player_ n) in
    boards ← getNextStates (board_ n);
    let pass := bool_decide (boards = []) in
    let h1 := <[a := set_isPassMove pass n]> h in
    if pass then
      p ← parent_ n;
      pn ← h1 !! p;
      if negb (isPassMove_ pn)
      then Some (emplace_child a nextPlayer (flipped (board_ n)) h1)
      else Some h1
    else
      Some (fold_left (fun hh board => emplace_child a nextPlayer board hh)
                      boards h1)
  else Some h.

(** [std::distance(begin, std::max_element(begin, end))]: the position of
    the first element no later one exceeds. *)
Fixpoint max_element_from {T} (lt : T → T → bool) (largest_i : nat)
         (largest : T) (i : nat) (values : list T) : nat :=
  match values with
  | [] => largest_i
  | v :: rest =>
      if lt largest v then max_element_from lt i v (S i) rest
      else max_element_from lt largest_i largest (S i) rest
  end.

Definition max_element {T} (lt : T → T → bool) (values : list T) : nat :=
  match values with
  | [] => 0%nat
  | v :: rest => max_element_from lt 0%nat v 1%nat rest
  end.

(** [Node::getChildWithMaxValue]; [None] is a failed assertion. *)
Definition getChildWithMaxValue {T} (lt : T → T → bool)
           (eval : Heap F → nat → option T) (h : Heap F) (a : nat)
  : option nat :=
  n ← h !! a;
  if bool_decide (children_ n = []) then None
  else
    values ← mapM (eval h) (children_ n);
    children_ n !! max_element lt values.

Definition getChildWithMaxVisits (h : Heap F) (a : nat) : option nat :=
  getChildWithMaxValue Z.ltb (fun h c => n ← h !! c; Some (games_ n)) h a.

Context `{!FloatUCB F}.

Definition EXPLORATION_CONST : F := f_M_SQRT2.

(** [Node::calcUCB] of the node at address [c]; [None] is a failed
    assertion. *)
Definition calcUCB (h : Heap F) (c : nat) : option F :=
  n ← h !! c;
  p ← parent_ n;
  pn ← h !! p;
  if negb (games_ n <=? games_ pn) then None
  else if games_ n =? 0 then Some f_INFINITY
  else
    let bias :=
      f_mul EXPLORATION_CONST
            (sqrtf (f_div (logf (f_of_size (games_ pn)))
                          (f_of_size (games_ n)))) in
    Some (f_add (mean_ n) bias).

Definition getChildWithMaxUCB (h : Heap F) (a : nat) : option nat :=
  getChildWithMaxValue f_lt calcUCB h a.

End TreeOps.

(** A random engine for running the model: a linear congruential
    generator whose draw is reduced into the requested range. *)
Definition lcg_draw (g lo hi : Z) : Z * Z :=
  (lo + g mod (hi - lo + 1),
   (6364136223846793005 * g + 1442695040888963407) mod 2 ^ 64).

#[global] Program Instance lcg_engine : RandomEngine Z := {|
  uniform_int := lcg_draw;
|}.
Next Obligation.
  intros g lo hi Hle. unfold lcg_draw. cbn [fst].
  pose proof (Z.mod_pos_bound g (hi - lo + 1)). lia.
Qed.

(** The standard opening position, cell by cell. *)
Definition initial_board : Board :=
  replicate 27 EMPTY ++ [WHITE; BLACK] ++ replicate 6 EMPTY
    ++ [BLACK; WHITE] ++ replicate 27 EMPTY.

Definition string_map (f : ascii → ascii) (s : string) : string :=
  string_of_list_ascii (map f (list_ascii_of_string s)).

(** ** Notions the statements use *)

(** Which cells of a board are empty. *)
Definition empty_mask (b : Board) : list bool :=
  (fun c => bool_decide (c = EMPTY)) <$> b.

Definition count_empty (b : Board) : nat :=
  length (filter (fun c => c = EMPTY) b).

(** The position of the cell [(x, y)] in the array. *)
Definition pos_of (x y : Z) : nat := Z.to_nat (x + 8 * y).

(** The coordinates [put] computes for the [n]-th cell of a direction. *)
Definition ray_x (x dx n : Z) : Z := to_size_t (x + step_mul n dx).
Definition ray_pos (x y dx dy n : Z) : nat :=
  Z.to_nat (cell_index (ray_x x dx n) (ray_x y dy n)).

(** What the direction loops of [put] keep: the empty cells stay the empty
    cells, and a black cell stays black. *)
Definition same_empties (b b' : Board) : Prop :=
  empty_mask b' = empty_mask b ∧ ∀ k, b !! k = Some BLACK → b' !! k = Some BLACK.


Definition on_board (x y : Z) : Prop := 0 ≤ x < 8 ∧ 0 ≤ y < 8.

(** The direction [(dx, dy)] captures from [(x, y)]: a run of [n] white
    cells next to [(x, y)], one or more, with a black cell right after
    it, all of them on the board. *)
Definition captures (b : Board) (x y dx dy : Z) : Prop :=
  ∃ n, 1 ≤ n ∧
    (∀ i, 1 ≤ i ≤ n →
       on_board (x + i * dx) (y + i * dy) ∧
       b !! pos_of (x + i * dx) (y + i * dy) = Some WHITE) ∧
    on_board (x + (n + 1) * dx) (y + (n + 1) * dy) ∧
    b !! pos_of (x + (n + 1) * dx) (y + (n + 1) * dy) = Some BLACK.

Definition is_direction (dx dy : Z) : Prop :=
  -1 ≤ dx ≤ 1 ∧ -1 ≤ dy ≤ 1 ∧ (dx ≠ 0 ∨ dy ≠ 0).

(** The boards [put] leaves for the four opening moves c3, d4 (in the
    program's coordinates [(3, 2)], [(2, 3)]), f5 and e6. *)
Definition opening_put (x y : Z) : Board :=
  default [] (snd <$> put initial_board x y).


(** A board of the result of [getNextStates b]: one accepted [put] on a
    cell of the board, then one [flipPlayer]. *)
Definition successor_of (b nb : Board) : Prop :=
  ∃ x y tmp, on_board x y ∧ put b x y = Some (true, tmp) ∧ nb = flipPlayer tmp.

(** The boards gathered by [getNextStates] before it reaches the cell
    number [k] in row-major order. *)
Definition gathered (b : Board) (k : Z) (boards : list Board) : Prop :=
  NoDup boards ∧
  ∀ nb, nb ∈ boards →
    ∃ x y tmp, on_board x y ∧ x + 8 * y < k ∧
               put b x y = Some (true, tmp) ∧ nb = flipPlayer tmp.


(** ** Notions about the tree *)

Section TreeNotions.
Context {F : Type} `{FloatArith F}.

(** Nodes are allocated after their parent: a parent's address is below
    its child's. *)
Definition parents_before (h : Heap F) : Prop :=
  ∀ a n p, h !! a = Some n → parent_ n = Some p → (p < a)%nat.

(** [reaches h a v b w]: a call [propagateResult(v)] on the node at [a]
    leads, through the parents, to the call [propagateResult(w)] on the
    node at [b]. *)
Inductive reaches (h : Heap F) : nat → F → nat → F → Prop :=
| reaches_here a v : reaches h a v a v
| reaches_parent a v n p b w :
    h !! a = Some n → parent_ n = Some p →
    reaches h p (f_sub (f_of_int 1) v) b w →
    reaches h a v b w.

(** Two nodes that differ in their statistics only. *)
Definition same_shape (n n' : Node F) : Prop :=
  board_ n' = board_ n ∧ player_ n' = player_ n ∧
  isPassMove_ n' = isPassMove_ n ∧ parent_ n' = parent_ n ∧
  children_ n' = children_ n.

(** The invariant of the visit counts: a node without visits has no
    children, and a node has no more visits than its parent. *)
Definition visit_inv (h : Heap F) : Prop :=
  ∀ a n, h !! a = Some n →
    (games_ n = 0 → children_ n = []) ∧
    (∀ p, parent_ n = Some p →
       ∃ pn, h !! p = Some pn ∧ games_ n ≤ games_ pn).

(** The visit counts are [size_t] values that one more visit does not
    overflow. *)
Definition games_bounded (h : Heap F) : Prop :=
  ∀ a n, h !! a = Some n → 0 ≤ games_ n < 2 ^ 64 - 1.

(** Every board of the store has its 64 cells. *)
Definition boards_sized (h : Heap F) : Prop :=
  ∀ a n, h !! a = Some n → length (board_ n) = 64%nat.

(** The children of the node [n] at [a] are nodes of the store below
    it, none visited more often than it: the assertions of [calcUCB]. *)
Definition children_attached (h : Heap F) (a : nat) (n : Node F) : Prop :=
  ∀ c, c ∈ children_ n →
       ∃ m, h !! c = Some m ∧ parent_ m = Some a ∧ games_ m ≤ games_ n.

(** The node at [c] has no visit. *)
Definition unvisited (h : Heap F) (c : nat) : Prop :=
  games_ <$> h !! c = Some 0.

#[global] Instance unvisited_dec h c : Decision (unvisited h c).
Proof. unfold unvisited. apply _. Defined.

(** The state [expand] keeps while it adds children to the node at [a]:
    the invariants, and a node at [a] that has been visited. *)
Definition expanding (a : nat) (h : Heap F) : Prop :=
  parents_before h ∧ visit_inv h ∧
  ∃ m, h !! a = Some m ∧ 1 ≤ games_ m.

End TreeNotions.

(** Fuel that lets the loop of [playout] finish from any board: a ply
    either fills a cell or is a pass that no second pass follows. *)
Definition PLAYOUT_FUEL : nat := 130.


(** ** A small search, for examples

    A position with two empty cells, [(0, 0)] and [(7, 7)], both of them
    legal moves, and the store after the first iterations of the loop of
    [searchMove] on it, in binary32 arithmetic. *)

Definition endgame_board : Board :=
  [EMPTY; WHITE] ++ replicate 45 BLACK ++ [WHITE] ++ replicate 14 BLACK
    ++ [WHITE; EMPTY].

(** The leaf step of [searchMove]: [c->playout(); c->expand();]. *)
Definition leaf_step {F} `{FloatArith F} {R} `{RandomEngine R}
           (a : nat) (st : Heap F * R) : option (Heap F * R) :=
  '(h1, g1) ← playout PLAYOUT_FUEL st.1 a st.2;
  h2 ← expand h1 a;
  Some (h2, g1).

Definition endgame_root : Heap spec_float :=
  [new_Node endgame_board PBLACK None].

(** The root and then its first child have been evaluated and expanded:
    the nodes 1 and 2 are the two moves, the node 3 is the reply to the
    first one and its board is full. *)
Definition endgame_search : option (Heap spec_float * Z) :=
  leaf_step 0 (endgame_root, 42) ≫= leaf_step 1.

Definition endgame_tree : Heap spec_float :=
  Eval vm_compute in default [] (fst <$> endgame_search).


(** The example tree once the loop has reached the node 3, a leaf, and
    has run [playout] on it; [expand] is the next call. *)
Definition endgame_tree_evaluated : Heap spec_float :=
  Eval vm_compute in
    default [] (fst <$> playout PLAYOUT_FUEL endgame_tree 3 42).


(** ** Running means

    In exact arithmetic: the values a node has received so far, kept
    beside the store, and their arithmetic mean. *)

Definition Qc_sum (vs : list Qc) : Qc := foldr Qcplus 0%Qc vs.

Definition average (vs : list Qc) : Qc :=
  (Qc_sum vs / Qc_of_Z (Z.of_nat (length vs)))%Qc.

Definition in_unit (v : Qc) : Prop := (0 ≤ v)%Qc ∧ (v ≤ 1)%Qc.

Definition mean_of (vs : list Qc) (n : Node Qc) : Prop :=
  games_ n = Z.of_nat (length vs) ∧ mean_ n = average vs.

(** [hist b] lists the values propagated to the node at [b], all of them
    in [0, 1]. *)
Definition tracks (hist : nat → list Qc) (h : Heap Qc) : Prop :=
  ∀ b n, h !! b = Some n → mean_of (hist b) n ∧ Forall in_unit (hist b).

(** The histories after the call [propagateResult(v)] on the node at [a]:
    a node the call reaches has one more value, the one that reached it. *)
Definition history_after (h : Heap Qc) (a : nat) (v : Qc)
           (hist hist' : nat → list Qc) : Prop :=
  (∀ b w, reaches h a v b w → hist' b = hist b ++ [w]) ∧
  (∀ b, (∀ w, ¬ reaches h a v b w) → hist' b = hist b).

(** A sequence of calls of [propagateResult] with values in [0, 1], none
    of which finds a visit count at [SIZE_MAX]. *)
Inductive propagated :
  Heap Qc → (nat → list Qc) → Heap Qc → (nat → list Qc) → Prop :=
| propagated_done h hist : propagated h hist h hist
| propagated_call h hist fuel a v h1 hist1 h2 hist2 :
    in_unit v → games_bounded h → (a < fuel)%nat →
    propagateResult fuel h a v = Some h1 →
    history_after h a v hist hist1 →
    propagated h1 hist1 h2 hist2 →
    propagated h hist h2 hist2.

(** In binary32: the calls [propagateResult(v)] for the values [vs], one
    after the other, on a root that has just been built, and the mean of
    the values as a rational number. *)
Definition propagate_at_root (vs : list spec_float)
  : option (Heap spec_float) :=
  for_each (fun v h => propagateResult 1 h 0 v) vs
           [new_Node initial_board PBLACK None].

Definition Q_mean (qs : list Q) : Q :=
  (fold_right Qplus 0 qs / inject_Z (Z.of_nat (length qs)))%Q.


(** ** Scores

    What the floating-point order is asked to be on the scores that a
    selection compares: a strict weak order, as [<] is on numbers that are
    not NaN. *)
Definition ordered_scores {T} (lt : T → T → bool) (vals : list T) : Prop :=
  (∀ a, a ∈ vals → lt a a = false) ∧
  (∀ a b c, a ∈ vals → b ∈ vals → c ∈ vals →
            lt a b = true → lt b c = true → lt a c = true) ∧
  (∀ a b c, a ∈ vals → b ∈ vals → c ∈ vals →
            lt a c = true → lt a b = true ∨ lt b c = true).

(** The position [r] holds the first maximum of [vals]: nothing exceeds
    its value and every earlier value is below it. *)
Definition first_maximum {T} (lt : T → T → bool) (vals : list T) (r : nat)
  : Prop :=
  ∃ m, vals !! r = Some m ∧
       (∀ v, v ∈ vals → lt m v = false) ∧
       (∀ j v, (j < r)%nat → vals !! j = Some v → lt v m = true).

(** The binary32 instance of the operations of [calcUCB]: [sqrtf] is
    correctly rounded, [(float)M_SQRT2] is [0x3FB504F3], and [logf] is
    left to the C library. *)
Definition binary32_ucb (logf : spec_float → spec_float)
  : FloatUCB spec_float := {|
  f_lt := SFltb;
  f_INFINITY := S754_infinity false;
  f_M_SQRT2 := S754_finite false 11863283 (-23);
  sqrtf := SFsqrt 24 128;
  logf := logf;
|}.

(** [logf] at the arguments the example trees need: [logf(1) = 0],
    [logf(2) = 0x3F317218] and [logf(3) = 0x3F8C9F54]. *)
Definition logf_sample (x : spec_float) : spec_float :=
  if SFeqb x (b32_of_Z 1) then S754_zero false
  else if SFeqb x (b32_of_Z 2) then S754_finite false 11629080 (-24)
  else if SFeqb x (b32_of_Z 3) then S754_finite false 9215828 (-23)
  else S754_nan.

Definition example_ucb : FloatUCB spec_float := binary32_ucb logf_sample.

(** The example tree one iteration later: the second child of the root
    has been evaluated and expanded, both children have one visit. *)
Definition endgame_tree_both : Heap spec_float :=
  Eval vm_compute in default [] (fst <$> (endgame_search ≫= leaf_step 2)).

(** ** Printing and reading

    [Board::print] writes to [std::cout]; the model returns the characters
    written, in order. *)

(** [typeToChar]; the [switch] returns for every cell, the [assert] after
    it is never reached. *)
Definition typeToChar (type : Cell) : ascii :=
  match type with
  | BLACK => "X"%char
  | WHITE => "O"%char
  | EMPTY => "."%char
  end.

(** The code of a character, and [static_cast<char>] of a [size_t]. *)
Definition code (c : ascii) : Z := Z.of_N (N_of_ascii c).
Definition char_of_size (z : Z) : ascii := ascii_of_N (Z.to_N (z mod 256)).

(** [std::endl] writes a line feed; [std::cout << n] writes a [size_t] in
    decimal. *)
Definition endl : ascii := ascii_of_N 10.
Definition decimal (n : Z) : list ascii :=
  list_ascii_of_string (NilZero.string_of_uint (N.to_uint (Z.to_N n))).

(** [Board::print]: the two header lines, then one line for every row. *)
Definition print (b : Board) : option (list ascii) :=
  let out := [" "; " "]%char in
  out ← for_each (fun x out =>
                    Some (out ++ [char_of_size (to_size_t (x + code "a"))]))
                 COORDS out;
  let out := out ++ [endl; " "; "+"]%char in
  out ← for_each (fun x out => Some (out ++ ["-"%char])) COORDS out;
  let out := out ++ [endl] in
  for_each (fun y out =>
              let out := out ++ decimal (to_size_t (y + 1)) ++ ["|"%char] in
              out ← for_each (fun x out =>
                                c ← Board_at b x y;
                                Some (out ++ [typeToChar c]))
                             COORDS out;
              Some (out ++ [endl]))
           COORDS out.

(** The value of a [char], a signed byte as with GCC on x86-64. [tolower]
    leaves the values that are no uppercase letter as they are. *)
Definition char_value (c : ascii) : Z :=
  if code c <? 128 then code c else code c - 256.

(** The coordinates [main] reads from the two characters of a move:
    [x = tolower(str[0]) - 'a'] and [y = str[1] - '1'], an [int] each,
    converted to [size_t]. *)
Definition move_x (c : ascii) : Z :=
  to_size_t (to_int (char_value (tolower c) - code "a")).
Definition move_y (c : ascii) : Z :=
  to_size_t (to_int (char_value c - code "1")).

(** The call [current.put(x, y)] of [main] on the two characters read. *)
Definition read_move (b : Board) (c0 c1 : ascii) : option (bool * Board) :=
  put b (move_x c0) (move_y c1).

(** The line of [print] that shows the row [y] starts at the character
    [22 + 11 * y] of its output, with the digit and the bar; the eight
    cells follow. *)
Definition printed_row (out : list ascii) (y : nat) : list ascii :=
  take 8 (drop (24 + 11 * y) out).

Definition printed_cells (out : list ascii) : list ascii :=
  y ← seq 0 8; printed_row out y.

(** The column letter and the row digit [print] shows for a cell. *)
Definition column_label (out : list ascii) (x : Z) : option ascii :=
  out !! Z.to_nat (2 + x).
Definition row_label (out : list ascii) (y : Z) : option ascii :=
  out !! Z.to_nat (22 + 11 * y).

(** A move in the notation of the program: a column letter of either
    case, then a row digit. *)
Definition is_notation (c0 c1 : ascii) : Prop :=
  (97 ≤ code c0 ≤ 104 ∨ 65 ≤ code c0 ≤ 72) ∧ 49 ≤ code c1 ≤ 56.

(** The number of cells of one colour. *)
Definition count_cells (c : Cell) (b : Board) : nat :=
  length (filter (fun c' => c' = c) b).

(** ** Notions about moves *)

(** The pairs [(dx, dy)] in the order in which the two loops of [put] go
    through them. *)
Definition DIRECTIONS : list (Z * Z) :=
  dx ← DELTAS; dy ← DELTAS; [(dx, dy)].

(** The direction [(dx, dy)] captures a run of exactly [n] cells. *)
Definition captured_run (b : Board) (x y dx dy n : Z) : Prop :=
  1 ≤ n ∧
  (∀ i, 1 ≤ i ≤ n →
     on_board (x + i * dx) (y + i * dy) ∧
     b !! pos_of (x + i * dx) (y + i * dy) = Some WHITE) ∧
  on_board (x + (n + 1) * dx) (y + (n + 1) * dy) ∧
  b !! pos_of (x + (n + 1) * dx) (y + (n + 1) * dy) = Some BLACK.

(** The cell at the position [k] lies on the run that a direction among
    [D] captures from [(x, y)]. *)
Definition flipped_within (D : list (Z * Z)) (b : Board) (x y : Z) (k : nat)
  : Prop :=
  ∃ dx dy n i, (dx, dy) ∈ D ∧ is_direction dx dy ∧
    captured_run b x y dx dy n ∧ 1 ≤ i ≤ n ∧
    k = pos_of (x + i * dx) (y + i * dy).

(** The cells a move on [(x, y)] flips: those of the captured runs. *)
Definition flipped_by (b : Board) (x y : Z) (k : nat) : Prop :=
  ∃ dx dy n i, is_direction dx dy ∧
    captured_run b x y dx dy n ∧ 1 ≤ i ≤ n ∧
    k = pos_of (x + i * dx) (y + i * dy).

(** What holds between the iterations of the loops of [put] on the cell
    [(x, y)] of [b], once the directions [D] are done. *)
Definition put_inv (b : Board) (x y : Z) (D : list (Z * Z))
           (st : Board * bool) : Prop :=
  length st.1 = 64%nat ∧
  st.1 !! pos_of x y = Some BLACK ∧
  (∀ k, flipped_within D b x y k → st.1 !! k = Some BLACK) ∧
  (∀ k, k ≠ pos_of x y → ¬ flipped_within D b x y k → st.1 !! k = b !! k) ∧
  (st.2 = true ↔
   ∃ dx dy, (dx, dy) ∈ D ∧ is_direction dx dy ∧ captures b x y dx dy).

(** The successor board [getNextStates] adds for the cell number [k], if
    it adds one. *)
Definition successor_at (b : Board) (k : nat) : option Board :=
  match put b (Z.of_nat k mod 8) (Z.of_nat k / 8) with
  | Some (true, tmp) => Some (flipPlayer tmp)
  | _ => None
  end.

(** ** The search

    [searchMove] runs its loop for as long as [clock()] allows; the model
    takes the number of iterations the clock lets through, and leaves out
    the line written to [std::cout]. *)

Section Search.
Context {F : Type} `{FloatArith F}.

Definition getBoard (h : Heap F) (a : nat) : option Board :=
  board_ <$> h !! a.

Definition getNumGames (h : Heap F) (a : nat) : option Z :=
  games_ <$> h !! a.

Definition getExpectedOccupation (h : Heap F) (a : nat) : option F :=
  (fun n => f_sub (f_of_int 1) (mean_ n)) <$> h !! a.

Context `{!FloatUCB F} {R : Type} `{RandomEngine R}.

(** The inner [while (true)] of [searchMove]: the walk from [current] down
    to a leaf, then [playout] and [expand] on the leaf. [fuel] bounds the
    length of the walk; [None] is a failed assertion, or no fuel. *)
Fixpoint descend (fuel : nat) (h : Heap F) (current : nat) (g : R)
  : option (Heap F * R) :=
  match fuel with
  | O => None
  | S fuel' =>
      leaf ← isLeafNode h current;
      if leaf : bool then leaf_step current (h, g)
      else
        c ← getChildWithMaxUCB h current;
        descend fuel' h c g
  end.

(** The outer loop, for [iterations] iterations from the root at the
    address 0; a walk gets the size of the store as fuel. *)
Fixpoint search_loop (iterations : nat) (st : Heap F * R)
  : option (Heap F * R) :=
  match iterations with
  | O => Some st
  | S k =>
      st' ← descend (length st.1) st.1 0 st.2;
      search_loop k st'
  end.

(** The tree [searchMove] has built when its loop ends. *)
Definition search_tree (iterations : nat) (board : Board) (g : R)
  : option (Heap F * R) :=
  h0 ← expand [new_Node board PBLACK None] 0;
  search_loop iterations (h0, g).

Definition searchMove (iterations : nat) (board : Board) (g : R)
  : option (Board * R) :=
  boards ← getNextStates board;
  match boards with
  | [] => Some (flipped board, g)
  | [only] => Some (only, g)
  | _ =>
      '(h, g') ← search_tree iterations board g;
      c ← getChildWithMaxVisits h 0;
      nb ← getBoard h c;
      Some (nb, g')
  end.

End Search.

(** The root of the example search after [playout], before [expand]. *)
Definition endgame_root_evaluated : Heap spec_float :=
  Eval vm_compute in
    default [] (fst <$> playout PLAYOUT_FUEL endgame_root 0 42).

(** ** Notions about the search *)

Section SearchNotions.
Context {F : Type} `{FloatArith F}.

Definition add_children (cs : list nat) (n : Node F) : Node F :=
  mkNode (board_ n) (player_ n) (isPassMove_ n) (games_ n) (mean_ n)
         (parent_ n) (children_ n ++ cs).

(** Children and parents agree: a child of the node at [a] is a node of
    the store whose parent is [a]; the root, at the address 0, is the
    only node without a parent. *)
Definition well_linked (h : Heap F) : Prop :=
  (∀ a n c, h !! a = Some n → c ∈ children_ n →
            ∃ m, h !! c = Some m ∧ parent_ m = Some a) ∧
  (∀ a n, h !! a = Some n → parent_ n = None → a = 0%nat).

(** The store is a game tree: a child holds a successor of the board of
    its parent, or the same position passed on when there is no successor,
    with the other player to move. *)
Definition game_tree (h : Heap F) : Prop :=
  ∀ a n c m, h !! a = Some n → c ∈ children_ n → h !! c = Some m →
    player_ m = other_player (player_ n) ∧
    ∃ boards, getNextStates (board_ n) = Some boards ∧
      (board_ m ∈ boards ∨ boards = [] ∧ board_ m = flipped (board_ n)).

(** The children of the root hold the boards [boards], in this order. *)
Definition root_children (boards : list Board) (h : Heap F) : Prop :=
  ∃ root, h !! 0%nat = Some root ∧
    Forall2 (fun c nb => getBoard h c = Some nb) (children_ root) boards.

(** The state of the store between two iterations of the loop of
    [searchMove] on [board], after [k] iterations. *)
Definition search_inv (board : Board) (boards : list Board) (k : Z)
           (h : Heap F) : Prop :=
  parents_before h ∧ visit_inv h ∧ boards_sized h ∧ well_linked h ∧
  game_tree h ∧
  (∀ a n, h !! a = Some n → 0 ≤ games_ n ≤ k) ∧
  ∃ root, h !! 0%nat = Some root ∧ parent_ root = None ∧
          board_ root = board ∧ games_ root = k ∧
          isPassMove_ root = false ∧
          (children_ root = [] ∨ root_children boards h).

End SearchNotions.

(** ** The occupation in binary32 *)

(** [static_cast<float>(black) / BOARD_CELLS] for a count [black]. *)
Definition occupation_of (black : Z) : spec_float :=
  f_div (f_of_size black) (f_of_size BOARD_CELLS).

(** The binary32 value [f] denotes the rational [q]. *)
Definition denotes (f : spec_float) (q : Q) : bool :=
  match SF2Q f with
  | Some q' => Qeq_bool q' q
  | None => false
  end.

(** For the count [black]: the occupation and one minus the occupation
    are computed without rounding, and subtracting from one twice gives
    the occupation back. *)
Definition occupation_exact (black : Z) : bool :=
  let occ := occupation_of black in
  denotes occ (black # 64)
  && denotes (f_sub (f_of_int 1) occ) (1 - (black # 64))
  && SFeqb (f_sub (f_of_int 1) (f_sub (f_of_int 1) occ)) occ.

(** ** The loop of [main] *)

Section Main.
Context {F : Type} `{FloatArith F} `{!FloatUCB F} {R : Type} `{RandomEngine R}.

(** One pass through the inner loop of [main] on the two characters read
    from [std::cin]. When [put] refuses them the program asks again:
    [inl], with the board as [put] left it. When [put] accepts them the
    outer loop goes on with [flipPlayer] and [searchMove]: [inr], with
    the board and the engine after the search. What is written to
    [std::cout] is left out. *)
Definition main_step (iterations : nat) (current : Board) (c0 c1 : ascii)
           (g : R) : option (Board + Board * R) :=
  '(ok, current) ← read_move current c0 c1;
  if ok : bool then
    st ← searchMove iterations (flipPlayer current) g;
    Some (inr st)
  else Some (inl current).

End Main.

(** ** Sharing the visits *)

Section VisitNotions.
Context {F : Type} `{FloatArith F}.

(** The visits of the nodes at the addresses [cs], added up. *)
Definition sum_games (h : Heap F) (cs : list nat) : Z :=
  foldr (fun c acc => default 0 (getNumGames h c) + acc) 0 cs.

(** The node at [b] is the node at [a] or one of its ancestors: a value
    propagated from [a] reaches it. *)
Definition ancestor (h : Heap F) (a b : nat) : Prop :=
  ∃ v w, reaches h a v b w.

(** How the children of the root share its visits after [k] iterations:
    they are listed once each, they are all the nodes whose parent is the
    root, and their visits add up to [k - 1]; a root without children has
    [k0] visits. *)
Definition visits_shared (k0 k : Z) (h : Heap F) : Prop :=
  ∃ root, h !! 0%nat = Some root ∧ NoDup (children_ root) ∧
    (∀ c m, h !! c = Some m → parent_ m = Some 0%nat → c ∈ children_ root) ∧
    (children_ root = [] → k = k0) ∧
    (children_ root ≠ [] → sum_games h (children_ root) = k - 1).

End VisitNotions.

(** ** Layout characters

    The characters of a layout string, as a table: an [X] or an [x] is a
    black stone, an [O] or an [o] a white one, a [.] an empty cell, and no
    other character names a cell. *)
Definition layout_cell (chr : ascii) : option Cell :=
  if (Ascii.eqb chr "X" || Ascii.eqb chr "x")%bool then Some BLACK
  else if (Ascii.eqb chr "O" || Ascii.eqb chr "o")%bool then Some WHITE
  else if Ascii.eqb chr "." then Some EMPTY
  else None.

(** The layout string of a board, in the characters [print] uses. *)
Definition layout_of (b : Board) : string :=
  string_of_list_ascii (typeToChar <$> b).

(** ** Rounding to binary32

    The finite binary32 numbers that are not negative are the multiples
    [m * 2 ^ e] with [m < 2 ^ 24] and [-149 ≤ e], and a product of two of
    them is a multiple of [2 ^ -298]. A number [N * 2 ^ -298] is written
    [N] here. [b32_cexp N] is the exponent of the binary32 numbers around
    it, in the same unit, and [b32_round N] the binary32 number nearest
    to it, the one with the even mantissa if it lies halfway. *)

Definition b32_cexp (N : Z) : Z := Z.max (Zdigits2 N - 24) 149.

Definition b32_round_up (q r w : Z) : Z :=
  if 2 * r <? w then 0
  else if (2 * r =? w) && Z.even q then 0 else 1.

Definition b32_round (N : Z) : Z :=
  let w := 2 ^ b32_cexp N in
  (N / w + b32_round_up (N / w) (N mod w) w) * w.

(** [b32_scaled f N]: [f] is a binary32 number, zero or positive, and it
    is [N * 2 ^ -298]. *)
Definition b32_scaled (f : spec_float) (N : Z) : Prop :=
  match f with
  | S754_zero _ => N = 0
  | S754_finite false m e =>
      bounded 24 128 m e = true ∧ N = Zpos m * 2 ^ (e + 298)
  | _ => False
  end.

(** The binary32 numbers of the interval [0, 1]. *)
Definition b32_unit (v : spec_float) : Prop :=
  valid_binary 24 128 v = true ∧
  SFleb (b32_of_Z 0) v = true ∧ SFleb v (b32_of_Z 1) = true.

(** Every mean of the store is a binary32 number of [0, 1]. *)
Definition means_in_unit (h : Heap spec_float) : Prop :=
  ∀ b n, h !! b = Some n → b32_unit (mean_ n).

(** A sequence of calls of [propagateResult] in binary32, with values in
    [0, 1], none of which finds a visit count at [SIZE_MAX]. *)
Inductive propagated32 : Heap spec_float → Heap spec_float → Prop :=
| propagated32_done h : propagated32 h h
| propagated32_call h fuel a v h1 h2 :
    b32_unit v → games_bounded h → (a < fuel)%nat →
    propagateResult fuel h a v = Some h1 →
    propagated32 h1 h2 →
    propagated32 h h2.
(** A root and its child in exact arithmetic, and the values the two
    have received. *)
Definition exact_pair : Heap Qc :=
  [new_Node initial_board PBLACK None;
   new_Node initial_board PWHITE (Some 0%nat)].

Definition pair_hist (l0 l1 : list Qc) (b : nat) : list Qc :=
  match b with
  | 0%nat => l0
  | 1%nat => l1
  | _ => []
  end.

(** The example tree after three calls in binary32: [1/4] to the node 3,
    [1] to the node 2, [1/2] to the node 3. *)
Definition endgame_tree_propagated : Heap spec_float :=
  Eval vm_compute in
    default []
      (h1 ← propagateResult 4 endgame_tree 3 (S754_finite false 8388608 (-25));
       h2 ← propagateResult 4 h1 2 (b32_of_Z 1);
       propagateResult 4 h2 3 (S754_finite false 8388608 (-24))).


(** * Properties of the board *)

(** ** Machine arithmetic *)

Lemma to_size_t_small z : 0 ≤ z < 2 ^ 64 → to_size_t z = z.
Proof. intros. unfold to_size_t. by apply Z.mod_small. Qed.

Lemma to_size_t_range z : 0 ≤ to_size_t z < 2 ^ 64.
Proof. unfold to_size_t. by apply Z.mod_pos_bound. Qed.

Lemma to_int_small z : - 2 ^ 31 ≤ z < 2 ^ 31 → to_int z = z.
Proof. intros. unfold to_int. rewrite Z.mod_small; lia. Qed.

Lemma BOARD_CELLS_eq : BOARD_CELLS = 64.
Proof. reflexivity. Qed.

(** A coordinate pair passes the bounds check of [put] exactly when both
    coordinates are below [BOARD_SIZE]. *)
Lemma isInBound_origin x y :
  0 ≤ x < 2 ^ 64 → 0 ≤ y < 2 ^ 64 →
  isInBound x y 0 0 = bool_decide (x < 8 ∧ y < 8).
Proof.
  intros Hx Hy. unfold isInBound. cbn [Z.ltb Z.compare andb].
  change (to_size_t 0) with 0. rewrite !Z.add_0_r, !to_size_t_small by done.
  unfold BOARD_SIZE.
  destruct (Z.ltb_spec x 8), (Z.ltb_spec y 8); cbn;
    symmetry; (apply bool_decide_eq_true_2 || apply bool_decide_eq_false_2);
    lia.
Qed.

Lemma cell_index_small x y :
  0 ≤ x < 8 → 0 ≤ y < 8 → cell_index x y = x + 8 * y.
Proof.
  intros Hx Hy. unfold cell_index, BOARD_SIZE.
  rewrite (to_size_t_small (y * 8)) by lia.
  rewrite to_size_t_small; lia.
Qed.

(** ** Parsing *)

Lemma tolower_idemp chr : tolower (tolower chr) = tolower chr.
Proof. by destruct chr as [[] [] [] [] [] [] [] []]. Qed.

Lemma tolower_toupper chr : tolower (toupper chr) = tolower chr.
Proof. by destruct chr as [[] [] [] [] [] [] [] []]. Qed.

Lemma parseCell_tolower chr : parseCell (tolower chr) = parseCell chr.
Proof. unfold parseCell. by rewrite tolower_idemp. Qed.

Lemma parseCell_toupper chr : parseCell (toupper chr) = parseCell chr.
Proof. unfold parseCell. by rewrite tolower_toupper. Qed.

Lemma Board_fill_map (f : ascii → ascii) cells idx str :
  (∀ chr, parseCell (f chr) = parseCell chr) →
  Board_fill cells idx (map f str) = Board_fill cells idx str.
Proof.
  intros Hf. revert cells idx.
  induction str as [|chr rest IH]; intros cells idx; [done|].
  cbn [map Board_fill]. rewrite Hf.
  destruct (parseCell chr) as [c|]; [|done]. cbn.
  destruct (cells_set cells idx c) as [cells'|]; [|done]. cbn.
  apply IH.
Qed.

Lemma Board_of_string_map (f : ascii → ascii) cells0 str :
  (∀ chr, parseCell (f chr) = parseCell chr) →
  Board_of_string cells0 (string_map f str) = Board_of_string cells0 str.
Proof.
  intros Hf. unfold Board_of_string, string_map.
  by rewrite list_ascii_of_string_of_list_ascii, Board_fill_map.
Qed.

(** What [Board_fill] leaves in the array: the cells before [idx], the
    parsed cells, the cells after them. *)
Lemma Board_fill_spec cells idx str parsed :
  mapM parseCell str = Some parsed →
  (idx + length str ≤ length cells)%nat →
  Z.of_nat (length cells) < 2 ^ 64 →
  Board_fill cells (Z.of_nat idx) str
  = Some (take idx cells ++ parsed ++ drop (idx + length str) cells,
          Z.of_nat (idx + length str)).
Proof.
  revert cells idx parsed.
  induction str as [|chr rest IH]; intros cells idx parsed Hp Hlen Hbig.
  - injection Hp as <-. cbn.
    by rewrite Nat.add_0_r, take_drop.
  - cbn in Hp. destruct (parseCell chr) as [c|] eqn:Hc; [|done].
    cbn in Hp. destruct (mapM parseCell rest) as [ps|] eqn:Hps; [|done].
    cbn in Hp. injection Hp as <-. cbn [Board_fill length] in *.
    rewrite Hc. cbn.
    unfold cells_set. rewrite Nat2Z.id.
    destruct (decide (idx < length cells)%nat) as [Hi|Hi]; [|lia]. cbn.
    rewrite to_size_t_small by lia.
    replace (Z.of_nat idx + 1) with (Z.of_nat (S idx)) by lia.
    rewrite (IH _ (S idx) ps eq_refl); rewrite ?length_insert; [|lia|lia].
    replace (S idx + length rest)%nat with (idx + S (length rest))%nat by lia.
    do 2 f_equal.
    rewrite drop_insert_lt by lia.
    rewrite (take_S_r _ _ c); [|by apply list_lookup_insert_eq].
    rewrite take_insert_ge by lia. by rewrite <- app_assoc.
Qed.

Lemma Board_of_string_INITIAL cells0 :
  length cells0 = 64%nat →
  Board_of_string cells0 INITIAL_BOARD = Some initial_board.
Proof.
  intros Hlen. unfold Board_of_string.
  rewrite (Board_fill_spec cells0 0 _ initial_board); [|done|by rewrite Hlen|lia].
  change (length (list_ascii_of_string INITIAL_BOARD)) with 64%nat.
  rewrite drop_ge by lia. reflexivity.
Qed.

(** ** The frame of [put] *)

Lemma cells_set_Some b i c b' :
  cells_set b i c = Some b' →
  b' = <[Z.to_nat i := c]> b ∧ (Z.to_nat i < length b)%nat.
Proof. unfold cells_set. case_decide; naive_solver. Qed.

Lemma empty_mask_length b : length (empty_mask b) = length b.
Proof. unfold empty_mask. by rewrite length_fmap. Qed.

Lemma empty_mask_lookup b k :
  empty_mask b !! k = (fun c => bool_decide (c = EMPTY)) <$> b !! k.
Proof. unfold empty_mask. by rewrite list_lookup_fmap. Qed.

Lemma empty_mask_occupied b k :
  empty_mask b !! k = Some false ↔ ∃ c, b !! k = Some c ∧ c ≠ EMPTY.
Proof.
  rewrite empty_mask_lookup. destruct (b !! k) as [c|]; cbn.
  - split.
    + intros [= Hc]. exists c. split; [done|].
      by apply bool_decide_eq_false in Hc.
    + intros (c' & [= <-] & Hne). f_equal. by apply bool_decide_eq_false.
  - split; [done|]. by intros (c & ? & _).
Qed.

Lemma empty_mask_insert b k c :
  empty_mask (<[k := c]> b) = <[k := bool_decide (c = EMPTY)]> (empty_mask b).
Proof. unfold empty_mask. by rewrite list_fmap_insert. Qed.

Lemma same_empties_refl b : same_empties b b.
Proof. by split. Qed.

Lemma same_empties_trans b1 b2 b3 :
  same_empties b1 b2 → same_empties b2 b3 → same_empties b1 b3.
Proof. intros [E1 B1] [E2 B2]. split; [congruence|auto]. Qed.

Lemma same_empties_length b b' : same_empties b b' → length b' = length b.
Proof. intros [E _]. by rewrite <- !empty_mask_length, E. Qed.

(** Writing [BLACK] on an occupied cell. *)
Lemma same_empties_blacken b k :
  empty_mask b !! k = Some false → same_empties b (<[k := BLACK]> b).
Proof.
  intros Hk. split.
  - rewrite empty_mask_insert. by apply list_insert_id.
  - intros j Hj. destruct (decide (k = j)) as [->|Hne].
    + apply list_lookup_insert_eq. by eapply lookup_lt_Some.
    + by rewrite list_lookup_insert_ne.
Qed.

(** The scan of a direction stops at [n] after white cells only. *)
Lemma scan_run_white fuel b x y dx dy n0 n bf :
  0 ≤ n0 → n0 + Z.of_nat fuel < 2 ^ 64 →
  scan_run fuel b x y dx dy n0 = Some (n, bf) →
  n0 ≤ n < n0 + Z.of_nat fuel ∧
  ∀ i, n0 ≤ i < n → b !! ray_pos x y dx dy i = Some WHITE.
Proof.
  revert n0. induction fuel as [|fuel IH]; intros n0 Hn0 Hfuel Hrun; [done|].
  cbn [scan_run] in Hrun.
  destruct (isInBound _ _ _ _); [|simplify_eq; split; [lia|intros; lia]].
  unfold Board_at, cells_at in Hrun.
  fold (ray_x x dx n0) (ray_x y dy n0) (ray_pos x y dx dy n0) in Hrun.
  destruct (b !! ray_pos x y dx dy n0) as [[]|] eqn:Hcell; cbn in Hrun;
    [simplify_eq; split; [lia|intros; lia]| |
     simplify_eq; split; [lia|intros; lia]|done].
  rewrite to_size_t_small in Hrun by lia.
  apply IH in Hrun as [Hn Hw]; [|lia..].
  split; [lia|]. intros i Hi.
  destruct (decide (i = n0)) as [->|]; [done|]. apply Hw. lia.
Qed.

(** The flips of a direction land on occupied cells. *)
Lemma flip_run_same_empties fuel b x y dx dy i n b' :
  0 ≤ i → i + Z.of_nat fuel < 2 ^ 64 →
  (∀ j, i ≤ j < n → empty_mask b !! ray_pos x y dx dy j = Some false) →
  flip_run fuel b x y dx dy i n = Some b' →
  same_empties b b'.
Proof.
  revert b i. induction fuel as [|fuel IH]; intros b i Hi Hfuel Hocc Hrun;
    [done|].
  cbn [flip_run] in Hrun. destruct (Z.ltb_spec i n) as [Hlt|Hge].
  - unfold Board_set in Hrun.
    destruct (cells_set b _ BLACK) as [b1|] eqn:Hset; [|done].
    cbn in Hrun. apply cells_set_Some in Hset as [-> _].
    fold (ray_x x dx i) (ray_x y dy i) (ray_pos x y dx dy i) in Hrun.
    rewrite to_size_t_small in Hrun by lia.
    assert (Hstep : same_empties b (<[ray_pos x y dx dy i := BLACK]> b)).
    { apply same_empties_blacken, Hocc. lia. }
    eapply same_empties_trans; [exact Hstep|].
    eapply IH; [| |  |exact Hrun]; [lia|lia|].
    intros j Hj. rewrite (proj1 Hstep). apply Hocc. lia.
  - simplify_eq. apply same_empties_refl.
Qed.

Lemma for_each_inv {S A} (P : S → Prop) (body : A → S → option S) l st st' :
  (∀ a s s', body a s = Some s' → P s → P s') →
  P st → for_each body l st = Some st' → P st'.
Proof.
  intros Hbody. revert st.
  induction l as [|a l IH]; intros st HP Hrun; cbn in Hrun; [by simplify_eq|].
  destruct (body a st) as [s1|] eqn:Hb; [|done]. cbn in Hrun.
  eapply IH; [|exact Hrun]. eauto.
Qed.

(** One direction of [put]: empties and blacks are kept, [valid] only
    rises, and the board moved only if [valid] is set. *)
Lemma put_dir_frame x y dx dy b v b' v' :
  put_dir x y dx dy (b, v) = Some (b', v') →
  same_empties b b' ∧ (v = true → v' = true) ∧ (v' = false → b' = b).
Proof.
  unfold put_dir. destruct ((dx =? 0) && (dy =? 0)).
  { intros [= <- <-]. by split; [apply same_empties_refl|]. }
  cbn [fst].
  assert (Hfuel : 1 + Z.of_nat RUN_FUEL < 2 ^ 64) by done.
  revert Hfuel. generalize RUN_FUEL. intros fuel Hfuel.
  destruct (scan_run fuel b x y dx dy 1) as [[n bf]|] eqn:Hscan; [|done].
  cbn. destruct (bf && (1 <? n)) eqn:Hcap.
  - destruct (flip_run fuel b x y dx dy 1 n) as [b1|] eqn:Hflip; [|done].
    cbn. intros [= <- <-]. split; [|done].
    apply scan_run_white in Hscan as [_ Hw]; [|done..].
    eapply flip_run_same_empties; [| | |exact Hflip]; [done..|].
    intros j Hj. apply empty_mask_occupied. exists WHITE. auto.
  - intros [= <- <-]. by split; [apply same_empties_refl|].
Qed.

Lemma put_dirs_frame x y b1 b2 valid :
  for_each (fun dx => for_each (fun dy => put_dir x y dx dy) DELTAS) DELTAS
           (b1, false) = Some (b2, valid) →
  same_empties b1 b2 ∧ (valid = false → b2 = b1).
Proof.
  intros Hrun.
  apply (for_each_inv (fun st => same_empties b1 st.1
                               ∧ (st.2 = false → st.1 = b1))) in Hrun;
    [done| |by split; [apply same_empties_refl|]].
  intros dx s s' Hin HP.
  apply (for_each_inv (fun st => same_empties b1 st.1
                               ∧ (st.2 = false → st.1 = b1))) in Hin;
    [done| |done].
  clear. intros dy [b v] [b' v'] Hdir [Hs Hv]. cbn [fst snd] in *.
  apply put_dir_frame in Hdir as (Hs' & Hv1 & Hv2).
  split; [by eapply same_empties_trans|].
  intros ->. rewrite Hv2 by done. apply Hv. by destruct v; [discriminate Hv1|].
Qed.

(** What a call of [put] that returns can have done. Either it gave up at
    its first test and the board is untouched, or the cell was a free cell
    of the board, it now holds a black stone, and no other empty cell was
    touched. *)
Lemma put_frame b x y r b' :
  0 ≤ x < 2 ^ 64 → 0 ≤ y < 2 ^ 64 →
  put b x y = Some (r, b') →
  (r = false ∧ b' = b ∧
   (¬ (x < 8 ∧ y < 8) ∨ ∃ c, b !! pos_of x y = Some c ∧ c ≠ EMPTY))
  ∨ (x < 8 ∧ y < 8 ∧ b !! pos_of x y = Some EMPTY ∧
     same_empties (<[pos_of x y := BLACK]> b) b' ∧
     (r = false → b' = <[pos_of x y := BLACK]> b)).
Proof.
  intros Hx Hy. unfold put. rewrite isInBound_origin by done.
  case_bool_decide as Hin; cbn [negb].
  2:{ intros [= <- <-]. left. auto. }
  unfold Board_at, Board_set, cells_at. rewrite cell_index_small by lia.
  fold (pos_of x y).
  destruct (b !! pos_of x y) as [c|] eqn:Hc; [|done]. cbn [mbind option_bind].
  case_bool_decide as Hempty; cbn [negb].
  2:{ intros [= <- <-]. left. split_and!; [done..|]. right. by exists c. }
  subst c. destruct (cells_set b _ BLACK) as [b1|] eqn:Hset; [|done].
  apply cells_set_Some in Hset as [-> _]. cbn [mbind option_bind].
  fold (pos_of x y).
  destruct (for_each _ _ _) as [[b2 valid]|] eqn:Hdirs; [|done].
  cbn [mbind option_bind]. intros [= <- <-]. right.
  apply put_dirs_frame in Hdirs as [Hs Hv]. destruct Hin. by split_and!.
Qed.

(** ** [put] returns *)

Lemma to_size_t_neg z : - 2 ^ 64 ≤ z < 0 → to_size_t z = z + 2 ^ 64.
Proof.
  intros. unfold to_size_t. symmetry.
  apply (Z.mod_unique_pos z (2 ^ 64) (-1)); lia.
Qed.

Lemma to_size_t_wrap z : 2 ^ 64 ≤ z < 2 * 2 ^ 64 → to_size_t z = z - 2 ^ 64.
Proof.
  intros. unfold to_size_t. symmetry.
  apply (Z.mod_unique_pos z (2 ^ 64) 1); lia.
Qed.

Lemma step_mul_small n d :
  0 ≤ n ≤ 8 → -1 ≤ d ≤ 1 →
  step_mul n d = (if d <? 0 then 2 ^ 64 + n * d else n * d) ∨
  (n = 0 ∧ step_mul n d = 0).
Proof.
  intros Hn Hd. unfold step_mul.
  assert (d = -1 ∨ d = 0 ∨ d = 1) as [-> | [-> | ->]] by lia.
  - destruct (decide (n = 0)) as [->|]; [by right|left].
    change (to_size_t (-1)) with (2 ^ 64 - 1). cbn [Z.ltb Z.compare].
    unfold to_size_t. symmetry.
    apply (Z.mod_unique_pos _ (2 ^ 64) (n - 1)); lia.
  - left. change (to_size_t 0) with 0. cbn [Z.ltb Z.compare].
    rewrite Z.mul_0_r. done.
  - left. change (to_size_t 1) with 1. cbn [Z.ltb Z.compare].
    rewrite to_size_t_small; lia.
Qed.

Lemma to_int_step_mul n d :
  0 ≤ n ≤ 8 → -1 ≤ d ≤ 1 → to_int (step_mul n d) = n * d.
Proof.
  intros Hn Hd. destruct (step_mul_small n d Hn Hd) as [-> | [-> ->]]; [|done].
  assert (-8 ≤ n * d ≤ 8) by nia.
  destruct (Z.ltb_spec d 0).
  - unfold to_int. replace (2 ^ 64 + n * d + 2 ^ 31)
      with (n * d + 2 ^ 31 + 2 ^ 32 * 2 ^ 32) by lia.
    rewrite Z.add_mod, Z.mul_mod, Z.mod_same by lia.
    cbn [Z.mul]. rewrite Z.mod_0_l, Z.add_0_r, Z.mod_mod by lia.
    rewrite Z.mod_small; lia.
  - apply to_int_small. lia.
Qed.

Lemma ray_x_small x d n :
  0 ≤ x < 8 → 0 ≤ n ≤ 8 → -1 ≤ d ≤ 1 → 0 ≤ x + n * d →
  ray_x x d n = x + n * d.
Proof.
  intros Hx Hn Hd Hpos. unfold ray_x.
  assert (-8 ≤ n * d ≤ 8) by nia.
  destruct (step_mul_small n d Hn Hd) as [-> | [-> ->]].
  - destruct (Z.ltb_spec d 0).
    + rewrite to_size_t_wrap; lia.
    + rewrite to_size_t_small; lia.
  - rewrite to_size_t_small; lia.
Qed.

Lemma isInBound_small x y a b :
  0 ≤ x < 8 → 0 ≤ y < 8 → -8 ≤ a ≤ 8 → -8 ≤ b ≤ 8 →
  isInBound x y a b = bool_decide (0 ≤ x + a < 8 ∧ 0 ≤ y + b < 8).
Proof.
  intros Hx Hy Ha Hb. unfold isInBound, BOARD_SIZE.
  assert (Hcoord : ∀ u c, 0 ≤ u < 8 → -8 ≤ c ≤ 8 →
            ((c <? 0) && (u <? to_size_t (- c)) = bool_decide (u + c < 0)) ∧
            (0 ≤ u + c → (to_size_t (u + to_size_t c) <? 8)
                         = bool_decide (u + c < 8))).
  { intros u c Hu Hc. destruct (Z.ltb_spec c 0) as [Hneg|Hnn]; cbn [andb].
    - rewrite (to_size_t_small (- c)) by lia. rewrite (to_size_t_neg c) by lia.
      split.
      + destruct (Z.ltb_spec u (- c)); symmetry;
          [apply bool_decide_eq_true_2|apply bool_decide_eq_false_2]; lia.
      + intros Hpos. rewrite to_size_t_wrap by lia.
        destruct (Z.ltb_spec (u + (c + 2 ^ 64) - 2 ^ 64) 8); symmetry;
          [apply bool_decide_eq_true_2|apply bool_decide_eq_false_2]; lia.
    - rewrite (to_size_t_small c) by lia. split.
      + symmetry. apply bool_decide_eq_false_2. lia.
      + intros _. rewrite to_size_t_small by lia.
        destruct (Z.ltb_spec (u + c) 8); symmetry;
          [apply bool_decide_eq_true_2|apply bool_decide_eq_false_2]; lia. }
  destruct (Hcoord x a Hx Ha) as [Hxa Hxa'], (Hcoord y b Hy Hb) as [Hyb Hyb'].
  rewrite Hxa, Hyb. clear Hcoord Hxa Hyb.
  repeat case_bool_decide; try lia; cbn [andb];
    rewrite ?Hxa', ?Hyb' by lia; repeat case_bool_decide; try lia; done.
Qed.

Lemma ray_pos_small x y dx dy n :
  0 ≤ x < 8 → 0 ≤ y < 8 → -1 ≤ dx ≤ 1 → -1 ≤ dy ≤ 1 → 0 ≤ n ≤ 8 →
  0 ≤ x + n * dx < 8 → 0 ≤ y + n * dy < 8 →
  ray_pos x y dx dy n = pos_of (x + n * dx) (y + n * dy).
Proof.
  intros. unfold ray_pos. rewrite !ray_x_small by lia.
  by rewrite cell_index_small by lia.
Qed.

Lemma pos_of_lt x y : 0 ≤ x < 8 → 0 ≤ y < 8 → (pos_of x y < 64)%nat.
Proof. unfold pos_of. lia. Qed.

Lemma scan_run_total b x y dx dy fuel n0 :
  length b = 64%nat → 0 ≤ x < 8 → 0 ≤ y < 8 →
  -1 ≤ dx ≤ 1 → -1 ≤ dy ≤ 1 → dx ≠ 0 ∨ dy ≠ 0 →
  1 ≤ n0 ≤ 8 → n0 + Z.of_nat fuel = 9 →
  is_Some (scan_run fuel b x y dx dy n0).
Proof.
  intros Hlen Hx Hy Hdx Hdy Hdir. revert n0.
  induction fuel as [|fuel IH]; intros n0 Hn0 Hfuel; [lia|].
  cbn [scan_run]. rewrite !to_int_step_mul by lia.
  assert (-8 ≤ n0 * dx ≤ 8 ∧ -8 ≤ n0 * dy ≤ 8) as [??] by nia.
  rewrite isInBound_small by lia.
  case_bool_decide as Hin; [|done].
  unfold Board_at, cells_at.
  fold (ray_x x dx n0) (ray_x y dy n0) (ray_pos x y dx dy n0).
  rewrite ray_pos_small by lia.
  destruct (lookup_lt_is_Some_2 b (pos_of (x + n0 * dx) (y + n0 * dy)))
    as [c Hc]; [rewrite Hlen; apply pos_of_lt; lia|].
  rewrite Hc. cbn [mbind option_bind]. destruct c; [done| |done].
  assert (n0 ≠ 8) by nia.
  rewrite to_size_t_small by lia. apply IH; lia.
Qed.

Lemma flip_run_total fuel b x y dx dy i n :
  0 ≤ i → n ≤ i + Z.of_nat fuel → i + Z.of_nat fuel < 2 ^ 64 →
  (∀ j, i ≤ j < n → (ray_pos x y dx dy j < length b)%nat) →
  is_Some (flip_run (S fuel) b x y dx dy i n).
Proof.
  revert b i. induction fuel as [|fuel IH]; intros b i Hi Hn Hfuel Hpos.
  - cbn [flip_run]. destruct (Z.ltb_spec i n); [lia|done].
  - remember (S fuel) as fuel' eqn:Hf. cbn [flip_run]. subst fuel'.
    destruct (Z.ltb_spec i n) as [Hlt|Hge]; [|done].
    unfold Board_set, cells_set.
    fold (ray_x x dx i) (ray_x y dy i) (ray_pos x y dx dy i).
    case_decide as Hlen; [|exfalso; apply Hlen, Hpos; lia].
    cbn [mbind option_bind]. rewrite to_size_t_small by lia.
    apply IH; [lia..|]. intros j Hj. rewrite length_insert. apply Hpos. lia.
Qed.

Lemma put_dir_total x y dx dy b v :
  length b = 64%nat → 0 ≤ x < 8 → 0 ≤ y < 8 → -1 ≤ dx ≤ 1 → -1 ≤ dy ≤ 1 →
  is_Some (put_dir x y dx dy (b, v)).
Proof.
  intros Hlen Hx Hy Hdx Hdy. unfold put_dir.
  destruct ((dx =? 0) && (dy =? 0)) eqn:Hzero; [done|]. cbn [fst].
  assert (Hdir : dx ≠ 0 ∨ dy ≠ 0).
  { destruct (Z.eqb_spec dx 0), (Z.eqb_spec dy 0); auto. }
  destruct (scan_run_total b x y dx dy RUN_FUEL 1) as [[n bf] Hscan];
    [done|done|done|done|done|done|lia|done|].
  rewrite Hscan. cbn [mbind option_bind].
  destruct (bf && (1 <? n)); [|done].
  apply scan_run_white in Hscan as [Hn Hw]; [|done..].
  destruct (flip_run_total 7 b x y dx dy 1 n) as [b' Hflip];
    [done|unfold RUN_FUEL in Hn; lia|done|
    |by change (S 7) with RUN_FUEL in Hflip; rewrite Hflip].
  intros j Hj. eapply lookup_lt_Some, Hw. lia.
Qed.

Lemma for_each_total {S A} (P : S → Prop) (Q : A → Prop)
      (body : A → S → option S) l st :
  (∀ a s, Q a → P s → ∃ s', body a s = Some s' ∧ P s') →
  Forall Q l → P st →
  ∃ st', for_each body l st = Some st' ∧ P st'.
Proof.
  intros Hbody Hl. revert st.
  induction Hl as [|a l Ha Hl IH]; intros st HP; cbn [for_each]; [eauto|].
  destruct (Hbody a st Ha HP) as (s1 & -> & HP1). cbn [mbind option_bind].
  by apply IH.
Qed.

Lemma DELTAS_range : Forall (fun d => -1 ≤ d ≤ 1) DELTAS.
Proof. repeat constructor; lia. Qed.

Lemma put_dirs_total x y b1 :
  length b1 = 64%nat → 0 ≤ x < 8 → 0 ≤ y < 8 →
  is_Some (for_each (fun dx => for_each (fun dy => put_dir x y dx dy) DELTAS)
                    DELTAS (b1, false)).
Proof.
  intros Hlen Hx Hy.
  destruct (for_each_total (fun st : Board * bool => length st.1 = 64%nat)
              (fun d => -1 ≤ d ≤ 1)
              (fun dx => for_each (fun dy => put_dir x y dx dy) DELTAS)
              DELTAS (b1, false)) as (st' & -> & _);
    [|apply DELTAS_range|done|done].
  intros dx s Hdx Hs.
  apply (for_each_total _ (fun d => -1 ≤ d ≤ 1)); [|apply DELTAS_range|done].
  clear s Hs. intros dy [b v] Hdy Hb. cbn [fst] in Hb.
  destruct (put_dir_total x y dx dy b v) as [[b' v'] Hdir]; [done..|].
  exists (b', v'). split; [done|]. cbn [fst].
  apply put_dir_frame in Hdir as (Hs & _).
  by rewrite (same_empties_length _ _ Hs).
Qed.

(** [put] returns on every board of 64 cells, whatever the coordinates. *)
Lemma put_total b x y :
  length b = 64%nat → 0 ≤ x < 2 ^ 64 → 0 ≤ y < 2 ^ 64 →
  is_Some (put b x y).
Proof.
  intros Hlen Hx Hy. unfold put. rewrite isInBound_origin by done.
  case_bool_decide as Hin; cbn [negb]; [|done].
  unfold Board_at, Board_set, cells_at, cells_set.
  rewrite cell_index_small by lia. fold (pos_of x y).
  assert (Hpos : (pos_of x y < length b)%nat)
    by (rewrite Hlen; apply pos_of_lt; lia).
  destruct (lookup_lt_is_Some_2 b _ Hpos) as [c ->]. cbn [mbind option_bind].
  case_bool_decide; cbn [negb]; [|done].
  case_decide; [|done]. cbn [mbind option_bind].
  destruct (put_dirs_total x y (<[pos_of x y := BLACK]> b)) as [[b2 v] ->];
    [by rewrite length_insert|lia|lia|done].
Qed.

Lemma put_length b x y r b' :
  0 ≤ x < 2 ^ 64 → 0 ≤ y < 2 ^ 64 →
  put b x y = Some (r, b') → length b' = length b.
Proof.
  intros Hx Hy Hput.
  apply put_frame in Hput as [(_ & -> & _)|(_ & _ & _ & Hs & _)];
    [done| |done..].
  by rewrite (same_empties_length _ _ Hs), length_insert.
Qed.

(** ** Rejected moves *)

(** C8. [put] (tryPlace) on an out-of-bounds coordinate or on a cell that
    is not empty returns [false] and leaves every cell of the board as it
    was. *)
Theorem put_rejects_unchanged b x y :
  0 ≤ x < 2 ^ 64 → 0 ≤ y < 2 ^ 64 →
  ¬ (x < 8 ∧ y < 8) ∨ (∃ c, Board_at b x y = Some c ∧ c ≠ EMPTY) →
  put b x y = Some (false, b).
Proof.
  intros Hx Hy Hcase. unfold put. rewrite isInBound_origin by done.
  case_bool_decide as Hin; cbn [negb]; [|done].
  destruct Hcase as [Hout|(c & -> & Hc)]; [done|]. cbn [mbind option_bind].
  by rewrite bool_decide_eq_false_2.
Qed.

Lemma put_rejects_unchanged_witness :
  put initial_board 3 3 = Some (false, initial_board) ∧
  put initial_board 8 0 = Some (false, initial_board) ∧
  put initial_board 0 (2 ^ 64 - 1) = Some (false, initial_board).
Proof.
  split_and!.
  - apply put_rejects_unchanged; [lia|lia|].
    right. exists WHITE. by split.
  - apply put_rejects_unchanged; [lia|lia|]. left. lia.
  - apply put_rejects_unchanged; [lia|lia|]. left. lia.
Defined.

(** On a free cell of the board [put] first writes the stone: whatever it
    returns, the cell is black afterwards, so the board has changed. *)
Lemma put_free_cell_places_stone b x y r b' :
  0 ≤ x < 8 → 0 ≤ y < 8 → b !! pos_of x y = Some EMPTY →
  put b x y = Some (r, b') →
  b' !! pos_of x y = Some BLACK ∧ b' ≠ b ∧
  (r = false → b' = <[pos_of x y := BLACK]> b).
Proof.
  intros Hx Hy Hcell Hput.
  apply put_frame in Hput as [(_ & _ & [Hout|(c & Hc & Hne)])
                             |(_ & _ & _ & [_ Hblack] & Hrej)];
    [lia|congruence| |lia|lia].
  assert (Hb' : b' !! pos_of x y = Some BLACK).
  { apply Hblack, list_lookup_insert_eq. by eapply lookup_lt_Some. }
  split_and!; [done| |done]. intros ->. congruence.
Qed.

(** ** Moves that capture nothing *)

(** Where the scan of a direction stops, in the coordinates of the board:
    after white cells only, on a black cell if [blackFound], and otherwise
    at the edge or on an empty cell. *)
Lemma scan_run_stop fuel b x y dx dy n0 n bf :
  on_board x y → is_direction dx dy →
  1 ≤ n0 ≤ 8 → n0 + Z.of_nat fuel ≤ 9 →
  scan_run fuel b x y dx dy n0 = Some (n, bf) →
  n0 ≤ n ≤ 8 ∧
  (∀ i, n0 ≤ i < n →
     on_board (x + i * dx) (y + i * dy) ∧
     b !! pos_of (x + i * dx) (y + i * dy) = Some WHITE) ∧
  (if bf
   then on_board (x + n * dx) (y + n * dy) ∧
        b !! pos_of (x + n * dx) (y + n * dy) = Some BLACK
   else ¬ on_board (x + n * dx) (y + n * dy) ∨
        b !! pos_of (x + n * dx) (y + n * dy) = Some EMPTY).
Proof.
  intros [Hx Hy] (Hdx & Hdy & Hdir). revert n0.
  induction fuel as [|fuel IH]; intros n0 Hn0 Hfuel Hrun; [done|].
  cbn [scan_run] in Hrun. rewrite !to_int_step_mul in Hrun by lia.
  assert (-8 ≤ n0 * dx ≤ 8 ∧ -8 ≤ n0 * dy ≤ 8) as [??] by nia.
  rewrite isInBound_small in Hrun by lia.
  case_bool_decide as Hin.
  2:{ injection Hrun as <- <-. split; [lia|]. split; [intros; lia|].
      left. unfold on_board. lia. }
  unfold Board_at, cells_at in Hrun.
  fold (ray_x x dx n0) (ray_x y dy n0) (ray_pos x y dx dy n0) in Hrun.
  rewrite ray_pos_small in Hrun by lia.
  destruct (b !! pos_of (x + n0 * dx) (y + n0 * dy)) as [[]|] eqn:Hcell;
    cbn [mbind option_bind] in Hrun; [| | |done].
  - injection Hrun as <- <-. split; [lia|]. split; [intros; lia|by split].
  - assert (n0 ≠ 8) by nia.
    rewrite to_size_t_small in Hrun by lia.
    apply IH in Hrun as (Hn & Hwhite & Hstop); [|lia|lia].
    split; [lia|]. split; [|done]. intros i Hi.
    destruct (decide (i = n0)) as [->|]; [by split|]. apply Hwhite. lia.
  - injection Hrun as <- <-. split; [lia|]. split; [intros; lia|by right].
Qed.

(** A direction whose scan finds a black cell after white ones captures. *)
Lemma scan_run_captures b x y dx dy n :
  on_board x y → is_direction dx dy →
  scan_run RUN_FUEL b x y dx dy 1 = Some (n, true) → 1 < n →
  captures b x y dx dy.
Proof.
  intros Hxy Hdir Hrun Hn.
  apply scan_run_stop in Hrun as (_ & Hwhite & Hb & Hblack);
    [|done|done|lia|unfold RUN_FUEL; lia].
  exists (n - 1). split; [lia|]. split.
  - intros i Hi. apply Hwhite. lia.
  - by replace (n - 1 + 1) with n by lia.
Qed.

Lemma put_dir_no_capture x y dx dy b v :
  length b = 64%nat → on_board x y → -1 ≤ dx ≤ 1 → -1 ≤ dy ≤ 1 →
  (is_direction dx dy → ¬ captures b x y dx dy) →
  put_dir x y dx dy (b, v) = Some (b, v).
Proof.
  intros Hlen Hxy Hdx Hdy Hnone. unfold put_dir.
  destruct ((dx =? 0) && (dy =? 0)) eqn:Hzero; [done|]. cbn [fst].
  assert (Hdir : is_direction dx dy).
  { unfold is_direction. split_and!; [lia..|].
    destruct (Z.eqb_spec dx 0), (Z.eqb_spec dy 0); auto. }
  destruct Hxy as [Hx Hy].
  destruct (scan_run_total b x y dx dy RUN_FUEL 1) as [[n bf] Hscan];
    [done|done|done|done|done|by destruct Hdir as (_ & _ & ?)|lia|done|].
  rewrite Hscan. cbn [mbind option_bind].
  destruct bf; [|done]. destruct (Z.ltb_spec 1 n) as [Hn|Hn]; [|done].
  destruct (Hnone Hdir). by apply (scan_run_captures b x y dx dy n).
Qed.

Lemma for_each_fixed {S A} (body : A → S → option S) l st :
  (∀ a, a ∈ l → body a st = Some st) → for_each body l st = Some st.
Proof.
  induction l as [|a l IH]; intros Hbody; [done|].
  cbn [for_each]. rewrite (Hbody a) by left. cbn [mbind option_bind].
  apply IH. intros a' Ha'. apply Hbody. by right.
Qed.

(** The cells of a direction are not the cell the stone is put on. *)
Lemma captures_insert_origin b x y dx dy c :
  on_board x y → is_direction dx dy →
  captures (<[pos_of x y := c]> b) x y dx dy → captures b x y dx dy.
Proof.
  intros [Hx Hy] (Hdx & Hdy & Hdir) (n & Hn & Hwhite & Hb & Hblack).
  assert (Hother : ∀ i, 1 ≤ i → on_board (x + i * dx) (y + i * dy) →
            pos_of (x + i * dx) (y + i * dy) ≠ pos_of x y).
  { intros i Hi [Hix Hiy]. unfold pos_of. nia. }
  exists n. split; [done|]. split.
  - intros i Hi. destruct (Hwhite i Hi) as [Hon Hw]. split; [done|].
    rewrite list_lookup_insert_ne in Hw; [done|].
    apply not_symmetry, Hother; [lia|done].
  - split; [done|]. rewrite list_lookup_insert_ne in Hblack; [done|].
    apply not_symmetry, Hother; [lia|done].
Qed.

(** On a free cell of the board from which no direction captures, [put]
    returns [false] and the board it leaves is the board with a black
    stone on the cell. *)
Lemma put_no_capture b x y :
  length b = 64%nat → on_board x y → b !! pos_of x y = Some EMPTY →
  (∀ dx dy, is_direction dx dy → ¬ captures b x y dx dy) →
  put b x y = Some (false, <[pos_of x y := BLACK]> b) ∧
  <[pos_of x y := BLACK]> b ≠ b.
Proof.
  intros Hlen Hxy Hfree Hnone. pose proof Hxy as [Hx Hy]. split.
  - unfold put. rewrite isInBound_origin by lia.
    rewrite bool_decide_eq_true_2 by lia. cbn [negb].
    unfold Board_at, Board_set, cells_at, cells_set.
    rewrite cell_index_small by lia. fold (pos_of x y).
    rewrite Hfree. cbn [mbind option_bind].
    rewrite bool_decide_eq_true_2 by done. cbn [negb].
    case_decide as Hpos; [|by apply lookup_lt_Some in Hfree].
    cbn [mbind option_bind].
    rewrite (for_each_fixed _ DELTAS (<[pos_of x y := BLACK]> b, false));
      [done|].
    intros dx Hdx. apply for_each_fixed. intros dy Hdy.
    pose proof (proj1 (Forall_forall _ _) DELTAS_range) as Hrange.
    apply put_dir_no_capture;
      [by rewrite length_insert|done|by apply Hrange|by apply Hrange|].
    intros Hdir Hcap. apply (Hnone dx dy Hdir).
    by apply (captures_insert_origin b x y dx dy BLACK).
  - intros Heq. assert (Hb : <[pos_of x y := BLACK]> b !! pos_of x y
                             = Some BLACK).
    { apply list_lookup_insert_eq. by eapply lookup_lt_Some. }
    rewrite Heq in Hb. congruence.
Qed.

(** C1. At the corner [(0, 0)] of the opening position, a free cell from
    which no direction captures, [put] returns [false] and yet leaves a
    black stone on the cell: the rejected move has changed the board. *)
Theorem put_rejected_move_leaves_stone :
  on_board 0 0 ∧
  Board_at initial_board 0 0 = Some EMPTY ∧
  (∀ dx dy, is_direction dx dy → ¬ captures initial_board 0 0 dx dy) ∧
  put initial_board 0 0 = Some (false, <[0%nat := BLACK]> initial_board) ∧
  <[0%nat := BLACK]> initial_board ≠ initial_board.
Proof.
  split_and!; [by split|done| |by vm_compute|done].
  intros dx dy (Hdx & Hdy & _) (n & Hn & Hrun & _).
  destruct (Hrun 1) as [[Hx Hy] Hwhite]; [lia|].
  assert (dx = 0 ∨ dx = 1) as [-> | ->] by lia;
    assert (dy = 0 ∨ dy = 1) as [-> | ->] by lia; discriminate Hwhite.
Qed.

(** ** The opening position *)

(** C2, as the program has it. [Board(INITIAL_BOARD)] is the opening
    position, whatever the array held before. From it [getNextStates]
    returns four boards, each got by one accepted [put] and one
    [flipPlayer]; the board has 4 black cells before the flip and 1 black
    cell after it. *)
Theorem opening_successors :
  (∀ cells0, length cells0 = 64%nat →
     Board_of_string cells0 INITIAL_BOARD = Some initial_board) ∧
  ∃ l, getNextStates initial_board = Some l ∧ length l = 4%nat ∧
    Forall (fun nb => ∃ x y tmp,
              put initial_board x y = Some (true, tmp) ∧
              nb = flipPlayer tmp ∧
              count_black tmp = 4 ∧ count_black nb = 1) l.
Proof.
  split; [apply Board_of_string_INITIAL|].
  eexists. split; [by vm_compute|]. split; [done|].
  repeat apply Forall_cons_2; [| | | |apply Forall_nil_2].
  - exists 3, 2, (opening_put 3 2). by vm_compute.
  - exists 2, 3, (opening_put 2 3). by vm_compute.
  - exists 5, 4, (opening_put 5 4). by vm_compute.
  - exists 4, 5, (opening_put 4 5). by vm_compute.
Qed.

Lemma opening_successors_witness :
  Board_of_string (replicate 64 BLACK) INITIAL_BOARD = Some initial_board ∧
  ∃ l, getNextStates initial_board = Some l ∧ length l = 4%nat ∧
    Forall (fun nb => ∃ x y tmp,
              put initial_board x y = Some (true, tmp) ∧
              nb = flipPlayer tmp ∧
              count_black tmp = 4 ∧ count_black nb = 1) l.
Proof.
  destruct opening_successors as [Hinit Hsucc].
  split; [by apply Hinit|exact Hsucc].
Defined.

(** C2, as the specification states it, does not hold: the boards
    returned for the opening position do not have 3 black cells. *)
Lemma opening_successors_not_three_black :
  ¬ ∃ l, getNextStates initial_board = Some l ∧ length l = 4%nat ∧
      Forall (fun nb => ∃ x y tmp,
                put initial_board x y = Some (true, tmp) ∧
                nb = flipPlayer tmp ∧
                count_black tmp = 4 ∧ count_black nb = 3) l.
Proof.
  intros (l & Hl & _ & Hall).
  vm_compute in Hl. injection Hl as <-.
  apply Forall_cons_1 in Hall as [(x & y & tmp & _ & _ & _ & Hthree) _].
  vm_compute in Hthree. discriminate Hthree.
Qed.

(** ** Successor boards *)

Lemma flip_cell_involutive c : flip_cell (flip_cell c) = c.
Proof. by destruct c. Qed.

Lemma flipPlayer_involutive b : flipPlayer (flipPlayer b) = b.
Proof.
  unfold flipPlayer. rewrite map_map. rewrite <- (map_id b) at 2.
  apply map_ext. intros c. apply flip_cell_involutive.
Qed.

Lemma flipPlayer_inj b1 b2 : flipPlayer b1 = flipPlayer b2 → b1 = b2.
Proof.
  intros Heq. by rewrite <- (flipPlayer_involutive b1), Heq,
                flipPlayer_involutive.
Qed.

Lemma flipPlayer_length b : length (flipPlayer b) = length b.
Proof. apply length_map. Qed.

Lemma for_each_seqZ_inv {S} (P : Z → S → Prop) (body : Z → S → option S)
      m n st st' :
  0 ≤ n →
  (∀ i s s', m ≤ i < m + n → body i s = Some s' → P i s → P (i + 1) s') →
  P m st → for_each body (seqZ m n) st = Some st' → P (m + n) st'.
Proof.
  intros Hn. remember (Z.to_nat n) as k eqn:Hk.
  revert m n st Hn Hk. induction k as [|k IH]; intros m n st Hn Hk Hbody HP.
  - assert (n = 0) as -> by lia. cbn. intros [= <-]. by rewrite Z.add_0_r.
  - rewrite seqZ_cons by lia. cbn [for_each].
    destruct (body m st) as [s1|] eqn:Hb; [|done]. cbn [mbind option_bind].
    intros Hrun. replace (m + n) with (Z.succ m + Z.pred n) by lia.
    eapply (IH (Z.succ m) (Z.pred n)); [lia|lia| |  |exact Hrun].
    + intros i s s' Hi. apply Hbody. lia.
    + apply (Hbody m st s1); [lia|done|done].
Qed.

Lemma for_each_seqZ_total {S} (P : Z → S → Prop) (body : Z → S → option S)
      m n st :
  0 ≤ n →
  (∀ i s, m ≤ i < m + n → P i s → ∃ s', body i s = Some s' ∧ P (i + 1) s') →
  P m st → ∃ st', for_each body (seqZ m n) st = Some st' ∧ P (m + n) st'.
Proof.
  intros Hn. remember (Z.to_nat n) as k eqn:Hk.
  revert m n st Hn Hk. induction k as [|k IH]; intros m n st Hn Hk Hbody HP.
  - assert (n = 0) as -> by lia. cbn. exists st. by rewrite Z.add_0_r.
  - rewrite seqZ_cons by lia. cbn [for_each].
    destruct (Hbody m st) as (s1 & -> & HP1); [lia|done|].
    cbn [mbind option_bind].
    replace (m + n) with (Z.succ m + Z.pred n) by lia.
    apply (IH (Z.succ m) (Z.pred n)); [lia|lia| |done].
    intros i s Hi. apply Hbody. lia.
Qed.

(** Two accepted moves on different cells leave different boards: each has
    its stone where the other still has a free cell. *)
Lemma put_accepted_distinct b x y tmp x' y' tmp' :
  on_board x y → on_board x' y' → x + 8 * y ≠ x' + 8 * y' →
  put b x y = Some (true, tmp) → put b x' y' = Some (true, tmp') →
  tmp ≠ tmp'.
Proof.
  intros [Hx Hy] [Hx' Hy'] Hne Hput Hput' ->.
  pose proof Hput as Hfr.
  apply put_frame in Hfr as [(? & _)|(_ & _ & Hfree & _ & _)];
    [done| |lia|lia].
  destruct (put_free_cell_places_stone b x y true tmp') as (Hblack & _);
    [done..|].
  apply put_frame in Hput' as [(? & _)|(_ & _ & _ & [Hmask _] & _)];
    [done| |lia|lia].
  assert (Hpos : pos_of x' y' ≠ pos_of x y) by (unfold pos_of; lia).
  assert (Hm : empty_mask tmp' !! pos_of x y = Some true).
  { rewrite Hmask, empty_mask_insert, list_lookup_insert_ne by done.
    by rewrite empty_mask_lookup, Hfree. }
  by rewrite empty_mask_lookup, Hblack in Hm.
Qed.

Lemma gathered_step b x y ok tmp boards :
  on_board x y → put b x y = Some (ok, tmp) →
  gathered b (x + 8 * y) boards →
  gathered b (x + 1 + 8 * y)
           (if ok : bool then boards ++ [flipPlayer tmp] else boards).
Proof.
  intros Hxy Hput [Hnd Hall]. destruct ok.
  - split.
    + apply NoDup_app. split_and!; [done| |apply NoDup_singleton].
      intros nb Hnb ->%list_elem_of_singleton.
      destruct (Hall _ Hnb) as (x' & y' & tmp' & Hxy' & Hlt & Hput' & Heq).
      apply flipPlayer_inj in Heq.
      subst tmp'.
      by apply (put_accepted_distinct b x y tmp x' y' tmp); [| |lia| | |].
    + intros nb [Hnb| ->%list_elem_of_singleton]%elem_of_app.
      * destruct (Hall _ Hnb) as (x' & y' & tmp' & ? & ? & ? & ?).
        exists x', y', tmp'. split_and!; [done|lia|done|done].
      * exists x, y, tmp. split_and!; [done|lia|done|done].
  - split; [done|]. intros nb Hnb.
    destruct (Hall _ Hnb) as (x' & y' & tmp' & ? & ? & ? & ?).
    exists x', y', tmp'. split_and!; [done|lia|done|done].
Qed.

Lemma getNextStates_gathered b l :
  getNextStates b = Some l → gathered b 64 l.
Proof.
  unfold getNextStates, COORDS, BOARD_SIZE. intros Hrun.
  apply (for_each_seqZ_inv (fun y boards => gathered b (8 * y) boards))
    in Hrun; [done|lia| |].
  - intros y boards boards' Hy Hrow Hg.
    apply (for_each_seqZ_inv (fun x acc => gathered b (x + 8 * y) acc))
      in Hrow; [by replace (8 * (y + 1)) with (0 + 8 + 8 * y) by lia|lia| |done].
    intros x acc acc' Hx Hbody Hacc.
    destruct (put b x y) as [[ok tmp]|] eqn:Hput; [|done].
    cbn [mbind option_bind] in Hbody. injection Hbody as <-.
    apply gathered_step; [split; lia|done|done].
  - split; [apply NoDup_nil_2|]. by intros nb ?%elem_of_nil.
Qed.

Lemma getNextStates_total b :
  length b = 64%nat → is_Some (getNextStates b).
Proof.
  intros Hlen. unfold getNextStates, COORDS, BOARD_SIZE.
  destruct (for_each_seqZ_total (fun _ (_ : list Board) => True)
    (fun y => for_each (fun x boards =>
       '(ok, tmp) ← put b x y;
       Some (if ok : bool then boards ++ [flipPlayer tmp] else boards))
       (seqZ 0 8)) 0 8 []) as (l & -> & _); [lia| |done|done].
  intros y boards Hy _.
  apply (for_each_seqZ_total (fun _ (_ : list Board) => True)); [lia| |done].
  intros x acc Hx _.
  destruct (put_total b x y) as [[ok tmp] ->]; [done|lia|lia|].
  cbn [mbind option_bind]. eauto.
Qed.

(** C5. [getNextStates] returns, for every board of 64 cells, a sequence
    in which every board is the result of one accepted [put] on a copy of
    the board followed by one [flipPlayer], and in which no board occurs
    twice. *)
Theorem getNextStates_sound b :
  length b = 64%nat →
  ∃ l, getNextStates b = Some l ∧
       (∀ nb, nb ∈ l → successor_of b nb) ∧ NoDup l.
Proof.
  intros Hlen. destruct (getNextStates_total b Hlen) as [l Hl].
  exists l. split; [done|].
  apply getNextStates_gathered in Hl as [Hnd Hall]. split; [|done].
  intros nb Hnb. destruct (Hall _ Hnb) as (x & y & tmp & ? & _ & ? & ?).
  by exists x, y, tmp.
Qed.

Lemma getNextStates_sound_witness :
  ∃ l, getNextStates initial_board = Some l ∧
       (∀ nb, nb ∈ l → successor_of initial_board nb) ∧ NoDup l.
Proof. apply getNextStates_sound. reflexivity. Defined.

(** * Properties of the search tree *)

Section TreeProps.
Context {F : Type} `{FloatArith F}.
Implicit Types (h : Heap F) (n : Node F) (v w : F).

Lemma same_shape_refl n : same_shape n n.
Proof. by repeat split. Qed.

Lemma same_shape_trans n1 n2 n3 :
  same_shape n1 n2 → same_shape n2 n3 → same_shape n1 n3.
Proof. unfold same_shape. intuition congruence. Qed.

Lemma receive_same_shape v n : same_shape n (receive v n).
Proof. by repeat split. Qed.

(** ** Where a propagated value goes *)

Lemma reaches_le h a v b w :
  parents_before h → reaches h a v b w → (b ≤ a)%nat.
Proof.
  intros Hwf. induction 1 as [|a v n p b w Ha Hp _ IH]; [done|].
  specialize (Hwf _ _ _ Ha Hp). lia.
Qed.

Lemma reaches_fun h a v b w w' :
  parents_before h → reaches h a v b w → reaches h a v b w' → w = w'.
Proof.
  intros Hwf Hr. revert w'.
  induction Hr as [a v|a v n p b w Ha Hp Hr IH]; intros w' Hr'.
  - inversion Hr' as [|? ? n p ? ? Ha Hp Hup]; subst; [done|].
    apply (reaches_le _ _ _ _ _ Hwf) in Hup.
    specialize (Hwf _ _ _ Ha Hp). lia.
  - inversion Hr' as [|? ? n' p' ? ? Ha' Hp' Hup]; subst.
    + apply (reaches_le _ _ _ _ _ Hwf) in Hr.
      specialize (Hwf _ _ _ Ha Hp). lia.
    + simplify_eq. by apply IH.
Qed.

(** The relation only reads the parent pointers. *)
Lemma reaches_same_parents h h' a v b w :
  (∀ c n, h !! c = Some n →
          ∃ n', h' !! c = Some n' ∧ parent_ n' = parent_ n) →
  reaches h a v b w → reaches h' a v b w.
Proof.
  intros Hpar. induction 1 as [|a v n p b w Ha Hp _ IH]; [constructor|].
  destruct (Hpar _ _ Ha) as (n' & Ha' & Hp').
  apply (reaches_parent h' a v n' p b w); [done|congruence|done].
Qed.

Lemma parents_before_insert h a n n' :
  parents_before h → h !! a = Some n → parent_ n' = parent_ n →
  parents_before (<[a := n']> h).
Proof.
  intros Hwf Ha Hp c m p Hc Hm.
  destruct (decide (a = c)) as [<-|Hne].
  - rewrite list_lookup_insert_eq in Hc by (by eapply lookup_lt_Some).
    simplify_eq. apply (Hwf a n p Ha). congruence.
  - rewrite list_lookup_insert_ne in Hc by done. by eapply Hwf.
Qed.

(** [propagateResult] returns once [fuel] exceeds the address of the
    node, and it then has applied [receive] to exactly the nodes the
    value reaches, each with the value that reaches it. *)
Lemma propagateResult_spec fuel h a v :
  parents_before h → is_Some (h !! a) → (a < fuel)%nat →
  ∃ h', propagateResult fuel h a v = Some h' ∧
    length h' = length h ∧
    (∀ b w, reaches h a v b w → h' !! b = receive w <$> h !! b) ∧
    (∀ b, (∀ w, ¬ reaches h a v b w) → h' !! b = h !! b).
Proof.
  revert h a v. induction fuel as [|fuel IH]; intros h a v Hwf [n Ha] Hfuel;
    [lia|].
  cbn [propagateResult]. rewrite Ha. cbn [mbind option_bind].
  set (h1 := <[a := receive v n]> h).
  assert (Hlt : (a < length h)%nat) by (by eapply lookup_lt_Some).
  assert (Hh1a : h1 !! a = Some (receive v n))
    by (by apply list_lookup_insert_eq).
  destruct (parent_ n) as [p|] eqn:Hp.
  - pose proof (Hwf _ _ _ Ha Hp) as Hpa.
    assert (Hwf1 : parents_before h1)
      by (by eapply parents_before_insert).
    assert (Hp1 : is_Some (h1 !! p)).
    { apply lookup_lt_is_Some. unfold h1. rewrite length_insert. lia. }
    destruct (IH h1 p (f_sub (f_of_int 1) v) Hwf1 Hp1) as
      (h' & -> & Hlen & Hon & Hoff); [lia|].
    assert (Hto : ∀ b w, reaches h p (f_sub (f_of_int 1) v) b w →
                         reaches h1 p (f_sub (f_of_int 1) v) b w).
    { intros b w. apply reaches_same_parents. intros c m Hc.
      destruct (decide (a = c)) as [<-|Hne].
      - exists (receive v n). split; [done|]. by simplify_eq.
      - exists m. split; [|done]. unfold h1.
        by rewrite list_lookup_insert_ne. }
    assert (Hfrom : ∀ b w, reaches h1 p (f_sub (f_of_int 1) v) b w →
                           reaches h p (f_sub (f_of_int 1) v) b w).
    { intros b w. apply reaches_same_parents. intros c m Hc.
      destruct (decide (a = c)) as [<-|Hne].
      - exists n. split; [done|]. by simplify_eq.
      - exists m. split; [|done]. unfold h1 in Hc.
        by rewrite list_lookup_insert_ne in Hc. }
    exists h'. split; [done|]. split; [by rewrite Hlen; apply length_insert|].
    split.
    + intros b w Hr. inversion Hr as [|? ? n' p' ? ? Ha' Hp' Hup]; subst.
      * rewrite Hoff, Hh1a, Ha; [done|]. intros w' Hr'.
        apply (reaches_le _ _ _ _ _ Hwf1) in Hr'. lia.
      * simplify_eq. rewrite (Hon b w) by auto.
        assert (b ≠ a).
        { apply (reaches_le _ _ _ _ _ Hwf) in Hup. lia. }
        unfold h1. by rewrite list_lookup_insert_ne.
    + intros b Hnot.
      assert (b ≠ a) by (intros ->; apply (Hnot v); constructor).
      rewrite Hoff.
      * unfold h1. by rewrite list_lookup_insert_ne.
      * intros w Hr. apply (Hnot w).
        apply (reaches_parent h a v n p b w); auto.
  - exists h1. split; [done|]. split; [apply length_insert|]. split.
    + intros b w Hr. inversion Hr; subst; [|congruence].
      by rewrite Hh1a, Ha.
    + intros b Hnot.
      assert (b ≠ a) by (intros ->; apply (Hnot v); constructor).
      unfold h1. by rewrite list_lookup_insert_ne.
Qed.

Lemma reaches_dec h a v b :
  parents_before h →
  (∃ w, reaches h a v b w) ∨ (∀ w, ¬ reaches h a v b w).
Proof.
  intros Hwf. revert v.
  induction (lt_wf a) as [a _ IH]; intros v.
  destruct (decide (a = b)) as [->|Hne]; [left; eexists; constructor|].
  destruct (h !! a) as [n|] eqn:Ha.
  2:{ right. intros w Hr. inversion Hr; simplify_eq. }
  destruct (parent_ n) as [p|] eqn:Hp.
  2:{ right. intros w Hr. inversion Hr; simplify_eq. }
  destruct (IH p (Hwf _ _ _ Ha Hp) (f_sub (f_of_int 1) v)) as [[w Hr]|Hnot].
  - left. exists w. by apply (reaches_parent h a v n p b w).
  - right. intros w Hr. inversion Hr; simplify_eq. by eapply Hnot.
Qed.

(** A value that reaches a node goes on to its parent, negated. *)
Lemma reaches_step h a v b w n p :
  reaches h a v b w → h !! b = Some n → parent_ n = Some p →
  reaches h a v p (f_sub (f_of_int 1) w).
Proof.
  induction 1 as [a v|a v m q b w Ha Hq _ IH]; intros Hb Hp.
  - apply (reaches_parent h a v n p); [done|done|constructor].
  - apply (reaches_parent h a v m q); auto.
Qed.

Lemma receive_games v n :
  0 ≤ games_ n < 2 ^ 64 - 1 → games_ (receive v n) = games_ n + 1.
Proof. intros. cbn. apply to_size_t_small. lia. Qed.

(** ** The invariant of the visit counts *)

Lemma propagateResult_preserves fuel h a v :
  parents_before h → visit_inv h → games_bounded h →
  is_Some (h !! a) → (a < fuel)%nat →
  ∃ h', propagateResult fuel h a v = Some h' ∧
        parents_before h' ∧ visit_inv h'.
Proof.
  intros Hwf Hinv Hbnd Ha Hfuel.
  destruct (propagateResult_spec fuel h a v Hwf Ha Hfuel)
    as (h' & Hrun & Hlen & Hon & Hoff).
  exists h'. split; [done|].
  assert (Hnode : ∀ b n', h' !! b = Some n' →
            ∃ n, h !! b = Some n ∧ same_shape n n' ∧
                 ((∃ w, reaches h a v b w ∧ n' = receive w n)
                  ∨ ((∀ w, ¬ reaches h a v b w) ∧ n' = n))).
  { intros b n' Hb. destruct (reaches_dec h a v b Hwf) as [[w Hr]|Hnot].
    - rewrite (Hon b w Hr) in Hb. destruct (h !! b) as [n|]; [|done].
      injection Hb as <-. exists n.
      split_and!; [done|apply receive_same_shape|left; eauto].
    - rewrite (Hoff b Hnot) in Hb. exists n'.
      split_and!; [done|apply same_shape_refl|right; eauto]. }
  split.
  - intros b n' p Hb Hp. destruct (Hnode b n' Hb) as (n & Hn & Hsh & _).
    apply (Hwf b n p Hn). destruct Hsh as (_ & _ & _ & <- & _). done.
  - intros b n' Hb. destruct (Hnode b n' Hb) as (n & Hn & Hsh & Hcase).
    destruct (Hinv b n Hn) as [Hzero Hpar].
    destruct Hsh as (_ & _ & _ & Hp' & Hc').
    pose proof (Hbnd b n Hn) as Hgb. split.
    + destruct Hcase as [(w & _ & ->)|[_ ->]]; [|done].
      rewrite receive_games by done. lia.
    + intros p Hp. rewrite Hp' in Hp.
      destruct (Hpar p Hp) as (pn & Hpn & Hle).
      pose proof (Hbnd p pn Hpn) as Hgp.
      destruct Hcase as [(w & Hr & ->)|[Hnot ->]].
      * pose proof (reaches_step h a v b w n p Hr Hn Hp) as Hrp.
        exists (receive (f_sub (f_of_int 1) w) pn).
        rewrite (Hon _ _ Hrp), Hpn. split; [done|].
        rewrite !receive_games by done. lia.
      * destruct (reaches_dec h a v p Hwf) as [[w Hr]|Hnotp].
        -- exists (receive w pn). rewrite (Hon _ _ Hr), Hpn.
           split; [done|]. rewrite receive_games by done. lia.
        -- exists pn. by rewrite (Hoff _ Hnotp).
Qed.

Lemma emplace_child_lookup a player board h m :
  h !! a = Some m →
  let h' := emplace_child a player board h in
  length h' = S (length h) ∧
  h' !! a = Some (push_child (length h) m) ∧
  h' !! length h = Some (new_Node board player (Some a)) ∧
  (∀ b, b ≠ a → b ≠ length h → h' !! b = h !! b).
Proof.
  intros Ha. pose proof (lookup_lt_Some _ _ _ Ha) as Hlt.
  unfold emplace_child. cbn zeta. split_and!.
  - rewrite length_alter, length_app. cbn. lia.
  - rewrite list_lookup_alter_eq, lookup_app_l, Ha by done. done.
  - rewrite list_lookup_alter_ne by lia.
    by rewrite lookup_app_r, Nat.sub_diag by lia.
  - intros b Hba Hbl. rewrite list_lookup_alter_ne by done.
    destruct (decide (b < length h)%nat).
    + by rewrite lookup_app_l.
    + rewrite !lookup_ge_None_2; [done|lia|rewrite length_app; cbn; lia].
Qed.

Lemma emplace_child_expanding a player board h :
  expanding a h → expanding a (emplace_child a player board h).
Proof.
  intros (Hwf & Hinv & m & Ha & Hm).
  destruct (emplace_child_lookup a player board h m Ha)
    as (Hlen & Ha' & Hnew & Hother).
  pose proof (lookup_lt_Some _ _ _ Ha) as Hlt.
  set (h' := emplace_child a player board h) in *.
  assert (Hnode : ∀ b n', h' !! b = Some n' →
            (b = length h ∧ n' = new_Node board player (Some a))
            ∨ (b = a ∧ n' = push_child (length h) m)
            ∨ (b ≠ a ∧ b ≠ length h ∧ h !! b = Some n')).
  { intros b n' Hb. destruct (decide (b = length h)) as [->|Hbl].
    { left. split; [done|]. congruence. }
    destruct (decide (b = a)) as [->|Hba].
    { right. left. split; [done|]. congruence. }
    right. right. by rewrite <- (Hother b) by done. }
  assert (Hgames : ∀ p pn, h !! p = Some pn →
            ∃ pn', h' !! p = Some pn' ∧ games_ pn' = games_ pn).
  { intros p pn Hp. destruct (decide (p = a)) as [->|Hpa].
    - exists (push_child (length h) m). split; [done|]. by simplify_eq.
    - exists pn. split; [|done]. rewrite Hother; [done..|].
      apply lookup_lt_Some in Hp. lia. }
  split_and!.
  - intros b n' p Hb Hp.
    destruct (Hnode b n' Hb) as [[-> ->]|[[-> ->]|(_ & _ & Hb')]].
    + cbn in Hp. by simplify_eq.
    + by apply (Hwf a m p).
    + by apply (Hwf b n' p).
  - intros b n' Hb.
    destruct (Hnode b n' Hb) as [[-> ->]|[[-> ->]|(_ & _ & Hb')]].
    + split; [done|]. intros p [= <-].
      exists (push_child (length h) m). split; [done|]. cbn. lia.
    + split; [cbn; lia|]. intros p Hp.
      destruct (Hinv a m Ha) as [_ Hpar].
      destruct (Hpar p Hp) as (pn & Hpn & Hle).
      destruct (Hgames p pn Hpn) as (pn' & ? & Hg).
      exists pn'. split; [done|]. cbn. lia.
    + destruct (Hinv b n' Hb') as [Hzero Hpar]. split; [done|].
      intros p Hp. destruct (Hpar p Hp) as (pn & Hpn & Hle).
      destruct (Hgames p pn Hpn) as (pn' & ? & Hg).
      exists pn'. split; [done|]. lia.
  - exists (push_child (length h) m). by split.
Qed.

Lemma set_isPassMove_expanding a b h m :
  parents_before h → visit_inv h → h !! a = Some m → 1 ≤ games_ m →
  expanding a (<[a := set_isPassMove b m]> h).
Proof.
  intros Hwf Hinv Ha Hm.
  pose proof (lookup_lt_Some _ _ _ Ha) as Hlt.
  assert (Hnode : ∀ c n', <[a := set_isPassMove b m]> h !! c = Some n' →
            ∃ n, h !! c = Some n ∧ games_ n' = games_ n ∧
                 parent_ n' = parent_ n ∧ children_ n' = children_ n).
  { intros c n' Hc. destruct (decide (a = c)) as [<-|Hne].
    - rewrite list_lookup_insert_eq in Hc by done. injection Hc as <-.
      by exists m.
    - rewrite list_lookup_insert_ne in Hc by done. by exists n'. }
  assert (Hgames : ∀ p pn, h !! p = Some pn →
            ∃ pn', <[a := set_isPassMove b m]> h !! p = Some pn'
                   ∧ games_ pn' = games_ pn).
  { intros p pn Hp. destruct (decide (a = p)) as [<-|Hne].
    - exists (set_isPassMove b m).
      rewrite list_lookup_insert_eq by done. by simplify_eq.
    - exists pn. by rewrite list_lookup_insert_ne. }
  split_and!.
  - intros c n' p Hc Hp. destruct (Hnode c n' Hc) as (n & Hn & _ & Hp' & _).
    apply (Hwf c n p Hn). congruence.
  - intros c n' Hc. destruct (Hnode c n' Hc) as (n & Hn & Hg & Hp' & Hc').
    destruct (Hinv c n Hn) as [Hzero Hpar]. split.
    + rewrite Hg, Hc'. done.
    + intros p Hp. rewrite Hp' in Hp.
      destruct (Hpar p Hp) as (pn & Hpn & Hle).
      destruct (Hgames p pn Hpn) as (pn' & ? & Hg').
      exists pn'. split; [done|]. lia.
  - exists (set_isPassMove b m). split; [|done].
    by apply list_lookup_insert_eq.
Qed.

Lemma expand_preserves h a h' :
  parents_before h → visit_inv h → expand h a = Some h' →
  parents_before h' ∧ visit_inv h'.
Proof.
  intros Hwf Hinv. unfold expand.
  destruct (h !! a) as [n|] eqn:Ha; [|done]. cbn [mbind option_bind].
  destruct (if isPassMove_ n then _ else _) as [[]|]; cbn [mbind option_bind];
    [by intros [= <-]| |done].
  destruct (bool_decide (children_ n = []) && _) eqn:Hguard;
    [|by intros [= <-]].
  apply andb_true_iff in Hguard as [_ Hvis%Z.leb_le].
  unfold MIN_VISITS_TO_EXPAND in Hvis.
  destruct (getNextStates (board_ n)) as [boards|]; [|done].
  cbn [mbind option_bind].
  pose proof (set_isPassMove_expanding a (bool_decide (boards = [])) h n
                Hwf Hinv Ha Hvis) as Hexp.
  set (h1 := <[a := set_isPassMove (bool_decide (boards = [])) n]> h) in *.
  case_bool_decide as Hpass.
  - destruct (parent_ n) as [p|]; [|done]. cbn [mbind option_bind].
    destruct (h1 !! p) as [pn|]; [|done]. cbn [mbind option_bind].
    destruct (negb (isPassMove_ pn)); intros [= <-].
    + by destruct (emplace_child_expanding a (other_player (player_ n))
                     (flipped (board_ n)) h1 Hexp) as (? & ? & _).
    + by destruct Hexp as (? & ? & _).
  - intros [= <-]. clear Hpass.
    enough (expanding a (fold_left
              (fun hh board => emplace_child a (other_player (player_ n))
                                             board hh) boards h1))
      as (? & ? & _) by done.
    revert Hexp. generalize h1. clear.
    induction boards as [|board boards IH]; intros hh Hexp; [done|].
    cbn [fold_left]. by apply IH, emplace_child_expanding.
Qed.

(** The constructor, for a root or below a node of the store. *)
Lemma new_Node_preserves h board player parent :
  parents_before h → visit_inv h → games_bounded h →
  (∀ p, parent = Some p → is_Some (h !! p)) →
  parents_before (h ++ [new_Node board player parent]) ∧
  visit_inv (h ++ [new_Node board player parent]).
Proof.
  intros Hwf Hinv Hbnd Hpar.
  assert (Hnode : ∀ b n', (h ++ [new_Node board player parent]) !! b
                          = Some n' →
            (b = length h ∧ n' = new_Node board player parent)
            ∨ h !! b = Some n').
  { intros b n' Hb. destruct (decide (b < length h)%nat).
    - right. by rewrite lookup_app_l in Hb.
    - left. rewrite lookup_app_r in Hb by lia.
      destruct (b - length h)%nat eqn:Hd; [|by destruct n0].
      injection Hb as <-. split; [lia|done]. }
  split.
  - intros b n' p Hb Hp. destruct (Hnode b n' Hb) as [[-> ->]|Hb'].
    + cbn in Hp. subst parent. destruct (Hpar p eq_refl) as [pn Hpn].
      by eapply lookup_lt_Some.
    + by apply (Hwf b n' p).
  - intros b n' Hb. destruct (Hnode b n' Hb) as [[-> ->]|Hb'].
    + split; [done|]. cbn. intros p ->.
      destruct (Hpar p eq_refl) as [pn Hpn]. exists pn.
      rewrite lookup_app_l by (by eapply lookup_lt_Some).
      split; [done|]. by destruct (Hbnd p pn Hpn).
    + destruct (Hinv b n' Hb') as [Hzero Hp]. split; [done|].
      intros p Hpp. destruct (Hp p Hpp) as (pn & Hpn & Hle).
      exists pn. by rewrite lookup_app_l by (by eapply lookup_lt_Some).
Qed.

End TreeProps.

(** * The random playout *)

(** ** Empty cells along a game *)

Lemma count_empty_mask b b' :
  empty_mask b = empty_mask b' → count_empty b = count_empty b'.
Proof.
  unfold count_empty, empty_mask. revert b'.
  induction b as [|c b IH]; intros [|c' b'] Hm; try done.
  injection Hm as Hc Hm. specialize (IH b' Hm).
  rewrite !filter_cons.
  destruct (decide (c = EMPTY)), (decide (c' = EMPTY)); cbn; try lia.
  - rewrite bool_decide_eq_true_2, bool_decide_eq_false_2 in Hc; done.
  - rewrite bool_decide_eq_false_2, bool_decide_eq_true_2 in Hc; done.
Qed.

Lemma count_empty_le b : (count_empty b ≤ length b)%nat.
Proof. apply length_filter. Qed.

Lemma count_empty_fill b k :
  b !! k = Some EMPTY →
  S (count_empty (<[k := BLACK]> b)) = count_empty b.
Proof.
  unfold count_empty. revert k.
  induction b as [|c b IH]; intros [|k] Hk; try done; cbn in Hk.
  - injection Hk as ->. cbn [insert list_insert].
    rewrite !filter_cons. by repeat case_decide.
  - change (<[S k := BLACK]> (c :: b)) with (c :: <[k := BLACK]> b).
    rewrite !filter_cons. case_decide; cbn; rewrite <- (IH k Hk); lia.
Qed.

Lemma empty_mask_flipPlayer b : empty_mask (flipPlayer b) = empty_mask b.
Proof.
  unfold empty_mask, flipPlayer. rewrite <- list_fmap_compose.
  apply list_fmap_ext. intros _ c _. cbn. by destruct c.
Qed.

(** A successor board has one empty cell less. *)
Lemma successor_of_count b nb :
  successor_of b nb →
  length nb = length b ∧ S (count_empty nb) = count_empty b.
Proof.
  intros (x & y & tmp & [Hx Hy] & Hput & ->).
  rewrite flipPlayer_length.
  rewrite (count_empty_mask _ tmp) by apply empty_mask_flipPlayer.
  split; [apply (put_length b x y true); [lia|lia|done]|].
  apply put_frame in Hput as [(? & _)|(_ & _ & Hfree & [Hmask _] & _)];
    [done| |lia|lia].
  rewrite (count_empty_mask _ _ Hmask). by apply count_empty_fill.
Qed.

Lemma getNextStates_length b l :
  getNextStates b = Some l → Z.of_nat (length l) ≤ 64.
Proof.
  unfold getNextStates, COORDS, BOARD_SIZE. intros Hrun.
  apply (for_each_seqZ_inv
           (fun y boards => Z.of_nat (length boards) ≤ 8 * y))
    in Hrun; [done|lia| |done].
  intros y boards boards' Hy Hrow Hg.
  apply (for_each_seqZ_inv
           (fun x acc => Z.of_nat (length acc) ≤ x + 8 * y))
    in Hrow; [lia|lia| |done].
  intros x acc acc' Hx Hbody Hacc.
  destruct (put b x y) as [[[] tmp]|]; [| |done];
    cbn [mbind option_bind] in Hbody; injection Hbody as <-; [|lia].
  rewrite length_app. cbn. lia.
Qed.

Lemma isFilled_occupied b k c : isFilled b = true → b !! k = Some c → c ≠ EMPTY.
Proof.
  unfold isFilled. rewrite forallb_forall. intros Hall Hk ->.
  apply list_elem_of_lookup_2, list_elem_of_In, Hall in Hk.
  by rewrite bool_decide_eq_true_2 in Hk.
Qed.

(** A full board has no successor. *)
Lemma getNextStates_filled b :
  length b = 64%nat → isFilled b = true → getNextStates b = Some [].
Proof.
  intros Hlen Hfull.
  destruct (getNextStates_total b Hlen) as [l Hl].
  rewrite Hl. f_equal. destruct l as [|nb l]; [done|].
  apply getNextStates_gathered in Hl as [_ Hsucc].
  destruct (Hsucc nb) as (x & y & tmp & [Hx Hy] & _ & Hput & _); [left|].
  apply put_frame in Hput as [(? & _)|(_ & _ & Hfree & _ & _)];
    [done| |lia|lia].
  by apply (isFilled_occupied b _ _ Hfull) in Hfree.
Qed.

Lemma getNextStates_successors b l nb :
  getNextStates b = Some l → nb ∈ l → successor_of b nb.
Proof.
  intros Hl Hnb. apply getNextStates_gathered in Hl as [_ Hsucc].
  destruct (Hsucc nb Hnb) as (x & y & tmp & ? & _ & ? & ?).
  by exists x, y, tmp.
Qed.

(** ** The loop of [playout] ends *)

Section Playout.
Context {F : Type} `{FloatArith F} {R : Type} `{RandomEngine R}.
Implicit Types (h : Heap F) (n : Node F) (g : R).

Lemma randomIndex_range g k :
  0 < k < 2 ^ 64 →
  ∃ idx g', randomIndex g k = Some (idx, g') ∧ 0 ≤ idx < k.
Proof.
  intros Hk. unfold randomIndex.
  destruct (Z.ltb_spec 0 k); [|lia]. cbn [negb].
  destruct (Z.eqb_spec k 1) as [->|Hne]; [exists 0, g; split; [done|lia]|].
  rewrite to_size_t_small by lia.
  destruct (uniform_int g 0 (k - 1)) as [idx g'] eqn:Hdraw.
  exists idx, g'. split; [done|].
  pose proof (uniform_int_range g 0 (k - 1)) as Hr.
  rewrite Hdraw in Hr. cbn [fst] in Hr. lia.
Qed.

Lemma playout_loop_total fuel g current player passed :
  length current = 64%nat →
  (2 * count_empty current + (if passed : bool then 0 else 1) < fuel)%nat →
  is_Some (playout_loop fuel g current player passed).
Proof.
  revert g current player passed.
  induction fuel as [|fuel IH]; intros g current player passed Hlen Hfuel;
    [lia|].
  cbn [playout_loop]. destruct (isFilled current); [done|].
  destruct (getNextStates_total current Hlen) as [boards Hb].
  rewrite Hb. cbn [mbind option_bind].
  case_bool_decide as Hnil.
  - destruct passed; [done|]. apply IH.
    + unfold flipped. by rewrite flipPlayer_length.
    + unfold flipped.
      rewrite (count_empty_mask _ current) by apply empty_mask_flipPlayer.
      lia.
  - pose proof (getNextStates_length _ _ Hb) as Hle.
    destruct (randomIndex_range g (Z.of_nat (length boards)))
      as (idx & g' & -> & Hidx).
    { destruct boards; [done|]. cbn [length] in *. lia. }
    cbn [mbind option_bind].
    destruct (lookup_lt_is_Some_2 boards (Z.to_nat idx)) as [next Hnext];
      [lia|].
    rewrite Hnext. cbn [mbind option_bind].
    apply list_elem_of_lookup_2 in Hnext.
    destruct (successor_of_count current next) as [Hlen' Hcount];
      [by eapply getNextStates_successors|].
    apply IH; [congruence|]. destruct passed; lia.
Qed.

Lemma playout_loop_PLAYOUT_FUEL g current player passed :
  length current = 64%nat →
  is_Some (playout_loop PLAYOUT_FUEL g current player passed).
Proof.
  intros Hlen. apply playout_loop_total; [done|].
  pose proof (count_empty_le current). unfold PLAYOUT_FUEL.
  destruct passed; lia.
Qed.

(** [playout] is one call of [propagateResult] on the store it was
    given, once its loop has ended. *)
Lemma playout_unfold fuel h a g n :
  h !! a = Some n →
  is_Some (playout_loop fuel g (board_ n) (player_ n) (isPassMove_ n)) →
  ∃ v g', playout fuel h a g
          = (h' ← propagateResult (length h) h a v; Some (h', g')).
Proof.
  intros Ha [[[current player] g'] Hloop]. unfold playout.
  rewrite Ha. cbn [mbind option_bind].
  rewrite Hloop. cbn [mbind option_bind].
  by eexists _, g'.
Qed.

Lemma playout_propagates h a g n :
  h !! a = Some n → length (board_ n) = 64%nat →
  ∃ v g', playout PLAYOUT_FUEL h a g
          = (h' ← propagateResult (length h) h a v; Some (h', g')).
Proof.
  intros Ha Hlen. apply (playout_unfold PLAYOUT_FUEL h a g n Ha).
  by apply playout_loop_PLAYOUT_FUEL.
Qed.

End Playout.

(** ** What [playout] changes *)

Section PlayoutFrame.
Context {F : Type} `{FloatArith F} {R : Type} `{RandomEngine R}.
Implicit Types (h : Heap F) (n : Node F) (g : R).

(** C9. [playout] returns, adds no node, and leaves the board, the
    player, the pass flag, the parent and the children of every node as
    they were: with [v] the value it propagates, the nodes that [v]
    reaches from the node (the node and its ancestors) have received
    their value through [receive], which sets [games_] and [mean_] only,
    and every other node is untouched. *)
Theorem playout_frame h a g n :
  parents_before h → h !! a = Some n → length (board_ n) = 64%nat →
  ∃ v h' g',
    playout PLAYOUT_FUEL h a g = Some (h', g') ∧
    length h' = length h ∧
    (∀ b m, h !! b = Some m → ∃ m', h' !! b = Some m' ∧ same_shape m m') ∧
    (∀ b w, reaches h a v b w → h' !! b = receive w <$> h !! b) ∧
    (∀ b, (∀ w, ¬ reaches h a v b w) → h' !! b = h !! b).
Proof.
  intros Hwf Ha Hlen.
  destruct (playout_propagates h a g n Ha Hlen) as (v & g' & ->).
  destruct (propagateResult_spec (length h) h a v Hwf)
    as (h' & -> & Hlen' & Hon & Hoff);
    [done|by eapply lookup_lt_Some|].
  exists v, h', g'. split_and!; [done..| |done|done].
  intros b m Hb. destruct (reaches_dec h a v b Hwf) as [[w Hr]|Hnot].
  - exists (receive w m). rewrite (Hon b w Hr), Hb.
    split; [done|apply receive_same_shape].
  - exists m. rewrite (Hoff b Hnot). split; [done|apply same_shape_refl].
Qed.

Lemma playout_preserves h a g :
  parents_before h → visit_inv h → games_bounded h → boards_sized h →
  is_Some (h !! a) →
  ∃ h' g', playout PLAYOUT_FUEL h a g = Some (h', g') ∧
           parents_before h' ∧ visit_inv h'.
Proof.
  intros Hwf Hinv Hbnd Hsz [n Ha].
  destruct (playout_propagates h a g n Ha (Hsz a n Ha)) as (v & g' & ->).
  destruct (propagateResult_preserves (length h) h a v Hwf Hinv Hbnd)
    as (h' & -> & Hwf' & Hinv'); [done|by eapply lookup_lt_Some|].
  by exists h', g'.
Qed.

(** [expand] returns on every node that has a parent: only
    [assert(parent_)] can fail. *)
Lemma expand_total h a n :
  visit_inv h → boards_sized h → h !! a = Some n → is_Some (parent_ n) →
  is_Some (expand h a).
Proof.
  intros Hinv Hsz Ha [p Hp]. unfold expand.
  rewrite Ha. cbn [mbind option_bind]. rewrite Hp.
  destruct (Hinv a n Ha) as [_ Hpar].
  destruct (Hpar p Hp) as (pn & Hpn & _).
  assert (Hstop : ∃ stop, (if isPassMove_ n
                           then Some p ≫= (λ p0, h !! p0 ≫=
                                  λ pn0, Some (isPassMove_ pn0))
                           else Some false) = Some stop).
  { destruct (isPassMove_ n); cbn [mbind option_bind]; [|eauto].
    rewrite Hpn. cbn [mbind option_bind]. eauto. }
  destruct Hstop as [stop ->]. cbn [mbind option_bind].
  destruct stop; [done|].
  destruct (bool_decide (children_ n = []) && _); [|done].
  destruct (getNextStates_total (board_ n) (Hsz a n Ha)) as [boards ->].
  cbn [mbind option_bind]. case_bool_decide; [|done].
  cbn [mbind option_bind].
  destruct (lookup_lt_is_Some_2
              (<[a := set_isPassMove true n]> h) p) as [pn' ->].
  { rewrite length_insert. by eapply lookup_lt_Some. }
  cbn [mbind option_bind]. by destruct (negb (isPassMove_ pn')).
Qed.

(** C7. The constructor, [expand], [playout] and [propagateResult] keep
    the invariant that a node without visits has no children and that
    no node has more visits than its parent, on every store whose visit
    counts are below [SIZE_MAX]; [playout] and [propagateResult] return,
    and so does [expand] on every node that has a parent. *)
Theorem tree_operations_preserve_visit_inv h :
  parents_before h → visit_inv h → games_bounded h → boards_sized h →
  (∀ board player parent,
      (∀ p, parent = Some p → is_Some (h !! p)) →
      parents_before (h ++ [new_Node board player parent]) ∧
      visit_inv (h ++ [new_Node board player parent])) ∧
  (∀ a h', expand h a = Some h' → parents_before h' ∧ visit_inv h') ∧
  (∀ a n, h !! a = Some n → is_Some (parent_ n) → is_Some (expand h a)) ∧
  (∀ a g, is_Some (h !! a) →
      ∃ h' g', playout PLAYOUT_FUEL h a g = Some (h', g') ∧
               parents_before h' ∧ visit_inv h') ∧
  (∀ fuel a v, is_Some (h !! a) → (a < fuel)%nat →
      ∃ h', propagateResult fuel h a v = Some h' ∧
            parents_before h' ∧ visit_inv h').
Proof.
  intros Hwf Hinv Hbnd Hsz. split_and!.
  - intros board player parent Hpar. by apply new_Node_preserves.
  - intros a h'. by apply expand_preserves.
  - intros a n. by apply expand_total.
  - intros a g Ha. by apply playout_preserves.
  - intros fuel a v Ha Hfuel. by apply propagateResult_preserves.
Qed.

End PlayoutFrame.

(** ** The example tree *)

Lemma endgame_tree_nodes a n :
  endgame_tree !! a = Some n →
  (a = 0 ∧ endgame_tree !! 0%nat = Some n)%nat
  ∨ (a = 1 ∧ endgame_tree !! 1%nat = Some n)%nat
  ∨ (a = 2 ∧ endgame_tree !! 2%nat = Some n)%nat
  ∨ (a = 3 ∧ endgame_tree !! 3%nat = Some n)%nat.
Proof.
  destruct a as [|[|[|[|a]]]]; intros Ha; [tauto..|discriminate Ha].
Qed.

Lemma endgame_tree_parents_before : parents_before endgame_tree.
Proof.
  intros a n p Ha Hp.
  destruct (endgame_tree_nodes a n Ha) as [[-> Hn]|[[-> Hn]|[[-> Hn]|[-> Hn]]]];
    injection Hn as <-; cbn in Hp; simplify_eq; lia.
Qed.

Lemma endgame_tree_visit_inv : visit_inv endgame_tree.
Proof.
  intros a n Ha.
  destruct (endgame_tree_nodes a n Ha) as [[-> Hn]|[[-> Hn]|[[-> Hn]|[-> Hn]]]];
    injection Hn as <-; (split; [done|]); intros p Hp; cbn in Hp;
    simplify_eq; eexists; (split; [reflexivity|done]).
Qed.

Lemma endgame_tree_games_bounded : games_bounded endgame_tree.
Proof.
  intros a n Ha.
  destruct (endgame_tree_nodes a n Ha) as [[-> Hn]|[[-> Hn]|[[-> Hn]|[-> Hn]]]];
    injection Hn as <-; cbn; lia.
Qed.

Lemma endgame_tree_boards_sized : boards_sized endgame_tree.
Proof.
  intros a n Ha.
  by destruct (endgame_tree_nodes a n Ha)
    as [[-> Hn]|[[-> Hn]|[[-> Hn]|[-> Hn]]]]; injection Hn as <-.
Qed.

Lemma playout_frame_witness :
  ∃ v h' g',
    playout PLAYOUT_FUEL endgame_tree 3 42 = Some (h', g') ∧
    length h' = length endgame_tree ∧
    (∀ b m, endgame_tree !! b = Some m →
            ∃ m', h' !! b = Some m' ∧ same_shape m m') ∧
    (∀ b w, reaches endgame_tree 3 v b w →
            h' !! b = receive w <$> endgame_tree !! b) ∧
    (∀ b, (∀ w, ¬ reaches endgame_tree 3 v b w) →
          h' !! b = endgame_tree !! b).
Proof.
  eapply (playout_frame endgame_tree 3 42).
  - apply endgame_tree_parents_before.
  - reflexivity.
  - reflexivity.
Defined.

Lemma tree_operations_preserve_visit_inv_witness :
  (∀ board player parent,
      (∀ p, parent = Some p → is_Some (endgame_tree !! p)) →
      parents_before (endgame_tree ++ [new_Node board player parent]) ∧
      visit_inv (endgame_tree ++ [new_Node board player parent])) ∧
  (∀ a h', expand endgame_tree a = Some h' →
           parents_before h' ∧ visit_inv h') ∧
  (∀ a n, endgame_tree !! a = Some n → is_Some (parent_ n) →
          is_Some (expand endgame_tree a)) ∧
  (∀ a (g : Z), is_Some (endgame_tree !! a) →
      ∃ h' g', playout PLAYOUT_FUEL endgame_tree a g = Some (h', g') ∧
               parents_before h' ∧ visit_inv h') ∧
  (∀ fuel a v, is_Some (endgame_tree !! a) → (a < fuel)%nat →
      ∃ h', propagateResult fuel endgame_tree a v = Some h' ∧
            parents_before h' ∧ visit_inv h').
Proof.
  apply (tree_operations_preserve_visit_inv (R := Z) endgame_tree).
  - apply endgame_tree_parents_before.
  - apply endgame_tree_visit_inv.
  - apply endgame_tree_games_bounded.
  - apply endgame_tree_boards_sized.
Defined.

(** ** Nodes with a full board *)

Section ExpandFilled.
Context {F : Type} `{FloatArith F}.
Implicit Types (h : Heap F) (n : Node F).

Lemma isLeafNode_filled h a n :
  h !! a = Some n → isFilled (board_ n) = true → isLeafNode h a = Some true.
Proof.
  intros Ha Hfull. unfold isLeafNode. rewrite Ha. cbn [mbind option_bind].
  rewrite Hfull. by case_bool_decide.
Qed.

(** C4, as the program has it. A node with a full board is a leaf
    whatever its children, visits and pass flag. [expand] on it finds no
    successor board; it still creates one child, the pass child with the
    flipped board, when the node has no children, has been visited, and
    has a parent that is not a pass node. In every other case [expand]
    adds no node and no child. *)
Theorem expand_on_filled_board h a n :
  parents_before h → h !! a = Some n →
  length (board_ n) = 64%nat → isFilled (board_ n) = true →
  isLeafNode h a = Some true ∧
  (∀ p pn,
      children_ n = [] → 1 ≤ games_ n →
      parent_ n = Some p → h !! p = Some pn → isPassMove_ pn = false →
      expand h a
      = Some (emplace_child a (other_player (player_ n))
                            (flipped (board_ n))
                            (<[a := set_isPassMove true n]> h))) ∧
  (∀ h',
      expand h a = Some h' →
      ¬ (children_ n = [] ∧ 1 ≤ games_ n ∧
         ∃ p pn, parent_ n = Some p ∧ h !! p = Some pn
                 ∧ isPassMove_ pn = false) →
      length h' = length h ∧
      ∀ b m, h !! b = Some m →
             ∃ m', h' !! b = Some m' ∧ children_ m' = children_ m).
Proof.
  intros Hwf Ha Hlen Hfull.
  pose proof (getNextStates_filled _ Hlen Hfull) as Hnone.
  split; [by apply (isLeafNode_filled h a n)|]. split.
  - intros p pn Hch Hvis Hp Hpn Hpass. unfold expand.
    rewrite Ha. cbn [mbind option_bind]. rewrite Hp.
    assert ((if isPassMove_ n
             then Some p ≫= (λ p0, h !! p0 ≫= λ pn0, Some (isPassMove_ pn0))
             else Some false) = Some false) as ->.
    { destruct (isPassMove_ n); [|done]. cbn [mbind option_bind].
      rewrite Hpn. cbn [mbind option_bind]. by rewrite Hpass. }
    cbn [mbind option_bind].
    rewrite (bool_decide_eq_true_2 _ Hch).
    destruct (Z.leb_spec MIN_VISITS_TO_EXPAND (games_ n)) as [_|Hlt];
      [|unfold MIN_VISITS_TO_EXPAND in Hlt; lia].
    cbn [andb]. rewrite Hnone. cbn [mbind option_bind].
    rewrite (bool_decide_eq_true_2 _ eq_refl). cbn [mbind option_bind].
    rewrite list_lookup_insert_ne, Hpn.
    + cbn [mbind option_bind]. by rewrite Hpass.
    + specialize (Hwf a n p Ha Hp). lia.
  - intros h' Hexp Hnot. unfold expand in Hexp.
    rewrite Ha in Hexp. cbn [mbind option_bind] in Hexp.
    assert (Hsame : length h = length h ∧
              ∀ b m, h !! b = Some m →
                     ∃ m', h !! b = Some m' ∧ children_ m' = children_ m)
      by (split; [done|]; eauto).
    destruct (if isPassMove_ n then _ else _) as [[]|];
      cbn [mbind option_bind] in Hexp; [by injection Hexp as <-| |done].
    destruct (bool_decide (children_ n = []) && _) eqn:Hguard;
      [|by injection Hexp as <-].
    apply andb_true_iff in Hguard as [Hch%bool_decide_eq_true Hvis%Z.leb_le].
    unfold MIN_VISITS_TO_EXPAND in Hvis.
    rewrite Hnone in Hexp. cbn [mbind option_bind] in Hexp.
    rewrite (bool_decide_eq_true_2 _ eq_refl) in Hexp.
    destruct (parent_ n) as [p|] eqn:Hp; [|done].
    cbn [mbind option_bind] in Hexp.
    assert (Hpa : p ≠ a) by (specialize (Hwf a n p Ha Hp); lia).
    rewrite list_lookup_insert_ne in Hexp by done.
    destruct (h !! p) as [pn|] eqn:Hpn; [|done].
    cbn [mbind option_bind] in Hexp.
    destruct (isPassMove_ pn) eqn:Hpass; cbn [negb] in Hexp.
    + injection Hexp as <-. split; [apply length_insert|].
      intros b m Hb. destruct (decide (a = b)) as [<-|Hne].
      * exists (set_isPassMove true n).
        rewrite list_lookup_insert_eq by (by eapply lookup_lt_Some).
        by simplify_eq.
      * exists m. by rewrite list_lookup_insert_ne.
    + exfalso. apply Hnot. split_and!; [done..|]. by exists p, pn.
Qed.

End ExpandFilled.

(** C4, as the specification states it, does not hold. In the example
    tree the node 3 has a full board; once [playout] has visited it,
    [expand] gives it the child 4. *)
Lemma expand_on_filled_board_creates_child :
  ¬ (∀ (h : Heap spec_float) a n h' n',
       h !! a = Some n → isFilled (board_ n) = true →
       expand h a = Some h' → h' !! a = Some n' →
       children_ n' = children_ n ∧ length h' = length h).
Proof.
  intros Hclaim.
  edestruct (Hclaim endgame_tree_evaluated 3%nat) as [Hch _].
  - reflexivity.
  - reflexivity.
  - lazy. reflexivity.
  - reflexivity.
  - discriminate Hch.
Qed.

Lemma endgame_tree_evaluated_parents_before :
  parents_before endgame_tree_evaluated.
Proof.
  intros [|[|[|[|a]]]] m p Ha Hp; [..|discriminate Ha];
    injection Ha as <-; cbn in Hp; simplify_eq; lia.
Qed.

Lemma expand_on_filled_board_witness :
  isLeafNode endgame_tree_evaluated 3 = Some true ∧
  ∃ h', expand endgame_tree_evaluated 3 = Some h' ∧
        length h' = 5%nat ∧
        (children_ <$> h' !! 3%nat) = Some [4%nat].
Proof.
  edestruct (expand_on_filled_board endgame_tree_evaluated 3)
    as (Hleaf & Hchild & _).
  - apply endgame_tree_evaluated_parents_before.
  - reflexivity.
  - reflexivity.
  - reflexivity.
  - split; [exact Hleaf|].
    eexists. split; [eapply (Hchild 1%nat); reflexivity|].
    split; reflexivity.
Defined.

(** * The running mean *)

(** ** In exact arithmetic *)

Lemma Qc_sum_snoc vs v : Qc_sum (vs ++ [v]) = (Qc_sum vs + v)%Qc.
Proof.
  induction vs as [|u vs IH].
  - change (v + 0 = 0 + v)%Qc. ring.
  - change (u + Qc_sum (vs ++ [v]) = u + Qc_sum vs + v)%Qc.
    rewrite IH. ring.
Qed.

Lemma average_nil : average [] = 0%Qc.
Proof. reflexivity. Qed.

(** One more value: the incremental update gives the mean of the longer
    list. *)
Lemma average_snoc vs v :
  ((Qc_of_Z (Z.of_nat (length vs)) * average vs + v)
     / Qc_of_Z (Z.of_nat (length vs) + 1))%Qc
  = average (vs ++ [v]).
Proof.
  unfold average. rewrite Qc_sum_snoc, length_app, Nat2Z.inj_add. cbn [length].
  change (Z.of_nat 1) with 1.
  destruct vs as [|u vs].
  - cbn [length]. change (Z.of_nat 0) with 0. rewrite Z2Qc_inj_0.
    unfold Qcdiv. f_equal; ring.
  - set (k := Z.of_nat (length (u :: vs))).
    assert (Hk : Qc_of_Z k ≠ 0%Qc).
    { rewrite <- Z2Qc_inj_0. intros Heq%Z2Qc_inj. subst k. cbn in Heq. lia. }
    unfold Qcdiv. f_equal. f_equal.
    rewrite (Qcmult_comm (Qc_sum (u :: vs))), Qcmult_assoc.
    rewrite Qcmult_inv_r by done. ring.
Qed.

Lemma Qc_sum_bounds vs :
  Forall in_unit vs →
  (0 ≤ Qc_sum vs)%Qc ∧ (Qc_sum vs ≤ Qc_of_Z (Z.of_nat (length vs)))%Qc.
Proof.
  induction 1 as [|v vs [Hv0 Hv1] _ [IH0 IH1]]; cbn [Qc_sum foldr length].
  - change (Z.of_nat 0) with 0. by rewrite Z2Qc_inj_0.
  - split; [by apply Qcplus_nonneg_nonneg|].
    rewrite Nat2Z.inj_succ, <- Z.add_1_l, Z2Qc_inj_add, Z2Qc_inj_1.
    by apply Qcplus_le_compat.
Qed.

Lemma average_in_unit vs : Forall in_unit vs → in_unit (average vs).
Proof.
  intros Hvs. destruct (Qc_sum_bounds vs Hvs) as [H0 H1].
  unfold average. destruct vs as [|u vs]; [by split|].
  set (k := Qc_of_Z (Z.of_nat (length (u :: vs)))) in *.
  assert (Hk : (0 < k)%Qc).
  { subst k. rewrite <- Z2Qc_inj_0.
    apply (proj1 (Z2Qc_inj_lt 0 _)). cbn [length]. lia. }
  pose proof (Qcinv_pos k Hk) as Hinv.
  unfold Qcdiv. split.
  - apply Qcmult_nonneg_nonneg; [done|]. by apply Qclt_le_weak.
  - replace 1%Qc with (k * / k)%Qc
      by (apply Qcmult_inv_r; by apply not_symmetry, Qclt_not_eq).
    apply Qcmult_le_mono_nonneg_r; [by apply Qclt_le_weak|done].
Qed.

Lemma receive_mean_of vs v (n : Node Qc) :
  mean_of vs n → games_ n < 2 ^ 64 - 1 →
  mean_of (vs ++ [v]) (receive v n).
Proof.
  intros [Hg Hm] Hbnd. split.
  - cbn. rewrite to_size_t_small by lia. rewrite length_app. cbn. lia.
  - cbn. rewrite to_size_t_small by lia. rewrite Hg, Hm.
    apply average_snoc.
Qed.

Lemma reaches_in_unit (h : Heap Qc) a v b w :
  in_unit v → reaches h a v b w → in_unit w.
Proof.
  intros Hv Hr. induction Hr as [|a v n p b w _ _ _ IH]; [done|].
  apply IH. destruct Hv as [H0 H1]. cbn.
  rewrite Z2Qc_inj_1. split.
  - apply (proj2 (Qcplus_le_mono_r _ _ v)).
    replace (0 + v)%Qc with v by ring.
    by replace (1 - v + v)%Qc with 1%Qc by ring.
  - apply (proj2 (Qcplus_le_mono_r _ _ v)).
    replace (1 - v + v)%Qc with (1 + 0)%Qc by ring.
    by apply (proj1 (Qcplus_le_mono_l _ _ 1)).
Qed.

Lemma propagateResult_tracks fuel (h : Heap Qc) a v h1 hist hist1 :
  parents_before h → tracks hist h → games_bounded h → in_unit v →
  (a < fuel)%nat → propagateResult fuel h a v = Some h1 →
  history_after h a v hist hist1 →
  parents_before h1 ∧ tracks hist1 h1.
Proof.
  intros Hwf Htr Hbnd Hv Hfuel Hrun [Hhon Hhoff].
  assert (Ha : is_Some (h !! a)).
  { destruct fuel; [lia|]. cbn [propagateResult] in Hrun.
    by destruct (h !! a). }
  destruct (propagateResult_spec fuel h a v Hwf Ha Hfuel)
    as (h' & Hrun' & _ & Hon & Hoff).
  rewrite Hrun in Hrun'. injection Hrun' as <-.
  assert (Hnode : ∀ b n1, h1 !! b = Some n1 →
            ∃ n, h !! b = Some n ∧ parent_ n1 = parent_ n ∧
                 mean_of (hist1 b) n1 ∧ Forall in_unit (hist1 b)).
  { intros b n1 Hb. destruct (reaches_dec h a v b Hwf) as [[w Hr]|Hnot].
    - rewrite (Hon b w Hr) in Hb. destruct (h !! b) as [n|] eqn:Hn; [|done].
      injection Hb as <-. exists n. destruct (Htr b n Hn) as [Hmean Hunit].
      rewrite (Hhon b w Hr). split_and!; [done..| |].
      + apply receive_mean_of; [done|]. by destruct (Hbnd b n Hn).
      + apply Forall_app. split; [done|].
        apply Forall_singleton. by eapply reaches_in_unit.
    - rewrite (Hoff b Hnot) in Hb. exists n1.
      destruct (Htr b n1 Hb) as [Hmean Hunit].
      by rewrite (Hhoff b Hnot). }
  split.
  - intros b n1 p Hb Hp. destruct (Hnode b n1 Hb) as (n & Hn & Hp' & _).
    apply (Hwf b n p Hn). congruence.
  - intros b n1 Hb. by destruct (Hnode b n1 Hb) as (n & _ & _ & ? & ?).
Qed.

Lemma propagated_tracks h hist h' hist' :
  propagated h hist h' hist' →
  parents_before h → tracks hist h →
  parents_before h' ∧ tracks hist' h'.
Proof.
  induction 1 as [|h hist fuel a v h1 hist1 h2 hist2
                   Hv Hbnd Hfuel Hrun Hhist _ IH]; intros Hwf Htr; [done|].
  destruct (propagateResult_tracks fuel h a v h1 hist hist1) as [Hwf1 Htr1];
    [done..|].
  by apply IH.
Qed.

Lemma new_Node_mean_of board player parent :
  mean_of [] (new_Node board player parent).
Proof.
  split; [done|]. cbn. by rewrite Z2Qc_inj_0, average_nil.
Qed.

(** * Child selection *)

(** ** [std::max_element] *)

Section MaxElement.
Context {T : Type} (lt : T → T → bool).

Lemma max_element_from_stay top li i rest :
  (∀ x, x ∈ rest → lt top x = false) →
  max_element_from lt li top i rest = li.
Proof.
  revert i. induction rest as [|v rest IH]; intros i Htop; [done|].
  cbn [max_element_from]. rewrite (Htop v) by left.
  apply IH. intros x Hx. apply Htop. by right.
Qed.

Lemma max_element_from_top top li l i rest k :
  rest !! k = Some top →
  (∀ j v, (j < k)%nat → rest !! j = Some v → lt v top = true) →
  lt l top = true →
  (∀ x, x ∈ rest → lt top x = false) →
  max_element_from lt li l i rest = (i + k)%nat.
Proof.
  revert li l i k.
  induction rest as [|v rest IH]; intros li l i k Hk Hbelow Hl Htop;
    [done|].
  cbn [max_element_from]. destruct k as [|k].
  - injection Hk as ->. rewrite Hl, Nat.add_0_r.
    apply max_element_from_stay. intros x Hx. apply Htop. by right.
  - cbn in Hk.
    assert (Hv : lt v top = true) by (apply (Hbelow 0%nat); [lia|done]).
    assert (Hrest : ∀ j u, (j < k)%nat → rest !! j = Some u →
                           lt u top = true).
    { intros j u Hj Hu. apply (Hbelow (S j)); [lia|done]. }
    assert (Htop' : ∀ x, x ∈ rest → lt top x = false).
    { intros x Hx. apply Htop. by right. }
    replace (i + S k)%nat with (S i + k)%nat by lia.
    destruct (lt l v); by apply IH.
Qed.

Lemma max_element_from_lt li l i rest :
  (li < i)%nat →
  (max_element_from lt li l i rest < i + length rest)%nat.
Proof.
  revert li l i. induction rest as [|v rest IH]; intros li l i Hli;
    cbn [max_element_from length]; [lia|].
  destruct (lt l v).
  - specialize (IH i v (S i)). lia.
  - specialize (IH li l (S i)). lia.
Qed.

Lemma max_element_lt vals :
  vals ≠ [] → (max_element lt vals < length vals)%nat.
Proof.
  destruct vals as [|v rest]; [done|]. intros _. cbn [max_element length].
  pose proof (max_element_from_lt 0 v 1 rest). lia.
Qed.

(** The first occurrence of a value that is above every other value and
    below none is what [max_element] returns; no law of the order is
    needed. *)
Lemma max_element_top vals top k :
  vals !! k = Some top →
  (∀ j v, (j < k)%nat → vals !! j = Some v → lt v top = true) →
  (∀ x, x ∈ vals → lt top x = false) →
  max_element lt vals = k.
Proof.
  destruct vals as [|v rest]; [done|]. intros Hk Hbelow Htop.
  cbn [max_element]. destruct k as [|k].
  - injection Hk as ->. apply max_element_from_stay.
    intros x Hx. apply Htop. by right.
  - cbn in Hk. apply (max_element_from_top top 0%nat v 1%nat rest k).
    + done.
    + intros j u Hj Hu. apply (Hbelow (S j)); [lia|done].
    + apply (Hbelow 0%nat); [lia|done].
    + intros x Hx. apply Htop. by right.
Qed.

Lemma max_element_from_first_maximum pre rest li l :
  ordered_scores lt (pre ++ rest) →
  pre !! li = Some l →
  (∀ v, v ∈ pre → lt l v = false) →
  (∀ j v, (j < li)%nat → pre !! j = Some v → lt v l = true) →
  first_maximum lt (pre ++ rest)
                (max_element_from lt li l (length pre) rest).
Proof.
  revert pre li l.
  induction rest as [|v rest IH]; intros pre li l Hord Hli Hmax Hfirst.
  - cbn [max_element_from]. rewrite app_nil_r in *. by exists l.
  - cbn [max_element_from].
    destruct Hord as (Hirr & Htrans & Hco).
    assert (Hin_pre : ∀ u, u ∈ pre → u ∈ pre ++ v :: rest)
      by (intros u Hu; apply elem_of_app; by left).
    assert (Hin_v : v ∈ pre ++ v :: rest)
      by (apply elem_of_app; right; left).
    assert (Hin_l : l ∈ pre) by (by eapply list_elem_of_lookup_2).
    assert (Hlen : (li < length pre)%nat) by (by eapply lookup_lt_Some).
    replace (pre ++ v :: rest) with ((pre ++ [v]) ++ rest) in *
      by (by rewrite <- app_assoc).
    replace (S (length pre)) with (length (pre ++ [v]))
      by (rewrite length_app; cbn; lia).
    destruct (lt l v) eqn:Hlv.
    + apply IH; [done| | |].
      * by rewrite lookup_app_r, Nat.sub_diag by lia.
      * intros u [Hu| ->%list_elem_of_singleton]%elem_of_app; [|auto].
        destruct (lt v u) eqn:Hvu; [|done].
        rewrite <- (Hmax u Hu). symmetry. by apply (Htrans l v u); auto.
      * intros j u Hj Hu. rewrite lookup_app_l in Hu by done.
        assert (Hu' : u ∈ pre) by (by eapply list_elem_of_lookup_2).
        destruct (Hco l u v) as [Hlu|Huv]; auto.
        by rewrite (Hmax u Hu') in Hlu.
    + apply IH; [done| | |].
      * by rewrite lookup_app_l.
      * intros u [Hu| ->%list_elem_of_singleton]%elem_of_app; auto.
      * intros j u Hj Hu. rewrite lookup_app_l in Hu by lia. eauto.
Qed.

(** On scores that are ordered, [max_element] returns the position of
    the first maximum. *)
Lemma max_element_first_maximum vals :
  vals ≠ [] → ordered_scores lt vals →
  first_maximum lt vals (max_element lt vals).
Proof.
  destruct vals as [|v rest]; [done|]. intros _ Hord.
  cbn [max_element].
  apply (max_element_from_first_maximum [v] rest 0%nat v); [done|done| |].
  - intros u ->%list_elem_of_singleton. destruct Hord as (Hirr & _).
    apply Hirr. left.
  - intros j u Hj. lia.
Qed.

End MaxElement.

(** ** Selection by UCB *)

Section ChildSelection.
Context {F : Type} `{FloatArith F} `{!FloatUCB F}.
Implicit Types (h : Heap F) (n m : Node F).

Lemma calcUCB_attached h a n c m :
  h !! a = Some n → h !! c = Some m → parent_ m = Some a →
  games_ m ≤ games_ n →
  calcUCB h c
  = Some (if games_ m =? 0 then f_INFINITY
          else f_add (mean_ m)
                 (f_mul f_M_SQRT2
                    (sqrtf (f_div (logf (f_of_size (games_ n)))
                                  (f_of_size (games_ m)))))).
Proof.
  intros Ha Hc Hp Hle. unfold calcUCB, EXPLORATION_CONST.
  rewrite Hc. cbn [mbind option_bind]. rewrite Hp. cbn [mbind option_bind].
  rewrite Ha. cbn [mbind option_bind].
  destruct (Z.leb_spec (games_ m) (games_ n)); [|lia]. cbn [negb].
  by destruct (games_ m =? 0).
Qed.

Lemma scores_exist h a n :
  h !! a = Some n → children_attached h a n →
  ∃ scores, mapM (calcUCB h) (children_ n) = Some scores.
Proof.
  intros Ha Hatt. apply mapM_is_Some_2, Forall_forall. intros c Hc.
  destruct (Hatt c Hc) as (m & Hm & Hp & Hle). cbn.
  by rewrite (calcUCB_attached h a n c m).
Qed.

Lemma getChildWithMaxUCB_unfold h a n scores :
  h !! a = Some n → children_ n ≠ [] →
  mapM (calcUCB h) (children_ n) = Some scores →
  getChildWithMaxUCB h a = children_ n !! max_element f_lt scores.
Proof.
  intros Ha Hne Hscores. unfold getChildWithMaxUCB, getChildWithMaxValue.
  rewrite Ha. cbn [mbind option_bind].
  rewrite bool_decide_eq_false_2 by done.
  by rewrite Hscores.
Qed.

(** C6. On a node with children, all of them attached, [selectByUCB]
    ([getChildWithMaxUCB]) returns one of the children. The score of a
    child is [INFINITY] without visits and
    [mean_ + EXPLORATION_CONST * sqrtf(logf(parent games_) / games_)]
    otherwise, with [EXPLORATION_CONST = (float)M_SQRT2]. If some child
    has no visit, the first such child is returned, as soon as nothing
    is above [INFINITY] and the scores of the visited children are below
    it. If every child has been visited and [<] orders the scores, the
    child returned has a maximal score and every child before it has a
    smaller one. *)
Theorem getChildWithMaxUCB_spec h a n :
  h !! a = Some n → children_ n ≠ [] → children_attached h a n →
  ∃ i c scores,
    getChildWithMaxUCB h a = Some c ∧
    children_ n !! i = Some c ∧
    mapM (calcUCB h) (children_ n) = Some scores ∧
    (∀ c' m, c' ∈ children_ n → h !! c' = Some m →
       calcUCB h c'
       = Some (if games_ m =? 0 then f_INFINITY
               else f_add (mean_ m)
                      (f_mul f_M_SQRT2
                         (sqrtf (f_div (logf (f_of_size (games_ n)))
                                       (f_of_size (games_ m))))))) ∧
    ((∀ x, x ∈ scores → f_lt f_INFINITY x = false) →
     (∀ c' x, c' ∈ children_ n → ¬ unvisited h c' →
              calcUCB h c' = Some x → f_lt x f_INFINITY = true) →
     (∃ c', c' ∈ children_ n ∧ unvisited h c') →
     unvisited h c ∧
     (∀ j c', (j < i)%nat → children_ n !! j = Some c' →
              ¬ unvisited h c')) ∧
    ((∀ c', c' ∈ children_ n → ¬ unvisited h c') →
     ordered_scores f_lt scores →
     first_maximum f_lt scores i).
Proof.
  intros Ha Hne Hatt.
  destruct (scores_exist h a n Ha Hatt) as [scores Hscores].
  pose proof (mapM_Some_1 _ _ _ Hscores) as Hall.
  pose proof (Forall2_length _ _ _ Hall) as Hlen.
  assert (Hne' : scores ≠ []).
  { intros ->. destruct (children_ n); [done|discriminate Hlen]. }
  pose proof (max_element_lt f_lt scores Hne') as Hrange.
  destruct (lookup_lt_is_Some_2 (children_ n) (max_element f_lt scores))
    as [c Hc]; [lia|].
  assert (Hformula : ∀ c' m, c' ∈ children_ n → h !! c' = Some m →
     calcUCB h c'
     = Some (if games_ m =? 0 then f_INFINITY
             else f_add (mean_ m)
                    (f_mul f_M_SQRT2
                       (sqrtf (f_div (logf (f_of_size (games_ n)))
                                     (f_of_size (games_ m))))))).
  { intros c' m Hc' Hm. destruct (Hatt c' Hc') as (m' & Hm' & Hp & Hle).
    simplify_eq. by apply (calcUCB_attached h a n c' m). }
  exists (max_element f_lt scores), c, scores.
  split_and!; [|done|done|done| |].
  - by rewrite (getChildWithMaxUCB_unfold h a n scores).
  - intros Hinf Hfin (c0 & Hc0 & Hun0).
    destruct (list_find_elem_of (unvisited h) (children_ n) c0 Hc0 Hun0)
      as [[k c1] Hfind].
    apply list_find_Some in Hfind as (Hk & Hun1 & Hbefore).
    assert (Htop : scores !! k = Some f_INFINITY).
    { destruct (Forall2_lookup_l _ _ _ k c1 Hall Hk) as (x & Hx & Hcalc).
      rewrite Hx. rewrite <- Hcalc.
      unfold unvisited in Hun1.
      destruct (h !! c1) as [m|] eqn:Hm; [|done]. injection Hun1 as Hg.
      rewrite (Hformula c1 m) by (by eapply list_elem_of_lookup_2 || done).
      by rewrite Hg. }
    assert (Hmax : max_element f_lt scores = k).
    { apply (max_element_top f_lt scores f_INFINITY k); [done| |done].
      intros j x Hj Hx.
      destruct (Forall2_lookup_r _ _ _ j x Hall Hx) as (cj & Hcj & Hcalc).
      apply (Hfin cj); [by eapply list_elem_of_lookup_2| |done].
      by apply (Hbefore j). }
    rewrite Hmax in *. simplify_eq. split; [done|].
    intros j c' Hj Hc'. by apply (Hbefore j).
  - intros _ Hord. by apply max_element_first_maximum.
Qed.

End ChildSelection.

(** ** Selection on the example trees *)

Lemma SFltb_above_infinity x : SFltb (S754_infinity false) x = false.
Proof. by destruct x as [[]|[]| |[] ? ?]. Qed.

Lemma endgame_tree_root_attached n :
  endgame_tree !! 0%nat = Some n → children_attached endgame_tree 0 n.
Proof.
  intros [= <-] c Hc. cbn in Hc.
  apply elem_of_cons in Hc as [->|Hc];
    [|apply elem_of_cons in Hc as [->|Hc]; [|by apply elem_of_nil in Hc]];
    eexists; (split; [reflexivity|]); by split.
Qed.

Lemma endgame_tree_both_root_attached n :
  endgame_tree_both !! 0%nat = Some n →
  children_attached endgame_tree_both 0 n.
Proof.
  intros [= <-] c Hc. cbn in Hc.
  apply elem_of_cons in Hc as [->|Hc];
    [|apply elem_of_cons in Hc as [->|Hc]; [|by apply elem_of_nil in Hc]];
    eexists; (split; [reflexivity|]); by split.
Qed.

Lemma endgame_tree_score_1 :
  calcUCB (FloatUCB0 := example_ucb) endgame_tree 1
  = Some (S754_finite false 8870576 (-22)).
Proof. by vm_compute. Qed.

Lemma endgame_tree_both_scores :
  mapM (calcUCB (FloatUCB0 := example_ucb) endgame_tree_both) [1; 2]%nat
  = Some [S754_finite false 10149392 (-22);
          S754_finite false 10346000 (-22)].
Proof. by vm_compute. Qed.

Lemma endgame_tree_both_ordered :
  ordered_scores SFltb [S754_finite false 10149392 (-22);
                        S754_finite false 10346000 (-22)].
Proof.
  split_and!.
  - intros x Hx.
    repeat (apply elem_of_cons in Hx as [->|Hx]; [reflexivity|]).
    by apply elem_of_nil in Hx.
  - intros x y z Hx Hy Hz.
    repeat (apply elem_of_cons in Hx as [->|Hx]);
      try (by apply elem_of_nil in Hx);
      repeat (apply elem_of_cons in Hy as [->|Hy]);
      try (by apply elem_of_nil in Hy);
      repeat (apply elem_of_cons in Hz as [->|Hz]);
      try (by apply elem_of_nil in Hz);
      by vm_compute.
  - intros x y z Hx Hy Hz.
    repeat (apply elem_of_cons in Hx as [->|Hx]);
      try (by apply elem_of_nil in Hx);
      repeat (apply elem_of_cons in Hy as [->|Hy]);
      try (by apply elem_of_nil in Hy);
      repeat (apply elem_of_cons in Hz as [->|Hz]);
      try (by apply elem_of_nil in Hz);
      vm_compute; first [by intros [=]|by left|by right].
Qed.

Lemma endgame_tree_unvisited_2 : unvisited endgame_tree 2.
Proof. by vm_compute. Qed.

Lemma endgame_tree_both_visited c :
  c ∈ [1; 2]%nat → ¬ unvisited endgame_tree_both c.
Proof.
  intros Hc.
  apply elem_of_cons in Hc as [->|Hc]; [by vm_compute|].
  apply elem_of_cons in Hc as [->|Hc]; [by vm_compute|].
  by apply elem_of_nil in Hc.
Qed.

Lemma getChildWithMaxUCB_spec_witness :
  (∃ c, getChildWithMaxUCB (FloatUCB0 := example_ucb) endgame_tree 0 = Some c
        ∧ unvisited endgame_tree c) ∧
  (∃ i c scores,
      getChildWithMaxUCB (FloatUCB0 := example_ucb) endgame_tree_both 0
      = Some c ∧
      mapM (calcUCB (FloatUCB0 := example_ucb) endgame_tree_both) [1; 2]%nat
      = Some scores ∧
      [1; 2]%nat !! i = Some c ∧
      first_maximum SFltb scores i).
Proof.
  split.
  - edestruct (getChildWithMaxUCB_spec (FloatUCB0 := example_ucb)
                 endgame_tree 0)
      as (i & c & scores & Hsel & Hi & Hscores & _ & Hfirst & _).
    + reflexivity.
    + discriminate.
    + by apply endgame_tree_root_attached.
    + exists c. split; [exact Hsel|]. apply Hfirst.
      * intros x _. apply SFltb_above_infinity.
      * intros c' x Hc' Hvis Hx.
        apply elem_of_cons in Hc' as [->|Hc'].
        { assert (Hy := eq_trans (eq_sym Hx) endgame_tree_score_1).
          injection Hy as ->. reflexivity. }
        apply elem_of_cons in Hc' as [->|Hc'];
          [|destruct (proj1 (elem_of_nil _) Hc')].
        destruct Hvis. apply endgame_tree_unvisited_2.
      * exists 2%nat. split; [right; left|apply endgame_tree_unvisited_2].
  - edestruct (getChildWithMaxUCB_spec (FloatUCB0 := example_ucb)
                 endgame_tree_both 0)
      as (i & c & scores & Hsel & Hi & Hscores & _ & _ & Hmax).
    + reflexivity.
    + discriminate.
    + by apply endgame_tree_both_root_attached.
    + exists i, c, scores. split_and!; [exact Hsel|exact Hscores|exact Hi|].
      apply Hmax.
      * apply endgame_tree_both_visited.
      * assert (Hy := eq_trans (eq_sym Hscores) endgame_tree_both_scores).
        injection Hy as ->. apply endgame_tree_both_ordered.
Defined.

(** * More about boards *)

(** ** Printing and parsing *)

Lemma parseCell_typeToChar c : parseCell (typeToChar c) = Some c.
Proof. by destruct c. Qed.

Lemma mapM_parseCell_typeToChar (b : Board) :
  mapM parseCell (typeToChar <$> b) = Some b.
Proof. apply mapM_fmap_Some, parseCell_typeToChar. Qed.

Lemma Board_of_string_parsed cells0 (str : list ascii) b :
  length cells0 = 64%nat → length str = 64%nat →
  mapM parseCell str = Some b →
  Board_of_string cells0 (string_of_list_ascii str) = Some b.
Proof.
  intros Hc Hs Hp. unfold Board_of_string.
  rewrite list_ascii_of_string_of_list_ascii.
  pose proof (Board_fill_spec cells0 0 str b Hp) as Hf.
  rewrite Hs, Hc in Hf. change (Z.of_nat 0) with 0 in Hf.
  rewrite Hf by (vm_compute; done || lia). cbn.
  assert (length b = 64%nat) as Hb
    by (apply length_mapM in Hp; congruence).
  rewrite (drop_ge cells0 64) by lia.
  by rewrite app_nil_r.
Qed.

Lemma print_layout (b : Board) :
  length b = 64%nat →
  ∃ out, print b = Some out ∧ length out = 110%nat ∧
         printed_cells out = typeToChar <$> b ∧
         take 11 out = list_ascii_of_string "  abcdefgh" ++ [endl] ∧
         (∀ y, 0 ≤ y < 8 → row_label out y = Some (ascii_of_N (Z.to_N (49 + y)))).
Proof.
  intros Hlen.
  do 64 (destruct b as [|? b]; [done|]). destruct b; [|done].
  eexists. split; [vm_compute; reflexivity|].
  split; [done|]. split; [done|]. split; [done|].
  intros y Hy.
  assert (y = 0 ∨ y = 1 ∨ y = 2 ∨ y = 3 ∨ y = 4 ∨ y = 5 ∨ y = 6 ∨ y = 7)
    as Hc by lia.
  destruct_or!; subst y; reflexivity.
Qed.

(** X1. What [print] shows can be read back: the eight cell characters of
    the eight row lines of its output, given to the constructor
    [Board(const std::string&)], rebuild the board that was printed,
    whatever the array held before. *)
Theorem print_parse_round_trip (b cells0 : Board) :
  length b = 64%nat → length cells0 = 64%nat →
  ∃ out, print b = Some out ∧ length out = 110%nat ∧
         Board_of_string cells0 (string_of_list_ascii (printed_cells out))
         = Some b.
Proof.
  intros Hb Hc.
  destruct (print_layout b Hb) as (out & Hp & Hl & Hcells & _).
  exists out. split_and!; [done..|].
  rewrite Hcells. apply Board_of_string_parsed; [done| |].
  - by rewrite length_fmap.
  - apply mapM_parseCell_typeToChar.
Qed.

Lemma print_parse_round_trip_witness :
  ∃ out, print initial_board = Some out ∧ length out = 110%nat ∧
         Board_of_string (replicate 64 WHITE)
                         (string_of_list_ascii (printed_cells out))
         = Some initial_board.
Proof. apply print_parse_round_trip; reflexivity. Defined.

(** ** The constructor *)

Lemma Board_fill_unparsed cells idx str :
  mapM parseCell str = None → Board_fill cells idx str = None.
Proof.
  revert cells idx. induction str as [|chr rest IH]; intros cells idx Hp.
  - done.
  - cbn in Hp |- *. destruct (parseCell chr) as [c|]; [|done]. cbn in Hp |- *.
    destruct (cells_set cells idx c) as [cells'|]; [|done]. cbn.
    apply IH. by destruct (mapM parseCell rest).
Qed.

Lemma Board_fill_overflow cells idx str :
  (idx ≤ length cells)%nat → (length cells < idx + length str)%nat →
  Z.of_nat (length cells) < 2 ^ 64 →
  Board_fill cells (Z.of_nat idx) str = None.
Proof.
  revert cells idx. induction str as [|chr rest IH]; intros cells idx Hi Hl Hc.
  - cbn in Hl. lia.
  - cbn [Board_fill]. destruct (parseCell chr) as [c|]; [|done].
    cbn [mbind option_bind]. unfold cells_set.
    rewrite Nat2Z.id. destruct (decide (idx < length cells)%nat); [|done].
    cbn [mbind option_bind].
    rewrite to_size_t_small by lia.
    replace (Z.of_nat idx + 1) with (Z.of_nat (S idx)) by lia.
    apply IH; rewrite ?length_insert; cbn in Hl; lia.
Qed.

(** X2. The constructor [Board(const std::string&)] accepts exactly the
    strings of 64 cell characters, and the board it builds is the list of
    the parsed characters: nothing of the array's earlier contents is
    left. A shorter string fails the final assertion, a longer one makes
    [at] throw, a foreign character fails [parseCell]. *)
Theorem Board_of_string_accepts (cells0 : Board) (str : string) (b : Board) :
  length cells0 = 64%nat →
  Board_of_string cells0 str = Some b
  ↔ String.length str = 64%nat ∧
    mapM parseCell (list_ascii_of_string str) = Some b.
Proof.
  intros Hc. unfold Board_of_string.
  assert (length (list_ascii_of_string str) = String.length str) as Hlen.
  { clear. induction str; cbn; congruence. }
  destruct (mapM parseCell (list_ascii_of_string str)) as [parsed|] eqn:Hp.
  - destruct (decide (length (list_ascii_of_string str) ≤ 64)%nat) as [Hle|Hgt].
    + pose proof (Board_fill_spec cells0 0 _ parsed Hp) as Hf.
      change (Z.of_nat 0) with 0 in Hf.
      rewrite Hf by (rewrite ?Hc; cbn; lia). cbn [mbind option_bind].
      rewrite BOARD_CELLS_eq, take_0, app_nil_l.
      destruct (Z.eqb_spec (Z.of_nat (0 + length (list_ascii_of_string str))) 64)
        as [He|Hne].
      * cbn in He. rewrite drop_ge by (cbn; lia). rewrite app_nil_r.
        split; [intros [= <-]; split; [lia|done] | by intros [_ ->]].
      * cbn in Hne. split; [done|]. intros [? _]. lia.
    + rewrite (Board_fill_overflow cells0 0) by (rewrite ?Hc; cbn; lia).
      cbn. split; [done|]. intros [? _]. lia.
  - rewrite Board_fill_unparsed by done. cbn. split; [done|]. by intros [_ ?].
Qed.

Lemma Board_of_string_accepts_witness :
  Board_of_string (replicate 64 BLACK) INITIAL_BOARD = Some initial_board
  ↔ String.length INITIAL_BOARD = 64%nat ∧
    mapM parseCell (list_ascii_of_string INITIAL_BOARD) = Some initial_board.
Proof. apply Board_of_string_accepts. reflexivity. Defined.

(** ** Reading a move *)

Lemma move_x_column c :
  bool_decide (move_x c < 8)
  = bool_decide (97 ≤ code c ≤ 104 ∨ 65 ≤ code c ≤ 72).
Proof. destruct c as [[] [] [] [] [] [] [] []]; reflexivity. Qed.

Lemma move_y_row c :
  bool_decide (move_y c < 8) = bool_decide (49 ≤ code c ≤ 56).
Proof. destruct c as [[] [] [] [] [] [] [] []]; reflexivity. Qed.

Lemma move_x_range c : 0 ≤ move_x c < 2 ^ 64.
Proof. apply to_size_t_range. Qed.

Lemma move_y_range c : 0 ≤ move_y c < 2 ^ 64.
Proof. apply to_size_t_range. Qed.

Lemma move_on_board c0 c1 :
  is_notation c0 c1 ↔ move_x c0 < 8 ∧ move_y c1 < 8.
Proof.
  unfold is_notation.
  pose proof (move_x_column c0) as Hx. pose proof (move_y_row c1) as Hy.
  split; intros [H0 H1].
  - split.
    + rewrite (bool_decide_eq_true_2 _ H0) in Hx. by apply bool_decide_eq_true in Hx.
    + rewrite (bool_decide_eq_true_2 _ H1) in Hy. by apply bool_decide_eq_true in Hy.
  - split.
    + rewrite (bool_decide_eq_true_2 _ H0) in Hx. symmetry in Hx.
      by apply bool_decide_eq_true in Hx.
    + rewrite (bool_decide_eq_true_2 _ H1) in Hy. symmetry in Hy.
      by apply bool_decide_eq_true in Hy.
Qed.

(** X3. The two characters [main] reads for a move address a cell of the
    board exactly when they are a column letter a-h, of either case, and a
    row digit 1-8; on any other pair of characters [put] refuses the move
    and leaves the board as it was. The letter and the digit that [print]
    shows for a cell read back as the coordinates of that cell. *)
Theorem read_move_notation (b : Board) :
  length b = 64%nat →
  (∀ c0 c1, is_notation c0 c1 ↔ on_board (move_x c0) (move_y c1)) ∧
  (∀ c0 c1, ¬ is_notation c0 c1 → read_move b c0 c1 = Some (false, b)) ∧
  ∃ out, print b = Some out ∧
    ∀ x y, on_board x y →
      ∃ c0 c1, column_label out x = Some c0 ∧ row_label out y = Some c1 ∧
               move_x c0 = x ∧ move_y c1 = y.
Proof.
  intros Hb. split_and!.
  - intros c0 c1. rewrite move_on_board. unfold on_board.
    pose proof (move_x_range c0). pose proof (move_y_range c1). lia.
  - intros c0 c1 Hn. unfold read_move.
    pose proof (move_x_range c0) as Hx. pose proof (move_y_range c1) as Hy.
    destruct (put_total b (move_x c0) (move_y c1) Hb Hx Hy) as [[r b'] Hput].
    rewrite Hput.
    destruct (put_frame _ _ _ _ _ Hx Hy Hput) as [(-> & -> & _)|(? & ? & _)];
      [done|].
    destruct Hn. by apply move_on_board.
  - destruct (print_layout b Hb) as (out & Hp & Hl & _ & Hhead & Hrow).
    exists out. split; [done|]. intros x y [Hx Hy].
    assert (column_label out x = Some (ascii_of_N (Z.to_N (97 + x)))) as Hcol.
    { unfold column_label.
      rewrite <- (lookup_take_lt out 11) by lia. rewrite Hhead.
      assert (x = 0 ∨ x = 1 ∨ x = 2 ∨ x = 3 ∨ x = 4 ∨ x = 5 ∨ x = 6 ∨ x = 7)
        as Hc by lia.
      destruct_or!; subst x; reflexivity. }
    eexists _, _. split; [exact Hcol|]. split; [by apply Hrow|].
    assert (x = 0 ∨ x = 1 ∨ x = 2 ∨ x = 3 ∨ x = 4 ∨ x = 5 ∨ x = 6 ∨ x = 7)
      as Hcx by lia.
    assert (y = 0 ∨ y = 1 ∨ y = 2 ∨ y = 3 ∨ y = 4 ∨ y = 5 ∨ y = 6 ∨ y = 7)
      as Hcy by lia.
    split; destruct_or!; subst; reflexivity.
Qed.

Lemma read_move_notation_witness :
  (∀ c0 c1, is_notation c0 c1 ↔ on_board (move_x c0) (move_y c1)) ∧
  (∀ c0 c1, ¬ is_notation c0 c1 →
            read_move initial_board c0 c1 = Some (false, initial_board)) ∧
  ∃ out, print initial_board = Some out ∧
    ∀ x y, on_board x y →
      ∃ c0 c1, column_label out x = Some c0 ∧ row_label out y = Some c1 ∧
               move_x c0 = x ∧ move_y c1 = y.
Proof. apply read_move_notation. reflexivity. Defined.

(** ** Counting cells *)

Lemma count_black_from (b : Board) acc :
  0 ≤ acc → acc + Z.of_nat (length b) < 2 ^ 64 →
  fold_left (fun black cell =>
               if decide (cell = BLACK) then to_size_t (black + 1) else black)
            b acc
  = acc + Z.of_nat (count_cells BLACK b).
Proof.
  revert acc. induction b as [|c b IH]; intros acc H0 Hlt.
  - cbn. lia.
  - cbn [fold_left]. unfold count_cells in *. rewrite filter_cons.
    cbn [length] in Hlt.
    destruct (decide (c = BLACK)) as [->|Hc].
    + rewrite to_size_t_small by lia. rewrite IH by lia. cbn [length]. lia.
    + rewrite IH by lia. lia.
Qed.

Lemma count_black_cells (b : Board) :
  Z.of_nat (length b) < 2 ^ 64 →
  count_black b = Z.of_nat (count_cells BLACK b).
Proof. intros. unfold count_black. rewrite count_black_from; lia. Qed.

Lemma count_cells_flipPlayer c (b : Board) :
  count_cells c (flipPlayer b) = count_cells (flip_cell c) b.
Proof.
  unfold count_cells, flipPlayer. induction b as [|c' b IH]; [done|].
  cbn [map]. rewrite !filter_cons.
  destruct (decide (flip_cell c' = c)) as [<-|Hne].
  - rewrite flip_cell_involutive in *. rewrite decide_True by done.
    cbn [length]. by rewrite IH.
  - rewrite decide_False; [done|]. intros ->.
    by rewrite flip_cell_involutive in Hne.
Qed.

Lemma count_cells_total (b : Board) :
  (count_cells BLACK b + count_cells WHITE b + count_empty b = length b)%nat.
Proof.
  unfold count_cells, count_empty. induction b as [|c b IH]; [done|].
  rewrite !filter_cons. cbn [length].
  destruct c; repeat case_decide; try done; cbn [length]; lia.
Qed.

Lemma isFilled_count_empty (b : Board) :
  isFilled b = true ↔ count_empty b = 0%nat.
Proof.
  unfold isFilled, count_empty. induction b as [|c b IH]; [done|].
  cbn [forallb]. rewrite filter_cons, andb_true_iff, IH.
  destruct c; case_decide; try done; cbn; split; try done; try tauto;
    intros [? ?]; done.
Qed.

(** X4. The count of [getBlackOccupation] is the number of black cells, and
    after [flipPlayer] it is the number of cells that were white; with the
    empty cells these make up the 64 cells, and [isFilled] holds exactly
    when no cell is empty. So, in arithmetic without rounding, the
    occupation of a full board seen by the other player is one minus the
    occupation. *)
Theorem cell_census (b : Board) :
  length b = 64%nat →
  count_black b = Z.of_nat (count_cells BLACK b) ∧
  count_black (flipPlayer b) = Z.of_nat (count_cells WHITE b) ∧
  (count_cells BLACK b + count_cells WHITE b + count_empty b = 64)%nat ∧
  (isFilled b = true ↔ count_empty b = 0%nat) ∧
  (isFilled b = true →
   getBlackOccupation (F := Qc) (flipPlayer b)
   = (1 - getBlackOccupation (F := Qc) b)%Qc).
Proof.
  intros Hb.
  assert (count_black b = Z.of_nat (count_cells BLACK b)) as HB
    by (apply count_black_cells; lia).
  assert (count_black (flipPlayer b) = Z.of_nat (count_cells WHITE b)) as HW.
  { rewrite count_black_cells by (rewrite flipPlayer_length; lia).
    by rewrite count_cells_flipPlayer. }
  pose proof (count_cells_total b) as Htot. rewrite Hb in Htot.
  split_and!; [done..|apply isFilled_count_empty|].
  intros Hf. apply isFilled_count_empty in Hf.
  unfold getBlackOccupation. cbn [f_div f_of_size exact_arith].
  rewrite HB, HW, BOARD_CELLS_eq.
  replace (Z.of_nat (count_cells WHITE b))
    with (64 - Z.of_nat (count_cells BLACK b)) by lia.
  rewrite Z2Qc_inj_sub.
  assert (Qc_of_Z 64 ≠ 0%Qc) as H64.
  { rewrite <- Z2Qc_inj_0. intros Heq. by apply Z2Qc_inj in Heq. }
  field. exact H64.
Qed.

Lemma cell_census_witness :
  count_black (replicate 64 WHITE) = Z.of_nat (count_cells BLACK (replicate 64 WHITE)) ∧
  count_black (flipPlayer (replicate 64 WHITE))
  = Z.of_nat (count_cells WHITE (replicate 64 WHITE)) ∧
  (count_cells BLACK (replicate 64 WHITE) + count_cells WHITE (replicate 64 WHITE)
   + count_empty (replicate 64 WHITE) = 64)%nat ∧
  (isFilled (replicate 64 WHITE) = true ↔ count_empty (replicate 64 WHITE) = 0%nat) ∧
  (isFilled (replicate 64 WHITE) = true →
   getBlackOccupation (F := Qc) (flipPlayer (replicate 64 WHITE))
   = (1 - getBlackOccupation (F := Qc) (replicate 64 WHITE))%Qc).
Proof. apply cell_census. reflexivity. Defined.

(** ** Drawing an index *)

Section RandomIndex.
Context {R : Type} `{RandomEngine R}.

(** X5. [randomIndex(n)] fails its assertion for [n = 0], returns 0 for
    [n = 1] without touching the engine, and otherwise draws an index
    below [n]: the index [playout] draws for a list of successor boards
    that is not empty always addresses one of them. *)
Theorem randomIndex_in_range (g : R) :
  randomIndex g 0 = None ∧
  randomIndex g 1 = Some (0, g) ∧
  (∀ n, 1 < n < 2 ^ 64 →
     ∃ idx g', randomIndex g n = Some (idx, g') ∧ 0 ≤ idx < n ∧
               (idx, g') = uniform_int g 0 (n - 1)) ∧
  (∀ (boards : list Board), boards ≠ [] → Z.of_nat (length boards) < 2 ^ 64 →
     ∃ idx g' next,
       randomIndex g (Z.of_nat (length boards)) = Some (idx, g') ∧
       boards !! Z.to_nat idx = Some next).
Proof.
  split_and!; [done..| |].
  - intros n Hn. unfold randomIndex.
    destruct (Z.ltb_spec 0 n); [|lia]. cbn [negb].
    destruct (Z.eqb_spec n 1); [lia|].
    rewrite to_size_t_small by lia.
    pose proof (uniform_int_range g 0 (n - 1) ltac:(lia)) as Hr.
    destruct (uniform_int g 0 (n - 1)) as [idx g'] eqn:Hu. cbn [fst] in Hr.
    exists idx, g'. split_and!; [done|lia..|done].
  - intros boards Hne Hlen.
    assert (0 < Z.of_nat (length boards) < 2 ^ 64) as Hk.
    { destruct boards; [done|]. cbn [length] in *. lia. }
    destruct (randomIndex_range g _ Hk) as (idx & g' & Hr & Hi).
    destruct (lookup_lt_is_Some_2 boards (Z.to_nat idx)) as [next Hnext];
      [lia|].
    by exists idx, g', next.
Qed.

End RandomIndex.

(** ** The most visited child *)

Lemma ordered_scores_Zltb (vals : list Z) : ordered_scores Z.ltb vals.
Proof.
  split_and!.
  - intros a _. apply Z.ltb_irrefl.
  - intros a b c _ _ _ Hab Hbc. apply Z.ltb_lt in Hab, Hbc. apply Z.ltb_lt. lia.
  - intros a b c _ _ _ Hac. apply Z.ltb_lt in Hac.
    destruct (Z.ltb_spec a b); [by left|]. right. apply Z.ltb_lt. lia.
Qed.

Section MaxVisits.
Context {F : Type} `{FloatArith F}.

(** X6. [getChildWithMaxVisits] fails its assertion on a node without
    children; on a node whose children are all in the store it returns
    one of them, no other child has more visits, and every child before
    it in the list has strictly fewer: ties go to the earliest child. *)
Theorem getChildWithMaxVisits_spec (h : Heap F) (a : nat) (n : Node F) :
  h !! a = Some n →
  (children_ n = [] → getChildWithMaxVisits h a = None) ∧
  (children_ n ≠ [] →
   (∀ c, c ∈ children_ n → is_Some (h !! c)) →
   ∃ i c m,
     getChildWithMaxVisits h a = Some c ∧
     children_ n !! i = Some c ∧ h !! c = Some m ∧
     (∀ c' m', c' ∈ children_ n → h !! c' = Some m' →
               games_ m' ≤ games_ m) ∧
     (∀ j c' m', (j < i)%nat → children_ n !! j = Some c' →
                 h !! c' = Some m' → games_ m' < games_ m)).
Proof.
  intros Ha. unfold getChildWithMaxVisits, getChildWithMaxValue.
  rewrite Ha. cbn [mbind option_bind]. split.
  - intros ->. by rewrite bool_decide_eq_true_2.
  - intros Hne Hall. rewrite bool_decide_eq_false_2 by done.
    set (eval := fun c : nat => h !! c ≫= fun n0 : Node F => Some (games_ n0)).
    destruct (mapM eval (children_ n)) as [values|] eqn:Hm.
    2:{ exfalso. assert (is_Some (mapM eval (children_ n))) as [? ?]; [|congruence].
        apply mapM_is_Some, Forall_forall. intros c Hc.
        destruct (Hall c Hc) as [m Hm']. unfold eval, compose. rewrite Hm'. by eexists. }
    cbn [mbind option_bind].
    pose proof (length_mapM _ _ _ Hm) as Hlen.
    apply mapM_Some in Hm.
    assert (values ≠ []) as Hvne.
    { intros ->. destruct (children_ n); [done|]. cbn in Hlen. lia. }
    destruct (max_element_first_maximum Z.ltb values Hvne
                (ordered_scores_Zltb values)) as (top & Htop & Hmax & Hfirst).
    set (i := max_element Z.ltb values) in *.
    destruct (Forall2_lookup_r _ _ _ _ _ Hm Htop) as (c & Hc & Hev).
    unfold eval in Hev. destruct (h !! c) as [m|] eqn:Hhc; [|done].
    cbn in Hev. injection Hev as Hgm.
    exists i, c, m. split_and!; [done..| |].
    + intros c' m' Hc' Hm'.
      apply list_elem_of_lookup in Hc' as [j Hj].
      destruct (Forall2_lookup_l _ _ _ _ _ Hm Hj) as (v & Hv & Hev').
      unfold eval in Hev'. rewrite Hm' in Hev'. cbn in Hev'. injection Hev' as <-.
      assert ((top <? games_ m') = false) as Hlt
        by (apply Hmax; by eapply list_elem_of_lookup_2).
      apply Z.ltb_ge in Hlt. lia.
    + intros j c' m' Hj Hc' Hm'.
      destruct (Forall2_lookup_l _ _ _ _ _ Hm Hc') as (v & Hv & Hev').
      unfold eval in Hev'. rewrite Hm' in Hev'. cbn in Hev'. injection Hev' as <-.
      pose proof (Hfirst j _ Hj Hv) as Hlt. apply Z.ltb_lt in Hlt. lia.
Qed.

End MaxVisits.

Lemma getChildWithMaxVisits_spec_witness :
  ∃ i c m,
    getChildWithMaxVisits endgame_tree_both 0 = Some c ∧
    [1; 2]%nat !! i = Some c ∧ endgame_tree_both !! c = Some m ∧
    (∀ c' m', c' ∈ [1; 2]%nat → endgame_tree_both !! c' = Some m' →
              games_ m' ≤ games_ m) ∧
    (∀ j c' m', (j < i)%nat → [1; 2]%nat !! j = Some c' →
                endgame_tree_both !! c' = Some m' → games_ m' < games_ m).
Proof.
  refine (proj2 (getChildWithMaxVisits_spec endgame_tree_both 0 _ eq_refl) _ _).
  - discriminate.
  - intros c Hc. cbn in Hc.
    apply elem_of_cons in Hc as [->|Hc]; [by eexists|].
    apply elem_of_cons in Hc as [->|Hc]; [by eexists|].
    destruct (proj1 (elem_of_nil _) Hc).
Defined.

(** * The rule of the game *)

(** ** The loops of [put] *)

Lemma for_each_app {S A} (body : A → S → option S) l1 l2 st :
  for_each body (l1 ++ l2) st = for_each body l1 st ≫= for_each body l2.
Proof.
  revert st. induction l1 as [|a l1 IH]; intros st; [done|].
  cbn. destruct (body a st); [apply IH|done].
Qed.

Lemma for_each_pairs {S A B} (body : A → B → S → option S) a l2 st :
  for_each (fun p => body p.1 p.2) (b ← l2; [(a, b)]) st
  = for_each (body a) l2 st.
Proof.
  revert st. induction l2 as [|b l2 IH]; intros st; [done|].
  cbn. destruct (body a b st); [apply IH|done].
Qed.

Lemma for_each_nested {S A B} (body : A → B → S → option S) l1 l2 st :
  for_each (fun a => for_each (body a) l2) l1 st
  = for_each (fun p => body p.1 p.2) (a ← l1; b ← l2; [(a, b)]) st.
Proof.
  revert st. induction l1 as [|a l1 IH]; intros st; [done|].
  rewrite bind_cons, for_each_app, for_each_pairs. cbn [for_each].
  destruct (for_each (body a) l2 st); [apply IH|done].
Qed.

Lemma for_each_prefix {S A} (P : list A → S → Prop)
      (body : A → S → option S) l st :
  (∀ pre a post s, l = pre ++ a :: post → P pre s →
                   ∃ s', body a s = Some s' ∧ P (pre ++ [a]) s') →
  P [] st → ∃ st', for_each body l st = Some st' ∧ P l st'.
Proof.
  intros Hstep.
  enough (∀ rest pre s, l = pre ++ rest → P pre s →
                        ∃ s', for_each body rest s = Some s' ∧ P l s') as Hgen
    by (intros; by apply (Hgen l [] st)).
  induction rest as [|a rest IH]; intros pre s Heq HP.
  - rewrite app_nil_r in Heq. subst pre. by exists s.
  - destruct (Hstep pre a rest s Heq HP) as (s1 & Hb & HP1).
    cbn [for_each]. rewrite Hb. cbn [mbind option_bind].
    apply (IH (pre ++ [a])); [by rewrite <- app_assoc|done].
Qed.

Lemma DIRECTIONS_NoDup : NoDup DIRECTIONS.
Proof. apply (bool_decide_unpack _). by vm_compute. Qed.

Lemma DIRECTIONS_range dx dy :
  (dx, dy) ∈ DIRECTIONS ↔ -1 ≤ dx ≤ 1 ∧ -1 ≤ dy ≤ 1.
Proof.
  unfold DIRECTIONS, DELTAS. cbn. rewrite !elem_of_cons, elem_of_nil.
  split.
  - intros Hin. destruct_or!; try done; injection Hin as -> ->; lia.
  - intros [Hx Hy].
    assert (dx = -1 ∨ dx = 0 ∨ dx = 1) as Hdx by lia.
    assert (dy = -1 ∨ dy = 0 ∨ dy = 1) as Hdy by lia.
    destruct_or!; subst; tauto.
Qed.

(** ** Rays *)

Lemma pos_of_inj x y x' y' :
  on_board x y → on_board x' y' → pos_of x y = pos_of x' y' →
  x = x' ∧ y = y'.
Proof. unfold on_board, pos_of. lia. Qed.

(** Two different directions meet at the cell of the move only. *)
Lemma ray_disjoint dx dy dx' dy' i j :
  is_direction dx dy → is_direction dx' dy' → 1 ≤ i → 1 ≤ j →
  i * dx = j * dx' → i * dy = j * dy' → dx = dx' ∧ dy = dy'.
Proof.
  unfold is_direction. intros (Hx & Hy & Hd) (Hx' & Hy' & Hd') Hi Hj.
  assert (dx = -1 ∨ dx = 0 ∨ dx = 1) as Hdx by lia.
  assert (dy = -1 ∨ dy = 0 ∨ dy = 1) as Hdy by lia.
  assert (dx' = -1 ∨ dx' = 0 ∨ dx' = 1) as Hdx' by lia.
  assert (dy' = -1 ∨ dy' = 0 ∨ dy' = 1) as Hdy' by lia.
  destruct_or!; subst; lia.
Qed.

Lemma flipped_by_within b x y k :
  flipped_by b x y k ↔ flipped_within DIRECTIONS b x y k.
Proof.
  split.
  - intros (dx & dy & n & i & Hd & Hrun & Hi & ->).
    exists dx, dy, n, i. split; [|done].
    apply DIRECTIONS_range. unfold is_direction in Hd. lia.
  - intros (dx & dy & n & i & _ & Hd & Hrun & Hi & ->).
    by exists dx, dy, n, i.
Qed.

(** A cell of a ray that is not done yet is as it was before the move. *)
Lemma put_inv_ray b x y D cur v dx dy i :
  put_inv b x y D (cur, v) → on_board x y →
  (dx, dy) ∉ D → is_direction dx dy → 1 ≤ i →
  on_board (x + i * dx) (y + i * dy) →
  cur !! pos_of (x + i * dx) (y + i * dy)
  = b !! pos_of (x + i * dx) (y + i * dy).
Proof.
  intros (_ & _ & _ & Hrest & _) Hxy Hnin Hd Hi Hon. apply Hrest.
  - intros Heq. apply pos_of_inj in Heq as [Hx Hy]; [|done..].
    unfold is_direction in Hd. nia.
  - intros (dx' & dy' & n & j & Hin & Hd' & (Hn & Hrun & _) & Hj & Heq).
    destruct (Hrun j Hj) as [Hon' _].
    apply pos_of_inj in Heq as [Hx Hy]; [|done..].
    destruct (ray_disjoint dx dy dx' dy' i j) as [-> ->]; [done|done|lia..|].
    done.
Qed.

(** What the scan of a direction that is not done yet finds, read on the
    board before the move. *)
Lemma put_inv_scan b x y D cur v dx dy :
  put_inv b x y D (cur, v) → on_board x y →
  (dx, dy) ∉ D → is_direction dx dy →
  ∃ n bf, scan_run RUN_FUEL cur x y dx dy 1 = Some (n, bf) ∧
    1 ≤ n ≤ 8 ∧
    (∀ i, 1 ≤ i < n →
       on_board (x + i * dx) (y + i * dy) ∧
       b !! pos_of (x + i * dx) (y + i * dy) = Some WHITE) ∧
    (if bf : bool
     then on_board (x + n * dx) (y + n * dy) ∧
          b !! pos_of (x + n * dx) (y + n * dy) = Some BLACK
     else ¬ on_board (x + n * dx) (y + n * dy) ∨
          b !! pos_of (x + n * dx) (y + n * dy) = Some EMPTY).
Proof.
  intros Hinv Hxy Hnin Hd.
  pose proof Hinv as (Hlen & _). cbn [fst] in Hlen.
  pose proof Hd as (Hdx & Hdy & Hnz). pose proof Hxy as [Hx Hy].
  destruct (scan_run_total cur x y dx dy RUN_FUEL 1) as [[n bf] Hscan];
    [done..|lia|done|].
  exists n, bf. split; [done|].
  destruct (scan_run_stop RUN_FUEL cur x y dx dy 1 n bf Hxy Hd
              ltac:(lia) ltac:(unfold RUN_FUEL; lia) Hscan) as (Hn & Hwhite & Hstop).
  split; [lia|]. split.
  - intros i Hi. destruct (Hwhite i Hi) as [Hon Hw]. split; [done|].
    rewrite <- Hw. symmetry. eapply put_inv_ray; [done..|lia|done].
  - destruct bf.
    + destruct Hstop as [Hon Hb]. split; [done|].
      rewrite <- Hb. symmetry. eapply put_inv_ray; [done..|lia|done].
    + destruct Hstop as [Hoff|He]; [by left|].
      destruct (decide (on_board (x + n * dx) (y + n * dy))) as [Hon|Hoff];
        [|by left].
      right. rewrite <- He. symmetry. eapply put_inv_ray; [done..|lia|done].
Qed.

(** The scan stops right after the captured run, if there is one. *)
Lemma scan_captured_run b x y dx dy n (bf : bool) m :
  1 ≤ n →
  (∀ i, 1 ≤ i < n →
     on_board (x + i * dx) (y + i * dy) ∧
     b !! pos_of (x + i * dx) (y + i * dy) = Some WHITE) →
  (if bf
   then on_board (x + n * dx) (y + n * dy) ∧
        b !! pos_of (x + n * dx) (y + n * dy) = Some BLACK
   else ¬ on_board (x + n * dx) (y + n * dy) ∨
        b !! pos_of (x + n * dx) (y + n * dy) = Some EMPTY) →
  captured_run b x y dx dy m → bf = true ∧ n = m + 1.
Proof.
  intros Hn Hwhite Hstop (Hm & Hrun & Hon & Hblack).
  assert (¬ n ≤ m) as Hgt.
  { intros Hle. destruct (Hrun n ltac:(lia)) as [Hon' Hw].
    destruct bf.
    - destruct Hstop as [_ Hb]. congruence.
    - destruct Hstop as [Hoff|He]; [done|congruence]. }
  assert (¬ m + 1 < n) as Hle.
  { intros Hlt. destruct (Hwhite (m + 1) ltac:(lia)) as [_ Hw]. congruence. }
  assert (n = m + 1) as -> by lia. split; [|done].
  destruct bf; [done|]. destruct Hstop as [Hoff|He]; [done|congruence].
Qed.

Lemma flip_run_spec fuel b x y dx dy i n b' :
  on_board x y → is_direction dx dy → 1 ≤ i → n ≤ 8 →
  (∀ j, i ≤ j < n → on_board (x + j * dx) (y + j * dy)) →
  flip_run fuel b x y dx dy i n = Some b' →
  length b' = length b ∧
  (∀ k, b !! k = Some BLACK → b' !! k = Some BLACK) ∧
  (∀ j, i ≤ j < n → b' !! pos_of (x + j * dx) (y + j * dy) = Some BLACK) ∧
  (∀ k, (∀ j, i ≤ j < n → k ≠ pos_of (x + j * dx) (y + j * dy)) →
        b' !! k = b !! k).
Proof.
  intros [Hx Hy] (Hdx & Hdy & Hnz) Hi Hn.
  revert b i Hi. induction fuel as [|fuel IH]; intros b i Hi Hon; [done|].
  cbn [flip_run]. destruct (Z.ltb_spec i n) as [Hlt|Hge].
  - destruct (Board_set b _ _ BLACK) as [b1|] eqn:Hset; [|done].
    cbn [mbind option_bind]. intros Hrun.
    apply cells_set_Some in Hset as [-> Hpos].
    change (Z.to_nat (cell_index (to_size_t (x + step_mul i dx))
                                 (to_size_t (y + step_mul i dy))))
      with (ray_pos x y dx dy i) in *.
    destruct (Hon i ltac:(lia)) as [Hxi Hyi].
    rewrite ray_pos_small in * by (done || lia).
    rewrite to_size_t_small in Hrun by lia.
    apply IH in Hrun as (Hlen & Hblack & Hrunb & Hrest);
      [|lia|intros j Hj; apply Hon; lia].
    rewrite length_insert in Hlen. split; [done|]. split_and!.
    + intros k Hk. apply Hblack.
      destruct (decide (k = pos_of (x + i * dx) (y + i * dy))) as [->|Hne].
      * by apply list_lookup_insert_eq.
      * by rewrite list_lookup_insert_ne.
    + intros j Hj. destruct (decide (j = i)) as [->|Hne].
      * apply Hblack. by apply list_lookup_insert_eq.
      * apply Hrunb. lia.
    + intros k Hk. rewrite Hrest by (intros j Hj; apply Hk; lia).
      apply list_lookup_insert_ne. symmetry. apply Hk. lia.
  - intros [= <-]. split_and!; [done|done| |done]. intros j Hj. lia.
Qed.

Lemma flipped_within_snoc D b x y dx dy k :
  flipped_within (D ++ [(dx, dy)]) b x y k
  ↔ flipped_within D b x y k ∨
    (is_direction dx dy ∧
     ∃ n i, captured_run b x y dx dy n ∧ 1 ≤ i ≤ n ∧
            k = pos_of (x + i * dx) (y + i * dy)).
Proof.
  unfold flipped_within. split.
  - intros (dx' & dy' & n & i & Hin & Hd & Hrun & Hi & Hk).
    apply elem_of_app in Hin as [Hin|Hin].
    + left. by exists dx', dy', n, i.
    + apply list_elem_of_singleton in Hin. injection Hin as -> ->.
      right. split; [done|]. by exists n, i.
  - intros [(dx' & dy' & n & i & Hin & Hrest)|(Hd & n & i & Hrest)].
    + exists dx', dy', n, i. split; [|done]. apply elem_of_app. by left.
    + exists dx, dy, n, i. split; [|done].
      apply elem_of_app. right. by apply list_elem_of_singleton.
Qed.

Lemma capturing_snoc D b x y dx dy :
  (∃ dx' dy', (dx', dy') ∈ D ++ [(dx, dy)] ∧ is_direction dx' dy' ∧
              captures b x y dx' dy')
  ↔ (∃ dx' dy', (dx', dy') ∈ D ∧ is_direction dx' dy' ∧
                captures b x y dx' dy')
    ∨ (is_direction dx dy ∧ captures b x y dx dy).
Proof.
  split.
  - intros (dx' & dy' & Hin & Hd & Hc).
    apply elem_of_app in Hin as [Hin|Hin].
    + left. by exists dx', dy'.
    + apply list_elem_of_singleton in Hin. injection Hin as -> ->. by right.
  - intros [(dx' & dy' & Hin & Hrest)|[Hd Hc]].
    + exists dx', dy'. split; [|done]. apply elem_of_app. by left.
    + exists dx, dy. split; [|done].
      apply elem_of_app. right. by apply list_elem_of_singleton.
Qed.

(** A direction that captures nothing leaves the state as it is. *)
Lemma put_inv_skip b x y D dx dy st :
  put_inv b x y D st →
  (is_direction dx dy → ¬ captures b x y dx dy) →
  put_inv b x y (D ++ [(dx, dy)]) st.
Proof.
  intros (Hlen & Horigin & Hflip & Hrest & Hvalid) Hnone.
  assert (∀ k, flipped_within (D ++ [(dx, dy)]) b x y k
               ↔ flipped_within D b x y k) as Hsame.
  { intros k. rewrite flipped_within_snoc. split; [|by left].
    intros [?|(Hd & n & i & Hrun & _)]; [done|].
    destruct (Hnone Hd). by exists n. }
  split_and!; [done|done| | |].
  - intros k Hk. apply Hflip. by apply Hsame.
  - intros k Hne Hk. apply Hrest; [done|]. by rewrite <- Hsame.
  - rewrite Hvalid, capturing_snoc. split; [by left|].
    intros [?|[Hd Hc]]; [done|]. by destruct (Hnone Hd).
Qed.

(** One iteration of the loops of [put]. *)
Lemma put_dir_step b x y D dx dy st :
  on_board x y → -1 ≤ dx ≤ 1 → -1 ≤ dy ≤ 1 → (dx, dy) ∉ D →
  put_inv b x y D st →
  ∃ st', put_dir x y dx dy st = Some st' ∧
         put_inv b x y (D ++ [(dx, dy)]) st'.
Proof.
  intros Hxy Hdx Hdy Hnin Hinv. unfold put_dir.
  destruct ((dx =? 0) && (dy =? 0)) eqn:Hzero.
  { exists st. split; [done|]. apply put_inv_skip; [done|].
    intros (_ & _ & Hnz). apply andb_true_iff in Hzero as [?%Z.eqb_eq ?%Z.eqb_eq].
    lia. }
  assert (is_direction dx dy) as Hd.
  { unfold is_direction.
    apply andb_false_iff in Hzero as [?%Z.eqb_neq|?%Z.eqb_neq]; lia. }
  destruct st as [cur v]. cbn [fst].
  destruct (put_inv_scan b x y D cur v dx dy Hinv Hxy Hnin Hd)
    as (n & bf & Hscan & Hn & Hwhite & Hstop).
  rewrite Hscan. cbn [mbind option_bind].
  destruct (bf && (1 <? n)) eqn:Hcond.
  - apply andb_true_iff in Hcond as [-> Hlt%Z.ltb_lt].
    destruct Hstop as [Hon Hblack].
    assert (captured_run b x y dx dy (n - 1)) as Hrun.
    { split_and!; [lia| |by replace (n - 1 + 1) with n by lia..].
      intros i Hi. apply Hwhite. lia. }
    pose proof Hinv as (Hlen & Horigin & Hflip & Hrest & Hvalid).
    cbn [fst snd] in *.
    destruct (flip_run_total 7 cur x y dx dy 1 n) as [cur' Hfr];
      [lia|lia|lia| |].
    { intros j Hj. destruct (Hwhite j Hj) as [[? ?] _].
      rewrite ray_pos_small by (done || lia || apply Hxy).
      rewrite Hlen. by apply pos_of_lt. }
    change (S 7) with RUN_FUEL in Hfr. rewrite Hfr. cbn [mbind option_bind].
    exists (cur', true). split; [done|].
    apply flip_run_spec in Hfr as (Hlen' & Hstay & Hrunb & Hother);
      [|done|done|lia|lia|intros j Hj; by apply Hwhite].
    split_and!; cbn [fst snd].
    + congruence.
    + by apply Hstay.
    + intros k [Hk|(_ & m & i & Hm & Hi & ->)]%flipped_within_snoc.
      * by apply Hstay, Hflip.
      * destruct (scan_captured_run b x y dx dy n true m) as [_ ->];
          [lia|done|done|done|].
        apply Hrunb. lia.
    + intros k Hne Hk. rewrite flipped_within_snoc in Hk.
      rewrite Hother.
      * apply Hrest; [done|]. intros Hf. apply Hk. by left.
      * intros j Hj ->. apply Hk. right. split; [done|].
        exists (n - 1), j. split; [done|]. split; [lia|done].
    + split; [intros _|done]. apply capturing_snoc. right.
      split; [done|]. by exists (n - 1).
  - exists (cur, v). split; [done|]. apply put_inv_skip; [done|].
    intros _ [m Hm].
    destruct (scan_captured_run b x y dx dy n bf m) as [-> ->];
      [lia|done|done|done|].
    destruct Hm as [Hm _]. cbn in Hcond.
    destruct (Z.ltb_spec 1 (m + 1)); [done|lia].
Qed.

(** [put] on a free cell of the board: the result, and what the board
    is afterwards. *)
Lemma put_free_cell b x y :
  length b = 64%nat → on_board x y → b !! pos_of x y = Some EMPTY →
  ∃ r b', put b x y = Some (r, b') ∧
    (r = true ↔ ∃ dx dy, is_direction dx dy ∧ captures b x y dx dy) ∧
    length b' = 64%nat ∧
    b' !! pos_of x y = Some BLACK ∧
    (∀ k, flipped_by b x y k → b' !! k = Some BLACK) ∧
    (∀ k, k ≠ pos_of x y → ¬ flipped_by b x y k → b' !! k = b !! k).
Proof.
  intros Hlen Hxy Hfree. pose proof Hxy as [Hx Hy]. unfold put.
  rewrite isInBound_origin by lia.
  rewrite bool_decide_eq_true_2 by lia. cbn [negb].
  unfold Board_at, Board_set, cells_at, cells_set.
  rewrite cell_index_small by done.
  change (Z.to_nat (x + 8 * y)) with (pos_of x y).
  rewrite Hfree. cbn [mbind option_bind].
  rewrite bool_decide_eq_true_2 by done. cbn [negb].
  pose proof (pos_of_lt x y Hx Hy) as Hpos.
  rewrite decide_True by lia. cbn [mbind option_bind].
  rewrite (for_each_nested (put_dir x y)).
  change (dx ← DELTAS; dy ← DELTAS; [(dx, dy)]) with DIRECTIONS.
  destruct (for_each_prefix (put_inv b x y)
              (fun p => put_dir x y p.1 p.2) DIRECTIONS
              (<[pos_of x y := BLACK]> b, false)) as ([b2 valid] & -> & Hinv).
  - intros pre [dx dy] post st Heq Hinv. cbn [fst snd].
    assert ((dx, dy) ∈ DIRECTIONS) as Hin.
    { rewrite Heq. apply elem_of_app. right. apply elem_of_cons. by left. }
    apply DIRECTIONS_range in Hin as [Hdx Hdy].
    apply put_dir_step; [done..| |done].
    pose proof DIRECTIONS_NoDup as Hnd. rewrite Heq in Hnd.
    apply NoDup_app in Hnd as (_ & Hnd & _).
    intros Hin. apply (Hnd _ Hin). apply elem_of_cons. by left.
  - split_and!; cbn [fst snd].
    + rewrite length_insert. done.
    + apply list_lookup_insert_eq. lia.
    + intros k (? & ? & ? & ? & []%elem_of_nil & _).
    + intros k Hne _. by apply list_lookup_insert_ne.
    + split; [done|]. intros (? & ? & []%elem_of_nil & _).
  - cbn [mbind option_bind].
    destruct Hinv as (Hlen2 & Horigin & Hflip & Hrest & Hvalid).
    cbn [fst snd] in *.
    exists valid, b2. split; [done|]. split_and!; [|done|done| |].
    + rewrite Hvalid. split.
      * intros (dx & dy & _ & Hd & Hc). by exists dx, dy.
      * intros (dx & dy & Hd & Hc). exists dx, dy. split; [|done].
        apply DIRECTIONS_range. unfold is_direction in Hd. lia.
    + intros k Hk. by apply Hflip, flipped_by_within.
    + intros k Hne Hk. apply Hrest; [done|]. by rewrite <- flipped_by_within.
Qed.

(** X7. [put] accepts a move exactly when the cell is on the board, is
    empty, and at least one of the eight directions captures: a run of one
    or more white cells next to the cell, closed by a black cell. It
    returns on every pair of [size_t] coordinates. *)
Theorem put_accepts_iff_captures (b : Board) (x y : Z) :
  length b = 64%nat → 0 ≤ x < 2 ^ 64 → 0 ≤ y < 2 ^ 64 →
  ∃ r b', put b x y = Some (r, b') ∧
    (r = true ↔
     on_board x y ∧ b !! pos_of x y = Some EMPTY ∧
     ∃ dx dy, is_direction dx dy ∧ captures b x y dx dy).
Proof.
  intros Hlen Hx Hy.
  destruct (put_total b x y Hlen Hx Hy) as [[r b'] Hput].
  exists r, b'. split; [done|].
  destruct (put_frame _ _ _ _ _ Hx Hy Hput)
    as [(-> & _ & Hwhy)|(Hx8 & Hy8 & Hfree & _)].
  - split; [done|]. intros ([? ?] & Hfree & _).
    destruct Hwhy as [Hout|(c & Hc & Hne)]; [lia|congruence].
  - assert (on_board x y) as Hxy by (unfold on_board; lia).
    destruct (put_free_cell b x y Hlen Hxy Hfree) as (r' & b'' & Hput' & Hr & _).
    rewrite Hput in Hput'. injection Hput' as <- <-.
    rewrite Hr. tauto.
Qed.

Lemma put_accepts_iff_captures_witness :
  ∃ r b', put initial_board 3 2 = Some (r, b') ∧
    (r = true ↔
     on_board 3 2 ∧ initial_board !! pos_of 3 2 = Some EMPTY ∧
     ∃ dx dy, is_direction dx dy ∧ captures initial_board 3 2 dx dy).
Proof. apply put_accepts_iff_captures; [reflexivity|lia|lia]. Defined.

(** X8. The board an accepted [put] leaves: the cell of the move was
    empty and is black; at least one cell is flipped; the flipped cells,
    those of the captured runs, were white and are black; every other
    cell is as it was. *)
Theorem put_accepted_board (b : Board) (x y : Z) (b' : Board) :
  length b = 64%nat → 0 ≤ x < 2 ^ 64 → 0 ≤ y < 2 ^ 64 →
  put b x y = Some (true, b') →
  on_board x y ∧ length b' = 64%nat ∧
  b !! pos_of x y = Some EMPTY ∧ b' !! pos_of x y = Some BLACK ∧
  (∃ k, flipped_by b x y k) ∧
  (∀ k, flipped_by b x y k → b !! k = Some WHITE ∧ b' !! k = Some BLACK) ∧
  (∀ k, k ≠ pos_of x y → ¬ flipped_by b x y k → b' !! k = b !! k).
Proof.
  intros Hlen Hx Hy Hput.
  destruct (put_frame _ _ _ _ _ Hx Hy Hput)
    as [(? & _)|(Hx8 & Hy8 & Hfree & _)]; [done|].
  assert (on_board x y) as Hxy by (unfold on_board; lia).
  destruct (put_free_cell b x y Hlen Hxy Hfree)
    as (r' & b'' & Hput' & Hr & Hlen' & Horigin & Hflip & Hrest).
  rewrite Hput in Hput'. injection Hput' as <- <-.
  split_and!; [done..| | |done].
  - destruct (proj1 Hr eq_refl) as (dx & dy & Hd & n & Hrun).
    exists (pos_of (x + 1 * dx) (y + 1 * dy)), dx, dy, n, 1.
    split; [done|]. split; [done|]. split; [|done]. destruct Hrun. lia.
  - intros k Hk. split; [|by apply Hflip].
    destruct Hk as (dx & dy & n & i & _ & (_ & Hrun & _) & Hi & ->).
    by destruct (Hrun i Hi).
Qed.

Lemma put_accepted_board_witness :
  ∃ b', put initial_board 3 2 = Some (true, b') ∧
  on_board 3 2 ∧ length b' = 64%nat ∧
  initial_board !! pos_of 3 2 = Some EMPTY ∧ b' !! pos_of 3 2 = Some BLACK ∧
  (∃ k, flipped_by initial_board 3 2 k) ∧
  (∀ k, flipped_by initial_board 3 2 k →
        initial_board !! k = Some WHITE ∧ b' !! k = Some BLACK) ∧
  (∀ k, k ≠ pos_of 3 2 → ¬ flipped_by initial_board 3 2 k →
        b' !! k = initial_board !! k).
Proof.
  eexists. split; [reflexivity|].
  apply put_accepted_board; [reflexivity|lia|lia|reflexivity].
Defined.

(** ** The list of successors *)

Lemma successor_at_step b x y ok tmp :
  0 ≤ x < 8 → 0 ≤ y < 8 → put b x y = Some (ok, tmp) →
  omap (successor_at b) (seq 0 (Z.to_nat (x + 1 + 8 * y)))
  = omap (successor_at b) (seq 0 (Z.to_nat (x + 8 * y)))
      ++ (if ok : bool then [flipPlayer tmp] else []).
Proof.
  intros Hx Hy Hput.
  replace (Z.to_nat (x + 1 + 8 * y)) with (S (Z.to_nat (x + 8 * y))) by lia.
  rewrite seq_S, omap_app. f_equal. cbn [omap list_omap Nat.add].
  unfold successor_at. rewrite Z2Nat.id by lia.
  replace ((x + 8 * y) mod 8) with x
    by (apply (Z.mod_unique_pos _ _ y); lia).
  replace ((x + 8 * y) / 8) with y
    by (apply (Z.div_unique_pos _ _ _ x); lia).
  rewrite Hput. by destruct ok.
Qed.

Lemma getNextStates_omap b :
  length b = 64%nat →
  getNextStates b = Some (omap (successor_at b) (seq 0 64)).
Proof.
  intros Hlen. unfold getNextStates, COORDS, BOARD_SIZE.
  destruct (for_each_seqZ_total
    (fun y boards =>
       boards = omap (successor_at b) (seq 0 (Z.to_nat (8 * y))))
    (fun y => for_each (fun x boards =>
       '(ok, tmp) ← put b x y;
       Some (if ok : bool then boards ++ [flipPlayer tmp] else boards))
       (seqZ 0 8)) 0 8 []) as (l & -> & ->); [lia| |done|done].
  intros y boards Hy ->.
  destruct (for_each_seqZ_total
    (fun x boards =>
       boards = omap (successor_at b) (seq 0 (Z.to_nat (x + 8 * y))))
    (fun x boards =>
       '(ok, tmp) ← put b x y;
       Some (if ok : bool then boards ++ [flipPlayer tmp] else boards))
    0 8 (omap (successor_at b) (seq 0 (Z.to_nat (8 * y)))))
    as (l & -> & ->); [lia| |done|].
  - intros x acc Hx ->.
    destruct (put_total b x y) as [[ok tmp] Hput]; [done|lia|lia|].
    rewrite Hput. cbn [mbind option_bind]. eexists. split; [done|].
    rewrite (successor_at_step b x y ok tmp) by (done || lia).
    destruct ok; [done|by rewrite app_nil_r].
  - eexists. split; [done|]. f_equal. f_equal. lia.
Qed.

Lemma successor_at_pos_of b x y tmp :
  on_board x y → put b x y = Some (true, tmp) →
  successor_at b (pos_of x y) = Some (flipPlayer tmp).
Proof.
  intros [Hx Hy] Hput. unfold successor_at, pos_of.
  rewrite Z2Nat.id by lia.
  replace ((x + 8 * y) mod 8) with x
    by (apply (Z.mod_unique_pos _ _ y); lia).
  replace ((x + 8 * y) / 8) with y
    by (apply (Z.div_unique_pos _ _ _ x); lia).
  by rewrite Hput.
Qed.

(** X9. [getNextStates] lists the boards of the accepted moves cell by
    cell in row-major order, each after [flipPlayer]: a board is in the
    list exactly when it is the successor for some cell of the board. *)
Theorem getNextStates_complete (b : Board) :
  length b = 64%nat →
  ∃ l, getNextStates b = Some l ∧
       l = omap (successor_at b) (seq 0 64) ∧
       (∀ nb, nb ∈ l ↔ successor_of b nb) ∧
       (∀ x y tmp, on_board x y → put b x y = Some (true, tmp) →
                   successor_at b (pos_of x y) = Some (flipPlayer tmp)).
Proof.
  intros Hlen. exists (omap (successor_at b) (seq 0 64)).
  split; [by apply getNextStates_omap|]. split; [done|].
  split; [|apply successor_at_pos_of].
  intros nb. rewrite list_elem_of_omap. split.
  - intros (k & Hk & Hs). apply elem_of_seq in Hk.
    unfold successor_at in Hs.
    destruct (put b _ _) as [[[] tmp]|] eqn:Hput; [|done..].
    injection Hs as <-.
    exists (Z.of_nat k mod 8), (Z.of_nat k / 8), tmp. split; [|done].
    unfold on_board.
    pose proof (Z.mod_pos_bound (Z.of_nat k) 8 ltac:(lia)).
    pose proof (Z.div_pos (Z.of_nat k) 8 ltac:(lia) ltac:(lia)).
    pose proof (Z.div_lt_upper_bound (Z.of_nat k) 8 8 ltac:(lia) ltac:(lia)).
    lia.
  - intros (x & y & tmp & Hxy & Hput & ->).
    exists (pos_of x y). split; [|by apply successor_at_pos_of].
    apply elem_of_seq. pose proof (pos_of_lt x y (proj1 Hxy) (proj2 Hxy)). lia.
Qed.

Lemma getNextStates_complete_witness :
  ∃ l, getNextStates initial_board = Some l ∧
       l = omap (successor_at initial_board) (seq 0 64) ∧
       (∀ nb, nb ∈ l ↔ successor_of initial_board nb) ∧
       (∀ x y tmp, on_board x y → put initial_board x y = Some (true, tmp) →
                   successor_at initial_board (pos_of x y)
                   = Some (flipPlayer tmp)).
Proof. apply getNextStates_complete. reflexivity. Defined.

(** X10. When the player to move has no legal move, [put] refuses every
    move [main] can read: the loop that asks for a move has no way to
    pass. *)
Theorem no_move_no_input_accepted (b : Board) :
  length b = 64%nat → getNextStates b = Some [] →
  ∀ c0 c1, ∃ b', read_move b c0 c1 = Some (false, b').
Proof.
  intros Hlen Hnone c0 c1. unfold read_move.
  pose proof (move_x_range c0) as Hx. pose proof (move_y_range c1) as Hy.
  destruct (put_total b _ _ Hlen Hx Hy) as [[[] b'] Hput]; [|by exists b'].
  exfalso.
  destruct (put_frame _ _ _ _ _ Hx Hy Hput) as [(? & _)|(Hx8 & Hy8 & _)];
    [done|].
  assert (on_board (move_x c0) (move_y c1)) as Hxy by (unfold on_board; lia).
  pose proof (successor_at_pos_of b _ _ b' Hxy Hput) as Hat.
  pose proof (getNextStates_omap b Hlen) as Hall.
  assert (omap (successor_at b) (seq 0 64) = []) as Hnil by congruence.
  assert (flipPlayer b' ∈ omap (successor_at b) (seq 0 64)) as Hin.
  { apply list_elem_of_omap. eexists. split; [|exact Hat].
    apply elem_of_seq. pose proof (pos_of_lt _ _ (proj1 Hxy) (proj2 Hxy)).
    lia. }
  rewrite Hnil in Hin. by apply elem_of_nil in Hin.
Qed.

Lemma no_move_no_input_accepted_witness :
  ∃ b', read_move (replicate 64 EMPTY) "d" "3" = Some (false, b').
Proof.
  apply (no_move_no_input_accepted (replicate 64 EMPTY));
    [reflexivity|by vm_compute].
Defined.

(** ** Progress of the game *)

Lemma omap_seq_length_le {A B} (f : nat → option B) (P : A → Prop)
      `{∀ c, Decision (P c)} (l : list A) i :
  (∀ j v, (j < length l)%nat → f (i + j)%nat = Some v →
          ∃ c, l !! j = Some c ∧ P c) →
  (length (omap f (seq i (length l))) ≤ length (filter P l))%nat.
Proof.
  revert i. induction l as [|c l IH]; intros i Hf; [done|].
  cbn [length seq omap list_omap]. rewrite filter_cons.
  assert (length (omap f (seq (S i) (length l))) ≤ length (filter P l))%nat
    as Hrest.
  { apply IH. intros j v Hlt Hj. apply (Hf (S j) v); [cbn [length]; lia|].
    by replace (i + S j)%nat with (S i + j)%nat by lia. }
  destruct (f i) as [v|] eqn:Hfi.
  - destruct (Hf 0%nat v) as (c' & Hc' & HP);
      [cbn [length]; lia|by rewrite Nat.add_0_r|].
    injection Hc' as <-. rewrite decide_True by done. cbn [length]. lia.
  - destruct (decide (P c)); cbn [length]; lia.
Qed.

Lemma successor_at_empty b k nb :
  (k < 64)%nat → successor_at b k = Some nb → b !! k = Some EMPTY.
Proof.
  unfold successor_at. intros Hk Hs.
  destruct (put b _ _) as [[[] tmp]|] eqn:Hput; [|done..].
  pose proof (Z.mod_pos_bound (Z.of_nat k) 8 ltac:(lia)) as Hm.
  assert (0 ≤ Z.of_nat k / 8) as Hd by (apply Z.div_pos; lia).
  assert (Z.of_nat k / 8 < 8) as Hd'
    by (apply Z.div_lt_upper_bound; lia).
  apply put_frame in Hput as [(? & _)|(Hx & Hy & Hfree & _)];
    [done| |lia|lia].
  unfold pos_of in Hfree.
  replace (Z.of_nat k `mod` 8 + 8 * (Z.of_nat k / 8)) with (Z.of_nat k)
    in Hfree by (pose proof (Z.div_mod (Z.of_nat k) 8); lia).
  by rewrite Nat2Z.id in Hfree.
Qed.

(** X11. Every move fills one cell: a board has no more successors than
    empty cells, none when it is full, and every successor has the 64
    cells with exactly one empty cell fewer. *)
Theorem successors_fill_one_cell (b : Board) :
  length b = 64%nat →
  ∃ l, getNextStates b = Some l ∧
       (length l ≤ count_empty b)%nat ∧
       (isFilled b = true → l = []) ∧
       (∀ nb, nb ∈ l →
          length nb = 64%nat ∧ S (count_empty nb) = count_empty b).
Proof.
  intros Hlen. exists (omap (successor_at b) (seq 0 64)).
  split; [by apply getNextStates_omap|].
  assert (length (omap (successor_at b) (seq 0 64)) ≤ count_empty b)%nat
    as Hle.
  { unfold count_empty. rewrite <- Hlen. apply omap_seq_length_le.
    intros j v Hj Hs. exists EMPTY. split; [|done].
    apply (successor_at_empty b j v); [lia|done]. }
  split; [done|]. split.
  - intros Hf. apply isFilled_count_empty in Hf.
    apply length_zero_iff_nil. lia.
  - intros nb Hnb.
    destruct (successor_of_count b nb) as [Hl Hc]; [|split; congruence].
    eapply getNextStates_successors; [by apply getNextStates_omap|done].
Qed.

Lemma successors_fill_one_cell_witness :
  ∃ l, getNextStates initial_board = Some l ∧
       (length l ≤ count_empty initial_board)%nat ∧
       (isFilled initial_board = true → l = []) ∧
       (∀ nb, nb ∈ l →
          length nb = 64%nat
          ∧ S (count_empty nb) = count_empty initial_board).
Proof. apply successors_fill_one_cell. reflexivity. Defined.

(** ** The end of a playout *)

Section PlayoutEnd.
Context {R : Type} `{RandomEngine R}.

Lemma playout_loop_end fuel (g : R) b player passed cur player' g' :
  length b = 64%nat →
  playout_loop fuel g b player passed = Some (cur, player', g') →
  length cur = 64%nat ∧ (count_empty cur ≤ count_empty b)%nat ∧
  (isFilled cur = true ∨
   getNextStates cur = Some [] ∧
   (getNextStates (flipped cur) = Some [] ∨ passed = true ∧ cur = b)).
Proof.
  revert g b player passed.
  induction fuel as [|fuel IH]; intros g b player passed Hlen; [done|].
  cbn [playout_loop]. destruct (isFilled b) eqn:Hfilled.
  { intros [= <- <- <-]. split_and!; [done|done|by left]. }
  destruct (getNextStates b) as [boards|] eqn:Hnext; [|done].
  cbn [mbind option_bind]. case_bool_decide as Hempty.
  - subst boards. destruct passed.
    + intros [= <- <- <-]. split_and!; [done|done|]. right. split; [done|].
      by right.
    + intros Hrun. apply IH in Hrun as (Hl & Hc & Hend);
        [|by rewrite flipPlayer_length].
      split; [done|]. split.
      { unfold flipped in Hc.
        by rewrite (count_empty_mask _ _ (empty_mask_flipPlayer b)) in Hc. }
      destruct Hend as [Hf|[Hnone [Hopp|[_ ->]]]]; [by left|right..].
      * split; [done|by left].
      * split; [done|]. left. unfold flipped.
        by rewrite flipPlayer_involutive.
  - destruct (randomIndex g (Z.of_nat (length boards))) as [[idx g1]|];
      [|done].
    cbn [mbind option_bind].
    destruct (boards !! Z.to_nat idx) as [next|] eqn:Hidx; [|done].
    cbn [mbind option_bind]. intros Hrun.
    apply list_elem_of_lookup_2 in Hidx.
    destruct (successor_of_count b next) as [Hl Hc];
      [by eapply getNextStates_successors|].
    apply IH in Hrun as (Hl' & Hc' & Hend); [|congruence].
    split; [done|]. split; [lia|].
    destruct Hend as [Hf|[Hnone [Hopp|[? _]]]]; [by left| |done].
    right. split; [done|by left].
Qed.

(** X12. The loop of [playout] plays the game to its end: from every
    board of 64 cells it returns, and the board it returns is full, or
    the player to move has no move on it and either the other player has
    none as well or the loop started on this very board with the pass
    flag set. No stone is ever taken off the board on the way. *)
Theorem playout_loop_ends_game (g : R) (b : Board) player passed :
  length b = 64%nat →
  ∃ cur player' g',
    playout_loop PLAYOUT_FUEL g b player passed = Some (cur, player', g') ∧
    length cur = 64%nat ∧ (count_empty cur ≤ count_empty b)%nat ∧
    (isFilled cur = true ∨
     getNextStates cur = Some [] ∧
     (getNextStates (flipped cur) = Some [] ∨ passed = true ∧ cur = b)).
Proof.
  intros Hlen.
  destruct (playout_loop_PLAYOUT_FUEL g b player passed Hlen)
    as [[[cur player'] g'] Hrun].
  exists cur, player', g'. split; [done|].
  by eapply playout_loop_end.
Qed.

End PlayoutEnd.

Lemma playout_loop_ends_game_witness :
  ∃ cur player' g',
    playout_loop PLAYOUT_FUEL (42 : Z) endgame_board PBLACK false
    = Some (cur, player', g') ∧
    length cur = 64%nat ∧ (count_empty cur ≤ count_empty endgame_board)%nat ∧
    (isFilled cur = true ∨
     getNextStates cur = Some [] ∧
     (getNextStates (flipped cur) = Some [] ∨ false = true ∧ cur = endgame_board)).
Proof. apply playout_loop_ends_game. reflexivity. Defined.

(** * The search tree grows *)

Section Expand.
Context {F : Type} `{FloatArith F}.

Lemma add_children_nil (n : Node F) : add_children [] n = n.
Proof. destruct n. unfold add_children. cbn. by rewrite app_nil_r. Qed.

Lemma add_children_push c cs (n : Node F) :
  add_children cs (push_child c n) = add_children (c :: cs) n.
Proof. unfold add_children, push_child. cbn. by rewrite <- app_assoc. Qed.

Lemma set_isPassMove_same (n : Node F) :
  set_isPassMove (isPassMove_ n) n = n.
Proof. by destruct n. Qed.

(** The store after [emplace_back] for every board of [bs]. *)
Lemma emplace_children_spec a pl bs (h : Heap F) m :
  h !! a = Some m →
  let h' := fold_left (fun hh board => emplace_child a pl board hh) bs h in
  length h' = (length h + length bs)%nat ∧
  h' !! a = Some (add_children (seq (length h) (length bs)) m) ∧
  (∀ i b, bs !! i = Some b →
          h' !! (length h + i)%nat = Some (new_Node b pl (Some a))) ∧
  (∀ c, c ≠ a → (c < length h)%nat → h' !! c = h !! c).
Proof.
  revert h m. induction bs as [|b bs IH]; intros h m Ha; cbn zeta.
  - cbn [fold_left length seq]. rewrite add_children_nil.
    split_and!; [lia|done|done|done].
  - cbn [fold_left].
    destruct (emplace_child_lookup a pl b h m Ha) as (Hl1 & Ha1 & Hnew & Hold).
    destruct (IH _ _ Ha1) as (Hl & Ha' & Hnews & Holds).
    pose proof (lookup_lt_Some _ _ _ Ha) as Hlt.
    split_and!.
    + rewrite Hl, Hl1. cbn [length]. lia.
    + rewrite Ha', Hl1, add_children_push. done.
    + intros [|i] b' Hb'.
      * cbn in Hb'. injection Hb' as <-. rewrite Nat.add_0_r.
        rewrite Holds by lia. done.
      * cbn in Hb'. replace (length h + S i)%nat
          with (length (emplace_child a pl b h) + i)%nat by lia.
        by apply Hnews.
    + intros c Hne Hc. rewrite Holds by lia. apply Hold; [done|lia].
Qed.

(** The two ways [expand] returns: it leaves the store as it is, or it
    sets the pass flag of the node and adds a child for every board of
    [bs]. *)
Lemma expand_cases (h : Heap F) a h' :
  expand h a = Some h' →
  ∃ n, h !! a = Some n ∧
    (h' = h ∧ (isPassMove_ n = true ∨ children_ n ≠ [] ∨ games_ n < 1) ∨
     (children_ n = [] ∧ 1 ≤ games_ n ∧
      ∃ boards bs,
        getNextStates (board_ n) = Some boards ∧
        h' = fold_left (fun hh board =>
                          emplace_child a (other_player (player_ n)) board hh)
                       bs
                       (<[a := set_isPassMove (bool_decide (boards = [])) n]> h)
        ∧
        (boards ≠ [] ∧ bs = boards ∨
         boards = [] ∧
         ∃ p pn, parent_ n = Some p ∧
                 <[a := set_isPassMove true n]> h !! p = Some pn ∧
                 (isPassMove_ pn = false ∧ bs = [flipped (board_ n)] ∨
                  isPassMove_ pn = true ∧ bs = [])))).
Proof.
  unfold expand. intros Hex.
  destruct (h !! a) as [n|] eqn:Ha; [|done]. cbn [mbind option_bind] in Hex.
  exists n. split; [done|].
  destruct (if isPassMove_ n
            then parent_ n ≫= (fun p => h !! p ≫= fun pn => Some (isPassMove_ pn))
            else Some false) as [stop|] eqn:Hstop; [|done].
  cbn [mbind option_bind] in Hex.
  destruct stop.
  { left. split; [congruence|]. left. by destruct (isPassMove_ n). }
  destruct (bool_decide (children_ n = []) && (MIN_VISITS_TO_EXPAND <=? games_ n))
    eqn:Hguard.
  2:{ left. split; [congruence|]. right. unfold MIN_VISITS_TO_EXPAND in Hguard.
      apply andb_false_iff in Hguard as [Hch%bool_decide_eq_false|Hg%Z.leb_gt];
        [by left|right; lia]. }
  apply andb_true_iff in Hguard as [Hch%bool_decide_eq_true Hg%Z.leb_le].
  unfold MIN_VISITS_TO_EXPAND in Hg.
  destruct (getNextStates (board_ n)) as [boards|] eqn:Hnext; [|done].
  cbn [mbind option_bind] in Hex. right. split; [done|]. split; [done|].
  exists boards. case_bool_decide as Hempty.
  - subst boards.
    destruct (parent_ n) as [p|] eqn:Hp; [|done]. cbn [mbind option_bind] in Hex.
    destruct (<[a := set_isPassMove true n]> h !! p) as [pn|] eqn:Hpn; [|done].
    cbn [mbind option_bind] in Hex.
    destruct (isPassMove_ pn) eqn:Hpass; cbn [negb] in Hex; injection Hex as <-.
    + exists []. split; [done|]. split; [done|]. right. split; [done|].
      exists p, pn. split_and!; [done|done|]. by right.
    + exists [flipped (board_ n)]. split; [done|]. split; [done|]. right.
      split; [done|]. exists p, pn. split_and!; [done|done|]. by left.
  - injection Hex as <-. exists boards. split; [done|]. split; [done|].
    by left.
Qed.

(** X13. [expand] on a node that has been visited, has no child yet and is
    not a pass, when its board has successors: the store grows by one
    fresh node for every successor, in the order of [getNextStates], each
    with the successor as its board, the other player, no visit and the
    node as its parent; the node gets their addresses as its children,
    and no other node changes. *)
Theorem expand_adds_successors (h : Heap F) (a : nat) (n : Node F)
        (boards : list Board) :
  h !! a = Some n → isPassMove_ n = false → children_ n = [] →
  1 ≤ games_ n →
  getNextStates (board_ n) = Some boards → boards ≠ [] →
  ∃ h', expand h a = Some h' ∧
    length h' = (length h + length boards)%nat ∧
    h' !! a = Some (add_children (seq (length h) (length boards)) n) ∧
    (∀ i nb, boards !! i = Some nb →
       h' !! (length h + i)%nat
       = Some (new_Node nb (other_player (player_ n)) (Some a))) ∧
    (∀ c, c ≠ a → (c < length h)%nat → h' !! c = h !! c).
Proof.
  intros Ha Hpass Hch Hg Hnext Hne.
  pose proof (lookup_lt_Some _ _ _ Ha) as Hlt.
  unfold expand. rewrite Ha. cbn [mbind option_bind].
  rewrite Hpass. cbn [mbind option_bind].
  rewrite Hch, bool_decide_eq_true_2 by done.
  unfold MIN_VISITS_TO_EXPAND. destruct (Z.leb_spec 1 (games_ n)); [|lia].
  cbn [andb]. rewrite Hnext. cbn [mbind option_bind].
  rewrite bool_decide_eq_false_2 by done.
  eexists. split; [done|].
  rewrite <- Hpass, set_isPassMove_same, list_insert_id by done.
  destruct (emplace_children_spec a (other_player (player_ n)) boards h n Ha)
    as (Hl & Ha' & Hnew & Hold).
  split_and!; [done|done|done|done].
Qed.

Lemma expand_has_children (h : Heap F) a n :
  h !! a = Some n → children_ n ≠ [] →
  (isPassMove_ n = true → ∃ p pn, parent_ n = Some p ∧ h !! p = Some pn) →
  expand h a = Some h.
Proof.
  intros Ha Hch Hpar. unfold expand. rewrite Ha. cbn [mbind option_bind].
  destruct (isPassMove_ n).
  - destruct Hpar as (p & pn & -> & Hpn); [done|]. cbn [mbind option_bind].
    rewrite Hpn. cbn [mbind option_bind].
    destruct (isPassMove_ pn); [done|].
    by rewrite bool_decide_eq_false_2.
  - cbn [mbind option_bind]. by rewrite bool_decide_eq_false_2.
Qed.

Lemma expand_stopped (h : Heap F) a n p pn :
  h !! a = Some n → isPassMove_ n = true → parent_ n = Some p →
  h !! p = Some pn → isPassMove_ pn = true →
  expand h a = Some h.
Proof.
  intros Ha Hpass Hp Hpn Hpp. unfold expand. rewrite Ha.
  cbn [mbind option_bind]. rewrite Hpass, Hp. cbn [mbind option_bind].
  rewrite Hpn. cbn [mbind option_bind]. by rewrite Hpp.
Qed.

(** X14. [expand] is idempotent: a second call right after the first one
    leaves the store as the first one left it. *)
Theorem expand_idempotent (h : Heap F) (a : nat) (h' : Heap F) :
  expand h a = Some h' → expand h' a = Some h'.
Proof.
  intros Hex. pose proof Hex as Hcases.
  apply expand_cases in Hcases
    as (n & Ha & [[-> _]|(Hch & Hg & boards & bs & Hnext & -> & Hbs)]); [done|].
  pose proof (lookup_lt_Some _ _ _ Ha) as Hlt.
  destruct Hbs as [[Hne ->]|(-> & p & pn & Hp & Hpn & Hcase)].
  - rewrite bool_decide_eq_false_2 by done.
    assert (<[a := set_isPassMove false n]> h !! a
            = Some (set_isPassMove false n)) as Ha1
      by (by apply list_lookup_insert_eq).
    destruct (emplace_children_spec a (other_player (player_ n)) boards _ _ Ha1)
      as (Hl & Ha' & Hnew & Hold).
    apply (expand_has_children _ _ _ Ha'); [|done].
    cbn [add_children children_ set_isPassMove]. rewrite Hch. cbn [app].
    rewrite length_insert. by destruct boards.
  - rewrite bool_decide_eq_true_2 by done.
    assert (<[a := set_isPassMove true n]> h !! a
            = Some (set_isPassMove true n)) as Ha1
      by (by apply list_lookup_insert_eq).
    destruct Hcase as [[Hpass ->]|[Hpass ->]].
    + destruct (emplace_children_spec a (other_player (player_ n))
                  [flipped (board_ n)] _ _ Ha1) as (Hl & Ha' & Hnew & Hold).
      assert (p ≠ a) as Hpa.
      { intros ->. rewrite Ha1 in Hpn. by injection Hpn as <-. }
      apply (expand_has_children _ _ _ Ha').
      * cbn [add_children children_ set_isPassMove]. by rewrite Hch.
      * intros _. exists p, pn. split; [done|].
        rewrite Hold; [done|done|]. by apply lookup_lt_Some in Hpn.
    + by apply (expand_stopped _ _ _ p pn Ha1).
Qed.

End Expand.

(** * The search *)

Section SearchProps.
Context {F : Type} `{FloatArith F}.
Implicit Types (h : Heap F) (n m : Node F).

(** Every node propagates up to the root. *)
Lemma reaches_root h a v :
  parents_before h → visit_inv h → well_linked h → is_Some (h !! a) →
  ∃ w, reaches h a v 0%nat w.
Proof.
  intros Hpb Hvi [_ Hroot]. revert v.
  induction (lt_wf a) as [a _ IH]. intros v [n Ha].
  destruct (parent_ n) as [p|] eqn:Hp.
  - destruct (Hvi a n Ha) as [_ Hpar]. destruct (Hpar p Hp) as (pn & Hpn & _).
    destruct (IH p (Hpb a n p Ha Hp) (f_sub (f_of_int 1) v)) as [w Hw];
      [by eexists|].
    exists w. by eapply reaches_parent.
  - rewrite (Hroot a n Ha Hp). exists v. constructor.
Qed.

Lemma Forall2_seq_lookup {B} (P : nat → B → Prop) s (bs : list B) :
  (∀ i b, bs !! i = Some b → P (s + i)%nat b) →
  Forall2 P (seq s (length bs)) bs.
Proof.
  revert s. induction bs as [|b bs IH]; intros s Hall; [constructor|].
  cbn [length seq]. constructor.
  - specialize (Hall 0%nat b eq_refl). by rewrite Nat.add_0_r in Hall.
  - apply IH. intros i b' Hb'. specialize (Hall (S i) b' Hb').
    by replace (S s + i)%nat with (s + S i)%nat by lia.
Qed.

Lemma getChildWithMaxValue_child {T} (lt : T → T → bool)
      (eval : Heap F → nat → option T) h a n :
  h !! a = Some n → children_ n ≠ [] →
  (∀ c, c ∈ children_ n → is_Some (eval h c)) →
  ∃ c, getChildWithMaxValue lt eval h a = Some c ∧ c ∈ children_ n.
Proof.
  intros Ha Hne Hall. unfold getChildWithMaxValue. rewrite Ha.
  cbn [mbind option_bind]. rewrite bool_decide_eq_false_2 by done.
  destruct (mapM_is_Some_2 (eval h) (children_ n)) as [values Hvals].
  { apply Forall_forall. intros c Hc. by apply Hall. }
  rewrite Hvals. cbn [mbind option_bind].
  pose proof (length_mapM _ _ _ Hvals) as Hlen.
  assert (values ≠ []) as Hvne.
  { intros ->. destruct (children_ n); [done|]. cbn in Hlen. lia. }
  pose proof (max_element_lt lt values Hvne) as Hlt.
  destruct (lookup_lt_is_Some_2 (children_ n) (max_element lt values))
    as [c Hc]; [lia|].
  exists c. split; [done|]. by eapply list_elem_of_lookup_2.
Qed.

Lemma isLeafNode_total h a n :
  visit_inv h → h !! a = Some n →
  ∃ leaf, isLeafNode h a = Some leaf ∧
          (children_ n = [] → leaf = true) ∧
          (leaf = false → children_ n ≠ []).
Proof.
  intros Hvi Ha. unfold isLeafNode. rewrite Ha. cbn [mbind option_bind].
  case_bool_decide as Hch; [by exists true|].
  destruct (isFilled (board_ n)); [by exists true|].
  destruct (parent_ n) as [p|] eqn:Hp; [|by exists false].
  destruct (isPassMove_ n); [|by exists false].
  destruct (Hvi a n Ha) as [_ Hpar]. destruct (Hpar p Hp) as (pn & -> & _).
  cbn [mbind option_bind]. exists (isPassMove_ pn). done.
Qed.

Lemma expand_root_total h root boards :
  h !! 0%nat = Some root → isPassMove_ root = false →
  getNextStates (board_ root) = Some boards → boards ≠ [] →
  is_Some (expand h 0).
Proof.
  intros Hroot Hpass Hnext Hne. unfold expand. rewrite Hroot.
  cbn [mbind option_bind]. rewrite Hpass. cbn [mbind option_bind].
  destruct (_ && _); [|done]. rewrite Hnext. cbn [mbind option_bind].
  by rewrite bool_decide_eq_false_2.
Qed.

(** What [expand] does to the store, node by node. *)
Lemma expand_nodes h a h' :
  boards_sized h → expand h a = Some h' →
  ∃ n, h !! a = Some n ∧
    (h' = h ∧ (isPassMove_ n = true ∨ children_ n ≠ [] ∨ games_ n < 1) ∨
     ∃ pass bs,
       children_ n = [] ∧ 1 ≤ games_ n ∧
       (pass = false → getNextStates (board_ n) = Some bs ∧ bs ≠ []) ∧
       (pass = true → is_Some (parent_ n) ∧
                      getNextStates (board_ n) = Some [] ∧
                      (bs = [] ∨ bs = [flipped (board_ n)])) ∧
       Forall (fun b : Board => length b = 64%nat) bs ∧
       length h' = (length h + length bs)%nat ∧
       h' !! a = Some (add_children (seq (length h) (length bs))
                                    (set_isPassMove pass n)) ∧
       (∀ i b, bs !! i = Some b →
          h' !! (length h + i)%nat
          = Some (new_Node b (other_player (player_ n)) (Some a))) ∧
       (∀ c, c ≠ a → (c < length h)%nat → h' !! c = h !! c)).
Proof.
  intros Hsz Hex.
  apply expand_cases in Hex
    as (n & Ha & [Hsame|(Hch & Hg & boards & bs & Hnext & -> & Hbs)]).
  { exists n. split; [done|]. by left. }
  exists n. split; [done|]. right.
  pose proof (lookup_lt_Some _ _ _ Ha) as Hlt.
  exists (bool_decide (boards = [])), bs.
  assert (<[a := set_isPassMove (bool_decide (boards = [])) n]> h !! a
          = Some (set_isPassMove (bool_decide (boards = [])) n)) as Ha1
    by (by apply list_lookup_insert_eq).
  destruct (emplace_children_spec a (other_player (player_ n)) bs _ _ Ha1)
    as (Hl & Ha' & Hnew & Hold).
  rewrite length_insert in Hl, Ha', Hnew, Hold.
  split_and!; [done|done| | | |done|done|done|].
  - intros Hpass. apply bool_decide_eq_false in Hpass.
    destruct Hbs as [[_ ->]|[-> _]]; done.
  - intros Hpass. apply bool_decide_eq_true in Hpass. subst boards.
    destruct Hbs as [[? _]|(_ & p & pn & -> & _ & Hbs)]; [done|].
    split; [by eexists|]. split; [done|].
    destruct Hbs as [[_ ->]|[_ ->]]; [by right|by left].
  - destruct Hbs as [[_ ->]|(_ & p & pn & _ & _ & [[_ ->]|[_ ->]])].
    + apply Forall_forall. intros nb Hnb.
      destruct (successor_of_count (board_ n) nb) as [-> _];
        [by eapply getNextStates_successors|by eapply Hsz].
    + apply Forall_singleton. unfold flipped. rewrite flipPlayer_length.
      by eapply Hsz.
    + constructor.
  - intros c Hne Hc. rewrite Hold by done. by apply list_lookup_insert_ne.
Qed.

Context {R : Type} `{RandomEngine R}.

(** What [playout] does to the store, node by node: the statistics change
    and nothing else, and a node gets one visit more when a value reaches
    it. *)
Lemma playout_nodes h a (g : R) n :
  parents_before h → visit_inv h → games_bounded h → boards_sized h →
  h !! a = Some n →
  ∃ h' g', playout PLAYOUT_FUEL h a g = Some (h', g') ∧
    parents_before h' ∧ visit_inv h' ∧ length h' = length h ∧
    (∀ b m, h !! b = Some m →
       ∃ m', h' !! b = Some m' ∧ same_shape m m' ∧
             games_ m ≤ games_ m' ≤ games_ m + 1) ∧
    (∀ b m, h !! b = Some m → (∀ v, ∃ w, reaches h a v b w) →
       ∃ m', h' !! b = Some m' ∧ games_ m' = games_ m + 1).
Proof.
  intros Hpb Hvi Hbnd Hsz Ha.
  destruct (playout_propagates h a g n Ha (Hsz a n Ha)) as (v & g' & Hplay).
  pose proof (lookup_lt_Some _ _ _ Ha) as Hlt.
  destruct (propagateResult_spec (length h) h a v Hpb)
    as (h' & Hprop & Hl & Hr & Hn); [by eexists|done|].
  destruct (propagateResult_preserves (length h) h a v Hpb Hvi Hbnd)
    as (h'' & Hprop' & Hpb' & Hvi'); [by eexists|done|].
  rewrite Hprop in Hprop'. injection Hprop' as <-.
  rewrite Hprop in Hplay. cbn [mbind option_bind] in Hplay.
  exists h', g'. split_and!; [done..| |].
  - intros b m Hb. destruct (reaches_dec h a v b Hpb) as [[w Hw]|Hnot].
    + exists (receive w m). rewrite (Hr b w Hw), Hb. split; [done|].
      split; [apply receive_same_shape|].
      rewrite receive_games by (by eapply Hbnd). lia.
    + exists m. rewrite (Hn b Hnot). split; [done|].
      split; [apply same_shape_refl|lia].
  - intros b m Hb Hall. destruct (Hall v) as [w Hw].
    exists (receive w m). rewrite (Hr b w Hw), Hb. split; [done|].
    apply receive_games. by eapply Hbnd.
Qed.

Lemma playout_search_inv board boards k h a (g : R) :
  search_inv board boards k h → 0 ≤ k < 2 ^ 64 - 1 → is_Some (h !! a) →
  ∃ h' g', playout PLAYOUT_FUEL h a g = Some (h', g') ∧
    search_inv board boards (k + 1) h' ∧ length h' = length h ∧
    (∃ m', h' !! a = Some m' ∧ 1 ≤ games_ m') ∧
    (root_children boards h → root_children boards h').
Proof.
  intros (Hpb & Hvi & Hsz & [Hlinks Hroots] & Hgt & Hgames & root & Hroot
          & Hrp & Hrb & Hrg & Hrpass & Hrch) Hk [n Ha].
  assert (games_bounded h) as Hbnd.
  { intros b m Hb. specialize (Hgames b m Hb). lia. }
  destruct (playout_nodes h a g n Hpb Hvi Hbnd Hsz Ha)
    as (h' & g' & Hplay & Hpb' & Hvi' & Hl & Hnodes & Hreach).
  exists h', g'. split; [done|].
  assert (∀ b m', h' !! b = Some m' →
            ∃ m, h !! b = Some m ∧ same_shape m m' ∧
                 games_ m ≤ games_ m' ≤ games_ m + 1) as Hback.
  { intros b m' Hb'.
    destruct (lookup_lt_is_Some_2 h b) as [m Hm];
      [rewrite <- Hl; by eapply lookup_lt_Some|].
    destruct (Hnodes b m Hm) as (m'' & Hb'' & Hshape & Hg).
    exists m. split; [done|]. by simplify_eq. }
  assert (∀ c nb, getBoard h c = Some nb → getBoard h' c = Some nb) as Hboards.
  { unfold getBoard. intros c nb Hc.
    destruct (h !! c) as [m|] eqn:Hm; [|done]. cbn in Hc.
    destruct (Hnodes c m Hm) as (m' & -> & (Hbd & _) & _). cbn. congruence. }
  assert (root_children boards h → root_children boards h') as Hrc.
  { intros (root0 & Hroot0 & Hall).
    destruct (Hnodes 0%nat root0 Hroot0) as (root' & Hroot' & Hshape & _).
    exists root'. split; [done|].
    destruct Hshape as (_ & _ & _ & _ & ->).
    eapply Forall2_impl; [exact Hall|]. intros c nb. apply Hboards. }
  split_and!; [|done| |done].
  - split_and!; [done|done| | | | |].
    + intros b m' Hb'. destruct (Hback b m' Hb') as (m & Hm & (-> & _) & _).
      by eapply Hsz.
    + split.
      * intros x n' c Hx Hc.
        destruct (Hback x n' Hx) as (n0 & Hn0 & (_ & _ & _ & _ & Hch) & _).
        rewrite Hch in Hc.
        destruct (Hlinks x n0 c Hn0 Hc) as (m & Hm & Hpm).
        destruct (Hnodes c m Hm) as (m' & Hm' & (_ & _ & _ & Hpar & _) & _).
        exists m'. split; [done|congruence].
      * intros x n' Hx Hp.
        destruct (Hback x n' Hx) as (n0 & Hn0 & (_ & _ & _ & Hpar & _) & _).
        apply (Hroots x n0 Hn0). congruence.
    + intros x n' c m' Hx Hc Hm'.
      destruct (Hback x n' Hx) as (n0 & Hn0 & (Hbx & Hpx & _ & _ & Hch) & _).
      destruct (Hback c m' Hm') as (m0 & Hm0 & (Hbc & Hpc & _) & _).
      rewrite Hch in Hc. rewrite Hbx, Hpx, Hbc, Hpc.
      by apply (Hgt x n0 c m0).
    + intros b m' Hb'. destruct (Hback b m' Hb') as (m & Hm & _ & Hg).
      specialize (Hgames b m Hm). lia.
    + destruct (Hreach 0%nat root Hroot) as (root' & Hroot' & Hg').
      { intros v. apply reaches_root; [done|done|by split|by eexists]. }
      destruct (Hnodes 0%nat root Hroot) as (root'' & Hroot'' & Hshape & _).
      assert (root'' = root') as -> by congruence.
      destruct Hshape as (Hb & _ & Hpass & Hpar & Hch).
      exists root'. split_and!; [done|congruence|congruence|lia|congruence|].
      destruct Hrch as [Hnil|Hrc0]; [left; congruence|right; by apply Hrc].
  - destruct (Hreach a n Ha) as (m' & Hm' & Hg').
    { intros v. exists v. constructor. }
    exists m'. split; [done|]. specialize (Hgames a n Ha). lia.
Qed.

Lemma expand_search_inv board boards k h a h' :
  search_inv board boards k h →
  getNextStates board = Some boards → boards ≠ [] →
  expand h a = Some h' →
  search_inv board boards k h' ∧
  (root_children boards h ∨ a = 0%nat ∧ 1 ≤ k → root_children boards h').
Proof.
  intros Hinv Hnext Hne Hex. pose proof Hinv as Hinv0.
  destruct Hinv as (Hpb & Hvi & Hsz & [Hlinks Hroots] & Hgt & Hgames & root
                    & Hroot & Hrp & Hrb & Hrg & Hrpass & Hrch).
  destruct (expand_preserves h a h' Hpb Hvi Hex) as [Hpb' Hvi'].
  assert (root_children boards h → children_ root ≠ []) as Hhas.
  { intros (root0 & Hroot0 & Hall) Hnil.
    assert (root0 = root) as -> by congruence.
    rewrite Hnil in Hall. apply Forall2_nil_inv_l in Hall. done. }
  destruct (expand_nodes h a h' Hsz Hex)
    as (n & Ha & [[-> Hwhy]|(pass & bs & Hch & Hg & Hmoves & Hparent & Hbs
                               & Hl & Ha' & Hnew & Hold)]).
  { split; [done|]. intros [Hrc|[-> Hk]]; [done|].
    assert (n = root) as -> by congruence.
    destruct Hrch as [Hnil|Hrc]; [|done].
    destruct Hwhy as [?|[?|?]]; [congruence|done|lia]. }
  pose proof (lookup_lt_Some _ _ _ Ha) as Hlt.
  pose proof (lookup_lt_Some _ _ _ Hroot) as Hlt0.
  assert (∀ c m', h' !! c = Some m' →
            (c ≠ a ∧ h !! c = Some m') ∨
            (c = a ∧ m' = add_children (seq (length h) (length bs))
                                       (set_isPassMove pass n)) ∨
            (∃ i b, c = (length h + i)%nat ∧ bs !! i = Some b ∧
                    m' = new_Node b (other_player (player_ n)) (Some a)))
    as Hcls.
  { intros c m' Hc. destruct (decide (c = a)) as [->|Hca].
    { right. left. split; [done|congruence]. }
    destruct (decide (c < length h)%nat) as [Hc0|Hc0].
    { left. split; [done|]. by rewrite <- Hold. }
    right. right. pose proof (lookup_lt_Some _ _ _ Hc) as Hc'.
    destruct (lookup_lt_is_Some_2 bs (c - length h)) as [b Hb]; [lia|].
    exists (c - length h)%nat, b. split; [lia|]. split; [done|].
    specialize (Hnew _ _ Hb).
    replace (length h + (c - length h))%nat with c in Hnew by lia.
    congruence. }
  assert (∀ c m, h !! c = Some m →
            ∃ m', h' !! c = Some m' ∧ board_ m' = board_ m ∧
                  parent_ m' = parent_ m) as Hkeep.
  { intros c m Hc. destruct (decide (c = a)) as [->|Hca].
    - assert (m = n) as -> by congruence. eexists. split; [exact Ha'|done].
    - exists m. split; [|done]. rewrite Hold; [done|done|].
      by eapply lookup_lt_Some. }
  assert (∀ c m', h' !! c = Some m' → (c < length h)%nat →
            ∃ m, h !! c = Some m ∧ board_ m' = board_ m ∧
                 player_ m' = player_ m ∧
                 (c ≠ a → children_ m' = children_ m)) as Hold'.
  { intros c m' Hc Hc0.
    destruct (Hcls c m' Hc) as [[? Hc1]|[[-> ->]|(i & b & -> & _)]]; [| |lia].
    - by exists m'.
    - by exists n. }
  assert (0 ≤ k) as Hk0 by (specialize (Hgames _ _ Hroot); lia).
  assert (∀ c nb, getBoard h c = Some nb → getBoard h' c = Some nb) as Hboards.
  { unfold getBoard. intros c nb Hc.
    destruct (h !! c) as [m|] eqn:Hm; [|done]. cbn in Hc.
    destruct (Hkeep c m Hm) as (m' & -> & Hbd & _). cbn. congruence. }
  assert (a = 0%nat → pass = false ∧ bs = boards) as Hroot_case.
  { intros ->. assert (n = root) as -> by congruence.
    destruct pass.
    - destruct (Hparent eq_refl) as [[p Hp] _]. congruence.
    - split; [done|]. destruct (Hmoves eq_refl) as [Hbs' _]. congruence. }
  assert (root_children boards h ∨ a = 0%nat → root_children boards h')
    as Hrc'.
  { intros Hor. destruct (decide (a = 0%nat)) as [->|Ha0].
    - destruct (Hroot_case eq_refl) as [-> ->].
      eexists. split; [exact Ha'|].
      cbn [add_children children_ set_isPassMove]. rewrite Hch. cbn [app].
      apply Forall2_seq_lookup. intros i b Hb. unfold getBoard.
      by rewrite (Hnew i b Hb).
    - destruct Hor as [(root0 & Hroot0 & Hall)|?]; [|done].
      exists root0. split; [by rewrite Hold|].
      eapply Forall2_impl; [exact Hall|]. intros c nb. apply Hboards. }
  split.
  - split_and!; [done|done| | | | |].
    + intros c m' Hc.
      destruct (Hcls c m' Hc) as [[_ Hc0]|[[-> ->]|(i & b & -> & Hb & ->)]].
      * by eapply Hsz.
      * cbn. by eapply Hsz.
      * cbn. by eapply (Forall_lookup_1 _ _ _ _ Hbs).
    + split.
      * intros x nx c Hx Hc.
        destruct (Hcls x nx Hx) as [[Hxa Hx0]|[[-> ->]|(i & b & -> & Hb & ->)]].
        -- destruct (Hlinks x nx c Hx0 Hc) as (m & Hm & Hpm).
           destruct (Hkeep c m Hm) as (m' & Hm' & _ & Hpar).
           exists m'. split; [done|congruence].
        -- cbn [add_children children_ set_isPassMove] in Hc.
           rewrite Hch in Hc. cbn [app] in Hc.
           apply elem_of_seq in Hc.
           destruct (lookup_lt_is_Some_2 bs (c - length h)) as [b Hb]; [lia|].
           specialize (Hnew _ _ Hb).
           replace (length h + (c - length h))%nat with c in Hnew by lia.
           eexists. split; [exact Hnew|done].
        -- cbn in Hc. by apply elem_of_nil in Hc.
      * intros x nx Hx Hp.
        destruct (Hcls x nx Hx) as [[Hxa Hx0]|[[-> ->]|(i & b & -> & Hb & ->)]].
        -- by eapply Hroots.
        -- cbn in Hp. by eapply Hroots.
        -- done.
    + intros x nx c m' Hx Hc Hm'.
      destruct (Hcls x nx Hx) as [[Hxa Hx0]|[[-> ->]|(i & b & -> & Hb & ->)]].
      * destruct (Hlinks x nx c Hx0 Hc) as (m0 & Hm0 & _).
        destruct (Hold' c m' Hm') as (m1 & Hm1 & -> & -> & _);
          [by eapply lookup_lt_Some|].
        assert (m1 = m0) as -> by congruence.
        by apply (Hgt x nx c m0).
      * cbn [add_children children_ set_isPassMove board_ player_] in *.
        rewrite Hch in Hc. cbn [app] in Hc. apply elem_of_seq in Hc.
        destruct (lookup_lt_is_Some_2 bs (c - length h)) as [b Hb]; [lia|].
        pose proof (Hnew _ _ Hb) as Hc'.
        replace (length h + (c - length h))%nat with c in Hc' by lia.
        assert (m' = new_Node b (other_player (player_ n)) (Some a)) as ->
          by congruence.
        split; [done|]. cbn [new_Node board_]. destruct pass.
        -- destruct (Hparent eq_refl) as (_ & Hnone & [-> | ->]); [done|].
           exists []. split; [done|]. right. split; [done|].
           apply list_elem_of_lookup_2 in Hb.
           by apply list_elem_of_singleton in Hb.
        -- destruct (Hmoves eq_refl) as [Hbs' _]. exists bs. split; [done|].
           left. by eapply list_elem_of_lookup_2.
      * cbn in Hc. by apply elem_of_nil in Hc.
    + intros c m' Hc.
      destruct (Hcls c m' Hc) as [[_ Hc0]|[[-> ->]|(i & b & -> & Hb & ->)]].
      * by eapply Hgames.
      * cbn. by eapply Hgames.
      * cbn. lia.
    + destruct (decide (a = 0%nat)) as [->|Ha0].
      * destruct (Hroot_case eq_refl) as [-> ->].
        assert (n = root) as -> by congruence.
        eexists. split; [exact Ha'|].
        cbn [add_children set_isPassMove parent_ board_ games_ isPassMove_].
        split_and!; [done..|]. right. apply Hrc'. by right.
      * exists root. split; [by rewrite Hold|]. split_and!; [done..|].
        destruct Hrch as [?|Hrc]; [by left|right]. apply Hrc'. by left.
  - intros [Hrc|[-> _]]; apply Hrc'; [by left|by right].
Qed.

Context `{!FloatUCB F}.

(** The walk of [searchMove] ends on a leaf: every step goes to a child,
    stored after its parent. *)
Lemma descend_leaf board boards k h fuel a (g : R) n :
  search_inv board boards k h → h !! a = Some n →
  (length h ≤ a + fuel)%nat →
  ∃ a' n', h !! a' = Some n' ∧ (children_ n = [] → a' = a) ∧
           isLeafNode h a' = Some true ∧
           descend fuel h a g = leaf_step a' (h, g).
Proof.
  intros (Hpb & Hvi & Hsz & [Hlinks Hroots] & _ & Hgames & _).
  revert a n. induction fuel as [|fuel IH]; intros a n Ha Hfuel.
  { apply lookup_lt_Some in Ha. lia. }
  cbn [descend].
  destruct (isLeafNode_total h a n Hvi Ha) as (leaf & Hleaf & Hnil & Hnot).
  rewrite Hleaf. cbn [mbind option_bind]. destruct leaf.
  { by exists a, n. }
  specialize (Hnot eq_refl).
  destruct (getChildWithMaxValue_child f_lt calcUCB h a n Ha Hnot)
    as (c & Hc & Hin).
  { intros c Hc. destruct (Hlinks a n c Ha Hc) as (m & Hm & Hpm).
    destruct (Hvi c m Hm) as [_ Hpar].
    destruct (Hpar a Hpm) as (n0 & Hn0 & Hle).
    assert (n0 = n) as -> by congruence.
    rewrite (calcUCB_attached h a n c m Ha Hm Hpm Hle). by eexists. }
  unfold getChildWithMaxUCB. rewrite Hc. cbn [mbind option_bind].
  destruct (Hlinks a n c Ha Hin) as (m & Hm & Hpm).
  pose proof (Hpb c m a Hm Hpm) as Hlt.
  destruct (IH c m Hm) as (a' & n' & Ha' & _ & Hleaf' & Hdesc); [lia|].
  exists a', n'. split_and!; [done|done|done|done].
Qed.

(** One iteration of the loop of [searchMove]. *)
Lemma descend_search_inv board boards k h (g : R) :
  search_inv board boards k h →
  getNextStates board = Some boards → boards ≠ [] →
  0 ≤ k < 2 ^ 64 - 1 →
  ∃ h' g', descend (length h) h 0 g = Some (h', g') ∧
           search_inv board boards (k + 1) h' ∧
           root_children boards h'.
Proof.
  intros Hinv Hnext Hne Hk.
  pose proof Hinv
    as (_ & _ & _ & _ & _ & _ & root & Hroot & _ & _ & _ & _ & Hrch).
  destruct (descend_leaf board boards k h (length h) 0 g root Hinv Hroot)
    as (a & n & Ha & Hstay & _ & ->); [lia|].
  unfold leaf_step. cbn [fst snd].
  destruct (playout_search_inv board boards k h a g Hinv Hk)
    as (h1 & g1 & -> & Hinv1 & Hl1 & (m1 & Hm1 & Hg1) & Hrc1); [by eexists|].
  cbn [mbind option_bind].
  pose proof Hinv1 as (_ & Hvi1 & Hsz1 & [_ Hroots1] & _ & _ & root1 & Hroot1
                       & _ & Hrb1 & _ & Hrpass1 & _).
  assert (is_Some (expand h1 a)) as [h2 Hex].
  { destruct (parent_ m1) as [p|] eqn:Hp.
    - by apply (expand_total h1 a m1).
    - rewrite (Hroots1 a m1 Hm1 Hp).
      apply (expand_root_total h1 root1 boards); [done|done| |done].
      by rewrite Hrb1. }
  rewrite Hex. cbn [mbind option_bind]. exists h2, g1. split; [done|].
  destruct (expand_search_inv board boards (k + 1) h1 a h2 Hinv1 Hnext Hne Hex)
    as [Hinv2 Hrc2].
  split; [done|]. apply Hrc2.
  destruct Hrch as [Hnil|Hrc]; [right|left; by apply Hrc1].
  split; [by apply Hstay|lia].
Qed.

Lemma search_loop_inv board boards iterations k h (g : R) :
  search_inv board boards k h →
  getNextStates board = Some boards → boards ≠ [] →
  0 ≤ k → k + Z.of_nat iterations < 2 ^ 64 →
  ∃ h' g', search_loop iterations (h, g) = Some (h', g') ∧
           search_inv board boards (k + Z.of_nat iterations) h' ∧
           (iterations ≠ 0%nat → root_children boards h').
Proof.
  intros Hinv Hnext Hne. revert k h g Hinv.
  induction iterations as [|iterations IH]; intros k h g Hinv Hk Hlt.
  - exists h, g. cbn [search_loop]. split; [done|].
    rewrite Z.add_0_r. by split.
  - cbn [search_loop fst snd].
    destruct (descend_search_inv board boards k h g Hinv Hnext Hne)
      as (h1 & g1 & -> & Hinv1 & Hrc1); [lia|].
    cbn [mbind option_bind].
    destruct (IH (k + 1) h1 g1 Hinv1) as (h' & g' & Hloop & Hinv' & Hrc');
      [lia|lia|].
    exists h', g'. split; [done|].
    replace (k + Z.of_nat (S iterations)) with (k + 1 + Z.of_nat iterations)
      by lia.
    split; [done|]. intros _.
    destruct iterations; [|by apply Hrc'].
    cbn [search_loop] in Hloop. by injection Hloop as <- <-.
Qed.

Lemma new_root_search_inv board boards :
  length board = 64%nat →
  search_inv board boards 0 [new_Node (F := F) board PBLACK None].
Proof.
  intros Hlen. split_and!.
  - intros [|a] n p Ha Hp; [by injection Ha as <-|done].
  - intros [|a] n Ha; [injection Ha as <-|done]. by split.
  - intros [|a] n Ha; [by injection Ha as <-|done].
  - split.
    + intros [|a] n c Ha Hc; [injection Ha as <-|done].
      by apply elem_of_nil in Hc.
    + intros [|a] n Ha _; [done|done].
  - intros [|a] n c m Ha Hc; [injection Ha as <-|done].
    by apply elem_of_nil in Hc.
  - intros [|a] n Ha; [by injection Ha as <-|done].
  - eexists. split; [done|]. split_and!; [done..|by left].
Qed.

Lemma expand_new_root board :
  expand [new_Node (F := F) board PBLACK None] 0
  = Some [new_Node board PBLACK None].
Proof. done. Qed.

(** The cases of [searchMove]. *)
Lemma searchMove_cases (iterations : nat) (board : Board)
        (g : R) :
  length board = 64%nat → Z.of_nat iterations < 2 ^ 64 →
  ∃ boards, getNextStates board = Some boards ∧
    (boards = [] → searchMove iterations board g = Some (flipped board, g)) ∧
    (∀ only, boards = [only] →
             searchMove iterations board g = Some (only, g)) ∧
    ((2 ≤ length boards)%nat →
     searchMove 0 board g = None ∧
     (iterations ≠ 0%nat →
      ∃ h nb g',
        search_tree iterations board g = Some (h, g') ∧
        getNumGames h 0 = Some (Z.of_nat iterations) ∧
        searchMove iterations board g = Some (nb, g') ∧
        nb ∈ boards ∧ successor_of board nb)).
Proof.
  intros Hlen Hit.
  destruct (getNextStates_total board Hlen) as [boards Hnext].
  exists boards. split; [done|]. unfold searchMove. rewrite Hnext.
  cbn [mbind option_bind]. split_and!.
  - by intros ->.
  - by intros only ->.
  - intros Hlen2.
    destruct boards as [|b1 [|b2 boards]]; [cbn in Hlen2; lia..|].
    set (bs := b1 :: b2 :: boards) in *.
    assert (bs ≠ []) as Hne by done.
    unfold search_tree. rewrite expand_new_root. cbn [mbind option_bind].
    split; [done|]. intros Hit0.
    destruct (search_loop_inv board bs iterations 0
                [new_Node board PBLACK None] g)
      as (h & g' & Hloop & Hinv & Hrc);
      [by apply new_root_search_inv|done|done|lia|lia|].
    rewrite Hloop. cbn [mbind option_bind].
    destruct (Hrc Hit0) as (root & Hroot & Hall).
    destruct Hinv as (_ & _ & _ & _ & _ & _ & root' & Hroot' & _ & _ & Hg & _).
    assert (root' = root) as -> by congruence.
    assert (children_ root ≠ []) as Hch.
    { intros Hnil. rewrite Hnil in Hall. by apply Forall2_nil_inv_l in Hall. }
    destruct (getChildWithMaxValue_child Z.ltb
                (fun h c => n ← h !! c; Some (games_ n)) h 0 root Hroot Hch)
      as (c & Hc & Hin).
    { intros c Hc. apply list_elem_of_lookup in Hc as [i Hi].
      destruct (Forall2_lookup_l _ _ _ _ _ Hall Hi) as (nb & _ & Hnb).
      unfold getBoard in Hnb. destruct (h !! c); [by eexists|done]. }
    unfold getChildWithMaxVisits. rewrite Hc. cbn [mbind option_bind].
    apply list_elem_of_lookup in Hin as [i Hi].
    destruct (Forall2_lookup_l _ _ _ _ _ Hall Hi) as (nb & Hnb & Hbd).
    rewrite Hbd. cbn [mbind option_bind].
    exists h, nb, g'. split_and!; [done| |done| |].
    + unfold getNumGames. rewrite Hroot. cbn. f_equal. lia.
    + by eapply list_elem_of_lookup_2.
    + eapply getNextStates_successors; [done|].
      by eapply list_elem_of_lookup_2.
Qed.

(** X15. [searchMove] plays a legal move, and never trips an assertion
    once the clock lets one iteration through. On a board without a move
    it passes and returns the flipped board, and the only move when there
    is just one. With two moves or more and at least one iteration of the
    loop it returns one of the boards of [getNextStates], and the root
    has as many visits as there were iterations; with no iteration at all
    the root has no children and [getChildWithMaxVisits] fails its
    assertion. *)
Theorem searchMove_plays_legal_move (iterations : nat) (board : Board)
        (g : R) :
  length board = 64%nat → Z.of_nat iterations < 2 ^ 64 →
  ∃ boards, getNextStates board = Some boards ∧
    (boards = [] → searchMove iterations board g = Some (flipped board, g)) ∧
    (∀ only, boards = [only] →
             searchMove iterations board g = Some (only, g)) ∧
    ((2 ≤ length boards)%nat →
     searchMove 0 board g = None ∧
     (iterations ≠ 0%nat →
      ∃ h nb g',
        search_tree iterations board g = Some (h, g') ∧
        getNumGames h 0 = Some (Z.of_nat iterations) ∧
        searchMove iterations board g = Some (nb, g') ∧
        nb ∈ boards ∧ successor_of board nb)).
Proof. apply searchMove_cases. Qed.

(** X16. The store that the loop of [searchMove] builds is a game tree
    after any number of iterations: parents are stored before their
    children, children and parent pointers agree, every child holds a
    successor of its parent's board (or the pass) for the other player,
    no node has more visits than its parent or than there were
    iterations, and the root, with the given board, has exactly as many
    visits as there were iterations; from the first iteration on its
    children are the boards of [getNextStates], in order. *)
Theorem search_tree_is_game_tree (iterations : nat) (board : Board) (g : R)
        (boards : list Board) :
  length board = 64%nat → getNextStates board = Some boards → boards ≠ [] →
  Z.of_nat iterations < 2 ^ 64 →
  ∃ h g', search_tree iterations board g = Some (h, g') ∧
    parents_before h ∧ visit_inv h ∧ boards_sized h ∧ well_linked h ∧
    game_tree h ∧
    (∀ a n, h !! a = Some n → 0 ≤ games_ n ≤ Z.of_nat iterations) ∧
    getBoard h 0 = Some board ∧
    getNumGames h 0 = Some (Z.of_nat iterations) ∧
    (iterations ≠ 0%nat → root_children boards h).
Proof.
  intros Hlen Hnext Hne Hit.
  unfold search_tree. rewrite expand_new_root. cbn [mbind option_bind].
  destruct (search_loop_inv board boards iterations 0
              [new_Node board PBLACK None] g)
    as (h & g' & Hloop & Hinv & Hrc);
    [by apply new_root_search_inv|done|done|lia|lia|].
  exists h, g'. split; [done|].
  destruct Hinv as (Hpb & Hvi & Hsz & Hwl & Hgt & Hgames & root & Hroot & _
                    & Hrb & Hrg & _).
  rewrite Z.add_0_l in Hgames, Hrg.
  split_and!; [done..| | |done].
  - unfold getBoard. rewrite Hroot. cbn. by f_equal.
  - unfold getNumGames. rewrite Hroot. cbn. by f_equal.
Qed.

End SearchProps.

Lemma expand_adds_successors_witness :
  ∃ h', expand endgame_root_evaluated 0 = Some h' ∧
        length h' = (length endgame_root_evaluated + 2)%nat.
Proof.
  let n := eval vm_compute in
    (default (new_Node [] PBLACK None) (endgame_root_evaluated !! 0%nat)) in
  let bs := eval vm_compute in (default [] (getNextStates endgame_board)) in
  destruct (expand_adds_successors endgame_root_evaluated 0 n bs)
    as (h' & He & Hl & _);
    [reflexivity|reflexivity|reflexivity|by vm_compute
    |by vm_compute|discriminate|].
  exists h'. split; [exact He|exact Hl].
Defined.

Lemma expand_idempotent_witness :
  ∃ h', expand endgame_tree_evaluated 3 = Some h' ∧ expand h' 3 = Some h'.
Proof.
  eexists. split; [by vm_compute|].
  apply (expand_idempotent endgame_tree_evaluated). by vm_compute.
Defined.

Lemma searchMove_plays_legal_move_witness :
  ∃ boards, getNextStates endgame_board = Some boards ∧
    (boards = [] →
     searchMove (FloatUCB0 := example_ucb) 2 endgame_board (42 : Z)
     = Some (flipped endgame_board, 42)) ∧
    (∀ only, boards = [only] →
     searchMove (FloatUCB0 := example_ucb) 2 endgame_board (42 : Z)
     = Some (only, 42)) ∧
    ((2 ≤ length boards)%nat →
     searchMove (FloatUCB0 := example_ucb) 0 endgame_board (42 : Z) = None ∧
     (2%nat ≠ 0%nat →
      ∃ h nb g',
        search_tree (FloatUCB0 := example_ucb) 2 endgame_board (42 : Z)
        = Some (h, g') ∧
        getNumGames h 0 = Some (Z.of_nat 2) ∧
        searchMove (FloatUCB0 := example_ucb) 2 endgame_board (42 : Z)
        = Some (nb, g') ∧
        nb ∈ boards ∧ successor_of endgame_board nb)).
Proof.
  apply (searchMove_plays_legal_move (FloatUCB0 := example_ucb));
    [reflexivity|by vm_compute].
Defined.

Lemma search_tree_is_game_tree_witness :
  ∃ h g',
    search_tree (FloatUCB0 := example_ucb) 2 endgame_board (42 : Z)
    = Some (h, g') ∧
    parents_before h ∧ visit_inv h ∧ boards_sized h ∧ well_linked h ∧
    game_tree h ∧
    (∀ a n, h !! a = Some n → 0 ≤ games_ n ≤ Z.of_nat 2) ∧
    getBoard h 0 = Some endgame_board ∧
    getNumGames h 0 = Some (Z.of_nat 2) ∧
    (2%nat ≠ 0%nat →
     root_children (default [] (getNextStates endgame_board)) h).
Proof.
  apply (search_tree_is_game_tree (FloatUCB0 := example_ucb));
    [reflexivity|by vm_compute|by vm_compute|by vm_compute].
Defined.

(** * More about the tree *)

(** X17. [flipPlayer] is an involution, and so is [flipped]: the board
    comes back after two passes. It keeps the number of cells, the empty
    cells and whether the board is full. *)
Theorem flipPlayer_twice (b : Board) :
  flipPlayer (flipPlayer b) = b ∧ flipped (flipped b) = b ∧
  length (flipPlayer b) = length b ∧
  empty_mask (flipPlayer b) = empty_mask b ∧
  isFilled (flipPlayer b) = isFilled b.
Proof.
  split_and!.
  - apply flipPlayer_involutive.
  - apply flipPlayer_involutive.
  - apply flipPlayer_length.
  - apply empty_mask_flipPlayer.
  - unfold isFilled, flipPlayer. induction b as [|c b IH]; [done|].
    cbn [map forallb]. rewrite IH. by destruct c.
Qed.

(** ** The values a playout propagates *)

Lemma occupation_exact_all : forallb occupation_exact (seqZ 0 65) = true.
Proof. by vm_compute. Qed.

Lemma denotes_spec f q :
  denotes f q = true → ∃ q', SF2Q f = Some q' ∧ (q' == q)%Q.
Proof.
  unfold denotes. destruct (SF2Q f) as [q'|]; [|done].
  intros Heq. exists q'. split; [done|]. by apply Qeq_bool_iff.
Qed.

Lemma count_black_range (b : Board) :
  length b = 64%nat → 0 ≤ count_black b ≤ 64.
Proof.
  intros Hlen. rewrite count_black_cells by lia.
  pose proof (count_cells_total b). lia.
Qed.

(** X18. In binary32 the occupation of a board of 64 cells is computed
    without rounding, and so is one minus the occupation: the values that
    [playout] hands to [propagateResult] are the exact fractions, and the
    change of side applied twice gives the value back. *)
Theorem occupation_exact_in_binary32 (b : Board) :
  length b = 64%nat →
  (∃ q, SF2Q (getBlackOccupation (F := spec_float) b) = Some q ∧
        (q == count_black b # 64)%Q) ∧
  (∃ q, SF2Q (f_sub (f_of_int 1) (getBlackOccupation (F := spec_float) b))
        = Some q ∧
        (q == 1 - (count_black b # 64))%Q) ∧
  SFeqb (f_sub (f_of_int 1)
               (f_sub (f_of_int 1) (getBlackOccupation (F := spec_float) b)))
        (getBlackOccupation (F := spec_float) b) = true.
Proof.
  intros Hlen. pose proof (count_black_range b Hlen) as Hk.
  change (getBlackOccupation (F := spec_float) b)
    with (occupation_of (count_black b)).
  pose proof occupation_exact_all as Hall.
  rewrite forallb_forall in Hall.
  specialize (Hall (count_black b)).
  assert (occupation_exact (count_black b) = true) as Hex.
  { apply Hall. apply list_elem_of_In. apply elem_of_seqZ. lia. }
  unfold occupation_exact in Hex.
  apply andb_true_iff in Hex as [Hex H3].
  apply andb_true_iff in Hex as [H1 H2].
  split_and!; [by apply denotes_spec|by apply denotes_spec|done].
Qed.

Lemma occupation_exact_in_binary32_witness :
  (∃ q, SF2Q (getBlackOccupation (F := spec_float) initial_board) = Some q ∧
        (q == count_black initial_board # 64)%Q) ∧
  (∃ q, SF2Q (f_sub (f_of_int 1)
                    (getBlackOccupation (F := spec_float) initial_board))
        = Some q ∧
        (q == 1 - (count_black initial_board # 64))%Q) ∧
  SFeqb (f_sub (f_of_int 1)
               (f_sub (f_of_int 1)
                      (getBlackOccupation (F := spec_float) initial_board)))
        (getBlackOccupation (F := spec_float) initial_board) = true.
Proof. apply occupation_exact_in_binary32. reflexivity. Defined.

(** ** What [expand] leaves alone *)

Section ExpandFrame.
Context {F : Type} `{FloatArith F}.

(** X19. [expand] never removes a node and never touches a statistic: every
    node of the store keeps its board, its player, its visits, its mean
    and its parent, and every node but the expanded one is kept as it
    is; a node it adds has no visit, no child, no pass flag, and the
    expanded node as its parent. *)
Theorem expand_frame (h : Heap F) (a : nat) (h' : Heap F) :
  expand h a = Some h' →
  (length h ≤ length h')%nat ∧
  (∀ c m, h !! c = Some m →
     ∃ m', h' !! c = Some m' ∧
           board_ m' = board_ m ∧ player_ m' = player_ m ∧
           games_ m' = games_ m ∧ mean_ m' = mean_ m ∧
           parent_ m' = parent_ m ∧ (c ≠ a → m' = m)) ∧
  (∀ c m', (length h ≤ c)%nat → h' !! c = Some m' →
     games_ m' = 0 ∧ children_ m' = [] ∧ isPassMove_ m' = false ∧
     parent_ m' = Some a).
Proof.
  intros Hex.
  apply expand_cases in Hex
    as (n & Ha & [[-> _]|(Hch & Hg & boards & bs & Hnext & -> & _)]).
  { split; [done|]. split.
    - intros c m Hc. by exists m.
    - intros c m' Hc Hm'. apply lookup_lt_Some in Hm'. lia. }
  pose proof (lookup_lt_Some _ _ _ Ha) as Hlt.
  assert (<[a := set_isPassMove (bool_decide (boards = [])) n]> h !! a
          = Some (set_isPassMove (bool_decide (boards = [])) n)) as Ha1
    by (by apply list_lookup_insert_eq).
  destruct (emplace_children_spec a (other_player (player_ n)) bs _ _ Ha1)
    as (Hl & Ha' & Hnew & Hold).
  rewrite length_insert in Hl, Ha', Hnew, Hold.
  split; [lia|]. split.
  - intros c m Hc. destruct (decide (c = a)) as [->|Hca].
    + assert (m = n) as -> by congruence.
      eexists. split; [exact Ha'|]. by split_and!.
    + exists m. split; [|by split_and!].
      rewrite Hold; [|done|by eapply lookup_lt_Some].
      by rewrite list_lookup_insert_ne.
  - intros c m' Hc Hm'. pose proof (lookup_lt_Some _ _ _ Hm') as Hc'.
    destruct (lookup_lt_is_Some_2 bs (c - length h)) as [b Hb]; [lia|].
    specialize (Hnew _ _ Hb).
    replace (length h + (c - length h))%nat with c in Hnew by lia.
    assert (m' = new_Node b (other_player (player_ n)) (Some a)) as ->
      by congruence.
    done.
Qed.

End ExpandFrame.

Lemma expand_frame_witness :
  ∃ h', expand endgame_root_evaluated 0 = Some h' ∧
  (length endgame_root_evaluated ≤ length h')%nat ∧
  (∀ c m, endgame_root_evaluated !! c = Some m →
     ∃ m', h' !! c = Some m' ∧
           board_ m' = board_ m ∧ player_ m' = player_ m ∧
           games_ m' = games_ m ∧ mean_ m' = mean_ m ∧
           parent_ m' = parent_ m ∧ (c ≠ 0%nat → m' = m)) ∧
  (∀ c m', (length endgame_root_evaluated ≤ c)%nat → h' !! c = Some m' →
     games_ m' = 0 ∧ children_ m' = [] ∧ isPassMove_ m' = false ∧
     parent_ m' = Some 0%nat).
Proof.
  eexists. split; [by vm_compute|].
  apply expand_frame. by vm_compute.
Defined.

(** * The game loop *)

Lemma count_empty_flipPlayer (b : Board) :
  count_empty (flipPlayer b) = count_empty b.
Proof. apply count_empty_mask, empty_mask_flipPlayer. Qed.

Section MainProps.
Context {F : Type} `{FloatArith F} `{!FloatUCB F} {R : Type} `{RandomEngine R}.

(** X20. One pass through the loop of [main] never frees a cell. When
    [put] refuses the characters read, the board is unchanged or has one
    empty cell fewer (the stone of a refused move on a free cell); when
    it accepts them, [searchMove] returns, given one iteration at least,
    and the board after it has one empty cell fewer (the program had to
    pass) or two. All these boards have their 64 cells. *)
Theorem main_step_progress (iterations : nat) (current : Board)
        (c0 c1 : ascii) (g : R) :
  length current = 64%nat → iterations ≠ 0%nat →
  Z.of_nat iterations < 2 ^ 64 →
  ∃ res, main_step iterations current c0 c1 g = Some res ∧
    match res with
    | inl b =>
        length b = 64%nat ∧
        (b = current ∨ S (count_empty b) = count_empty current)
    | inr (b, _) =>
        length b = 64%nat ∧
        (S (count_empty b) = count_empty current ∨
         S (S (count_empty b)) = count_empty current)
    end.
Proof.
  intros Hlen Hit0 Hit. unfold main_step, read_move.
  pose proof (move_x_range c0) as Hx. pose proof (move_y_range c1) as Hy.
  destruct (put_total current _ _ Hlen Hx Hy) as [[ok b1] Hput].
  rewrite Hput. cbn [mbind option_bind].
  pose proof (put_length _ _ _ _ _ Hx Hy Hput) as Hlen1. rewrite Hlen in Hlen1.
  destruct (put_frame _ _ _ _ _ Hx Hy Hput)
    as [(-> & -> & _)|(_ & _ & Hfree & [Hmask _] & _)].
  { eexists. split; [done|]. split; [done|by left]. }
  assert (S (count_empty b1) = count_empty current) as Hcount.
  { rewrite (count_empty_mask _ _ Hmask). by apply count_empty_fill. }
  destruct ok; [|eexists; split; [done|]; split; [done|by right]].
  assert (length (flipPlayer b1) = 64%nat) as Hlen2
    by (by rewrite flipPlayer_length).
  destruct (searchMove_cases iterations (flipPlayer b1) g Hlen2 Hit)
    as (boards & Hnext & Hnone & Hone & Hmany).
  assert (∀ nb, nb ∈ boards →
            length nb = 64%nat ∧
            S (S (count_empty nb)) = count_empty current) as Hsucc.
  { intros nb Hnb.
    destruct (successor_of_count (flipPlayer b1) nb) as [Hl Hc];
      [by eapply getNextStates_successors|].
    rewrite count_empty_flipPlayer in Hc. split; [congruence|lia]. }
  destruct boards as [|b2 [|b3 boards]].
  - rewrite Hnone by done. cbn [mbind option_bind]. eexists. split; [done|].
    unfold flipped. rewrite flipPlayer_involutive. split; [done|by left].
  - rewrite (Hone b2) by done. cbn [mbind option_bind].
    eexists. split; [done|].
    destruct (Hsucc b2) as [? ?]; [apply elem_of_cons; by left|].
    split; [done|by right].
  - destruct Hmany as [_ Hmany]; [cbn; lia|].
    destruct (Hmany Hit0) as (h & nb & g' & _ & _ & -> & Hin & _).
    cbn [mbind option_bind]. eexists. split; [done|].
    destruct (Hsucc nb Hin) as [? ?]. split; [done|by right].
Qed.

End MainProps.

Lemma main_step_progress_witness :
  ∃ res, main_step (FloatUCB0 := example_ucb) 2 endgame_board "a" "1" (42 : Z)
         = Some res ∧
    match res with
    | inl b =>
        length b = 64%nat ∧
        (b = endgame_board ∨ S (count_empty b) = count_empty endgame_board)
    | inr (b, _) =>
        length b = 64%nat ∧
        (S (count_empty b) = count_empty endgame_board ∨
         S (S (count_empty b)) = count_empty endgame_board)
    end.
Proof.
  apply (main_step_progress (FloatUCB0 := example_ucb));
    [reflexivity|discriminate|by vm_compute].
Defined.

(** * How the visits are shared *)

Section Visits.
Context {F : Type} `{FloatArith F}.
Implicit Types (h : Heap F) (n m : Node F).

Lemma reaches_any_value h a v b w v' :
  reaches h a v b w → ∃ w', reaches h a v' b w'.
Proof.
  intros Hr. revert v'.
  induction Hr as [a v|a v n p b w Ha Hp Hr IH]; intros v'.
  - exists v'. constructor.
  - destruct (IH (f_sub (f_of_int 1) v')) as [w' Hw'].
    exists w'. by eapply reaches_parent.
Qed.

Lemma reaches_from_root h v b w root :
  h !! 0%nat = Some root → parent_ root = None →
  reaches h 0 v b w → b = 0%nat.
Proof.
  intros Hroot Hnone Hr.
  inversion Hr as [|? ? n p ? ? Ha Hp _]; subst; [done|]. congruence.
Qed.

(** A node other than the root has a child of the root among its
    ancestors, itself included, ... *)
Lemma root_child_on_path h a n v :
  parents_before h → visit_inv h → well_linked h →
  h !! a = Some n → a ≠ 0%nat →
  ∃ c m w, reaches h a v c w ∧ h !! c = Some m ∧ parent_ m = Some 0%nat.
Proof.
  intros Hpb Hvi [_ Hroots]. revert n v.
  induction (lt_wf a) as [a _ IH]. intros n v Ha Hne.
  destruct (parent_ n) as [p|] eqn:Hp; [|by destruct (Hne (Hroots a n Ha Hp))].
  destruct (decide (p = 0%nat)) as [->|Hp0].
  - exists a, n, v. split; [constructor|done].
  - destruct (Hvi a n Ha) as [_ Hpar]. destruct (Hpar p Hp) as (pn & Hpn & _).
    destruct (IH p (Hpb a n p Ha Hp) pn (f_sub (f_of_int 1) v) Hpn Hp0)
      as (c & m & w & Hr & Hc & Hm).
    exists c, m, w. split; [by eapply reaches_parent|done].
Qed.

(** ... and only one. *)
Lemma root_child_unique h a v c w c' w' root m m' :
  h !! 0%nat = Some root → parent_ root = None →
  reaches h a v c w → h !! c = Some m → parent_ m = Some 0%nat →
  reaches h a v c' w' → h !! c' = Some m' → parent_ m' = Some 0%nat →
  c = c'.
Proof.
  intros Hroot Hnone Hr. revert c' w' m m'.
  induction Hr as [a v|a v n p b w Ha Hp Hr IH];
    intros c' w' m m' Hm Hpm Hr' Hm' Hpm'.
  - inversion Hr' as [|? ? n p ? ? Ha Hp Hup]; subst; [done|].
    assert (p = 0%nat) as -> by congruence.
    apply (reaches_from_root _ _ _ _ _ Hroot Hnone) in Hup. subst c'.
    congruence.
  - inversion Hr' as [|? ? n' p' ? ? Ha' Hp' Hup]; subst.
    + assert (p = 0%nat) as -> by congruence.
      apply (reaches_from_root _ _ _ _ _ Hroot Hnone) in Hr. subst b.
      congruence.
    + assert (p' = p) as -> by congruence. by eapply IH.
Qed.

Lemma sum_games_same h h' cs :
  (∀ c, c ∈ cs → getNumGames h' c = getNumGames h c) →
  sum_games h' cs = sum_games h cs.
Proof.
  induction cs as [|c cs IH]; intros Hsame; [done|].
  cbn [sum_games foldr]. fold (sum_games h' cs). fold (sum_games h cs).
  rewrite Hsame by (apply elem_of_cons; by left).
  rewrite IH; [done|]. intros c' Hc'. apply Hsame, elem_of_cons. by right.
Qed.

Lemma sum_games_bump h h' cs c0 g0 :
  NoDup cs → c0 ∈ cs →
  getNumGames h c0 = Some g0 → getNumGames h' c0 = Some (g0 + 1) →
  (∀ c, c ∈ cs → c ≠ c0 → getNumGames h' c = getNumGames h c) →
  sum_games h' cs = sum_games h cs + 1.
Proof.
  intros Hnd Hin H0 H0' Hother.
  induction cs as [|c cs IH]; [by apply elem_of_nil in Hin|].
  apply NoDup_cons in Hnd as [Hc Hnd].
  cbn [sum_games foldr]. fold (sum_games h' cs). fold (sum_games h cs).
  destruct (decide (c = c0)) as [->|Hne].
  - rewrite H0, H0'. cbn [default]. unfold id.
    rewrite (sum_games_same h h' cs); [lia|].
    intros c Hc'. apply Hother; [apply elem_of_cons; by right|].
    by intros ->.
  - rewrite Hother by (done || (apply elem_of_cons; by left)).
    rewrite IH; [lia|done| |].
    + apply elem_of_cons in Hin as [->|Hin]; done.
    + intros c' Hc'. apply Hother. apply elem_of_cons. by right.
Qed.

Lemma sum_games_zero h cs :
  (∀ c, c ∈ cs → getNumGames h c = Some 0) → sum_games h cs = 0.
Proof.
  induction cs as [|c cs IH]; intros Hz; [done|].
  cbn [sum_games foldr]. fold (sum_games h cs).
  rewrite Hz by (apply elem_of_cons; by left). cbn [default]. unfold id.
  rewrite IH; [done|]. intros c' Hc'. apply Hz, elem_of_cons. by right.
Qed.

Context {R : Type} `{RandomEngine R}.

(** The visits after [playout]: one more for the node and its ancestors,
    and no change elsewhere. *)
Lemma playout_visits h a (g : R) n :
  parents_before h → games_bounded h → boards_sized h → h !! a = Some n →
  ∃ h' g', playout PLAYOUT_FUEL h a g = Some (h', g') ∧
    (∀ b m, h !! b = Some m → ancestor h a b →
            getNumGames h' b = Some (games_ m + 1)) ∧
    (∀ b, ¬ ancestor h a b → h' !! b = h !! b).
Proof.
  intros Hpb Hbnd Hsz Ha.
  destruct (playout_propagates h a g n Ha (Hsz a n Ha)) as (v & g' & Hplay).
  pose proof (lookup_lt_Some _ _ _ Ha) as Hlt.
  destruct (propagateResult_spec (length h) h a v Hpb)
    as (h' & Hprop & Hl & Hr & Hn); [by eexists|done|].
  rewrite Hprop in Hplay. cbn [mbind option_bind] in Hplay.
  exists h', g'. split; [done|]. split.
  - intros b m Hb (v' & w' & Hw').
    destruct (reaches_any_value h a v' b w' v Hw') as [w Hw].
    unfold getNumGames. rewrite (Hr b w Hw), Hb. cbn. f_equal.
    apply to_size_t_small. specialize (Hbnd b m Hb). lia.
  - intros b Hnot. apply Hn. intros w Hw. apply Hnot. by exists v, w.
Qed.

Lemma playout_shared board boards k h a (g : R) h1 g1 :
  search_inv board boards k h → visits_shared 0 k h →
  0 ≤ k < 2 ^ 64 - 1 → is_Some (h !! a) →
  (a = 0%nat → ∀ root, h !! 0%nat = Some root → children_ root = []) →
  playout PLAYOUT_FUEL h a g = Some (h1, g1) →
  visits_shared 1 (k + 1) h1.
Proof.
  intros Hinv (root & Hroot & Hnd & Hconv & Hnil & Hsum) Hk [n Ha] Hleaf Hplay.
  pose proof Hinv as (Hpb & Hvi & Hsz & Hwl & _ & Hgames & root0 & Hroot0 & Hrp
                      & _).
  assert (root0 = root) as -> by congruence.
  assert (games_bounded h) as Hbnd.
  { intros b m Hb. specialize (Hgames b m Hb). lia. }
  destruct (playout_nodes h a g n Hpb Hvi Hbnd Hsz Ha)
    as (h1' & g1' & Hplay' & _ & _ & Hl & Hnodes & _).
  rewrite Hplay in Hplay'. injection Hplay' as <- <-.
  destruct (playout_visits h a g n Hpb Hbnd Hsz Ha)
    as (h1' & g1' & Hplay' & Hup & Hsame).
  rewrite Hplay in Hplay'. injection Hplay' as <- <-.
  destruct (Hnodes 0%nat root Hroot)
    as (root1 & Hroot1 & (_ & _ & _ & _ & Hch) & _).
  exists root1. split; [done|]. rewrite Hch. split; [done|]. split_and!.
  - intros c m1 Hc Hp.
    destruct (lookup_lt_is_Some_2 h c) as [m Hm];
      [rewrite <- Hl; by eapply lookup_lt_Some|].
    destruct (Hnodes c m Hm) as (m1' & Hm1' & (_ & _ & _ & Hpar & _) & _).
    assert (m1' = m1) as -> by congruence.
    apply (Hconv c m Hm). congruence.
  - intros Hempty. rewrite (Hnil Hempty). done.
  - intros Hne.
    assert (a ≠ 0%nat) as Ha0.
    { intros ->. by destruct (Hne (Hleaf eq_refl root Hroot)). }
    destruct (root_child_on_path h a n (f_of_int 0) Hpb Hvi Hwl Ha Ha0)
      as (c & m & w & Hr & Hc & Hpm).
    replace (k + 1 - 1) with (k - 1 + 1) by lia. rewrite <- (Hsum Hne).
    apply (sum_games_bump h h1 (children_ root) c (games_ m)).
    + done.
    + by apply (Hconv c m).
    + unfold getNumGames. by rewrite Hc.
    + apply (Hup c m Hc). by exists (f_of_int 0), w.
    + intros c' Hc' Hne'. unfold getNumGames. rewrite Hsame; [done|].
      intros (v' & w' & Hr').
      destruct Hwl as [Hlinks _].
      destruct (Hlinks 0%nat root c' Hroot Hc') as (m' & Hm' & Hpm').
      destruct (reaches_any_value h a v' c' w' (f_of_int 0) Hr') as [w'' Hr''].
      apply Hne'. symmetry.
      by eapply (root_child_unique h a (f_of_int 0) c w c' w'' root m m').
Qed.

Lemma expand_shared board boards k h a h' :
  search_inv board boards k h → visits_shared 1 k h → 1 ≤ k →
  getNextStates board = Some boards → boards ≠ [] →
  (∀ root, h !! 0%nat = Some root → children_ root = [] → a = 0%nat) →
  expand h a = Some h' →
  visits_shared 0 k h'.
Proof.
  intros Hinv (root & Hroot & Hnd & Hconv & Hnil & Hsum) Hk Hnext Hne Hleaf
         Hex.
  pose proof Hinv as (Hpb & Hvi & Hsz & [Hlinks Hroots] & _ & Hgames & root0
                      & Hroot0 & Hrp & Hrb & Hrg & Hrpass & _).
  assert (root0 = root) as -> by congruence.
  destruct (expand_nodes h a h' Hsz Hex)
    as (n & Ha & [[-> Hwhy]|(pass & bs & Hch & Hg & Hmoves & Hparent & Hbs
                               & Hl & Ha' & Hnew & Hold)]).
  { assert (children_ root ≠ []) as Hhas.
    { intros Hempty. rewrite (Hleaf root Hroot Hempty) in Ha.
      assert (n = root) as -> by congruence.
      destruct Hwhy as [?|[?|?]]; [congruence|done|lia]. }
    exists root. split_and!; [done..| |done]. done. }
  pose proof (lookup_lt_Some _ _ _ Ha) as Hlt.
  pose proof (lookup_lt_Some _ _ _ Hroot) as Hlt0.
  assert (∀ c m', h' !! c = Some m' →
            (c ≠ a ∧ h !! c = Some m') ∨
            (c = a ∧ m' = add_children (seq (length h) (length bs))
                                       (set_isPassMove pass n)) ∨
            (∃ i b, c = (length h + i)%nat ∧ bs !! i = Some b ∧
                    m' = new_Node b (other_player (player_ n)) (Some a)))
    as Hcls.
  { intros c m' Hc. destruct (decide (c = a)) as [->|Hca].
    { right. left. split; [done|congruence]. }
    destruct (decide (c < length h)%nat) as [Hc0|Hc0].
    { left. split; [done|]. by rewrite <- Hold. }
    right. right. pose proof (lookup_lt_Some _ _ _ Hc) as Hc'.
    destruct (lookup_lt_is_Some_2 bs (c - length h)) as [b Hb]; [lia|].
    exists (c - length h)%nat, b. split; [lia|]. split; [done|].
    specialize (Hnew _ _ Hb).
    replace (length h + (c - length h))%nat with c in Hnew by lia.
    congruence. }
  destruct (decide (a = 0%nat)) as [->|Ha0].
  - assert (n = root) as -> by congruence.
    assert (pass = false ∧ bs = boards) as [-> ->].
    { destruct pass.
      - destruct (Hparent eq_refl) as [[p Hp] _]. congruence.
      - split; [done|]. destruct (Hmoves eq_refl) as [Hbs' _]. congruence. }
    eexists. split; [exact Ha'|].
    cbn [add_children children_ set_isPassMove]. rewrite Hch. cbn [app].
    split_and!.
    + apply NoDup_seq.
    + intros c m' Hc Hp.
      destruct (Hcls c m' Hc) as [[Hc0 Hc1]|[[-> ->]|(i & b & -> & Hb & ->)]].
      * specialize (Hconv c m' Hc1 Hp). rewrite Hch in Hconv.
        by apply elem_of_nil in Hconv.
      * cbn in Hp. congruence.
      * apply elem_of_seq. apply lookup_lt_Some in Hb. lia.
    + intros Hempty. destruct boards; [done|]. done.
    + intros _. rewrite (Hnil Hch).
      apply sum_games_zero. intros c Hc. apply elem_of_seq in Hc.
      destruct (lookup_lt_is_Some_2 boards (c - length h)) as [b Hb]; [lia|].
      specialize (Hnew _ _ Hb).
      replace (length h + (c - length h))%nat with c in Hnew by lia.
      unfold getNumGames. by rewrite Hnew.
  - assert (children_ root ≠ []) as Hhas.
    { intros Hempty. by destruct (Ha0 (Hleaf root Hroot Hempty)). }
    exists root. split; [by rewrite Hold|]. split; [done|]. split_and!.
    + intros c m' Hc Hp.
      destruct (Hcls c m' Hc) as [[Hc0 Hc1]|[[-> ->]|(i & b & -> & Hb & ->)]].
      * by apply (Hconv c m').
      * cbn in Hp. by apply (Hconv a n).
      * cbn in Hp. congruence.
    + done.
    + intros _. rewrite <- (Hsum Hhas). apply sum_games_same.
      intros c Hc. unfold getNumGames.
      destruct (Hlinks 0%nat root c Hroot Hc) as (m & Hm & _).
      destruct (decide (c = a)) as [->|Hca].
      * assert (m = n) as -> by congruence. by rewrite Ha', Ha.
      * rewrite Hold; [done|done|]. by eapply lookup_lt_Some.
Qed.

Context `{!FloatUCB F}.

(** One iteration of the loop, with the shares of the visits. *)
Lemma descend_shared board boards k h (g : R) :
  search_inv board boards k h → visits_shared 0 k h →
  getNextStates board = Some boards → boards ≠ [] →
  0 ≤ k < 2 ^ 64 - 1 →
  ∃ h' g', descend (length h) h 0 g = Some (h', g') ∧
           search_inv board boards (k + 1) h' ∧
           root_children boards h' ∧
           visits_shared 0 (k + 1) h'.
Proof.
  intros Hinv Hsh Hnext Hne Hk.
  pose proof Hinv
    as (_ & Hvi & Hsz & _ & _ & _ & root & Hroot & Hrp & Hrb & _ & _ & Hrch).
  destruct (descend_leaf board boards k h (length h) 0 g root Hinv Hroot)
    as (a & n & Ha & Hstay & Hleaf & Hdesc); [lia|].
  assert (a = 0%nat → children_ root = []) as Hroot_leaf.
  { intros ->. assert (n = root) as -> by congruence.
    unfold isLeafNode in Hleaf. rewrite Hroot in Hleaf.
    cbn [mbind option_bind] in Hleaf.
    case_bool_decide as Hch; [done|].
    destruct (isFilled (board_ root)) eqn:Hfilled.
    - rewrite Hrb in Hfilled.
      assert (length board = 64%nat) as Hlen
        by (rewrite <- Hrb; by eapply Hsz).
      rewrite (getNextStates_filled board Hlen Hfilled) in Hnext.
      congruence.
    - rewrite Hrp in Hleaf. done. }
  destruct (descend_search_inv board boards k h g Hinv Hnext Hne Hk)
    as (h' & g' & Hdesc' & Hinv' & Hrc').
  exists h', g'. split; [done|]. split; [done|]. split; [done|].
  rewrite Hdesc in Hdesc'. unfold leaf_step in Hdesc'. cbn [fst snd] in Hdesc'.
  destruct (playout_search_inv board boards k h a g Hinv Hk)
    as (h1 & g1 & Hplay & Hinv1 & Hl1 & _ & _); [by eexists|].
  rewrite Hplay in Hdesc'. cbn [mbind option_bind] in Hdesc'.
  destruct (expand h1 a) as [h2|] eqn:Hex; [|done].
  cbn [mbind option_bind] in Hdesc'. injection Hdesc' as <- <-.
  apply (expand_shared board boards (k + 1) h1 a h2); [done| |lia|done..| |done].
  - apply (playout_shared board boards k h a g h1 g1); [done..|by eexists| |done].
    intros Ha0 root' Hroot'. assert (root' = root) as -> by congruence.
    by apply Hroot_leaf.
  - intros root1 Hroot1 Hempty.
    pose proof Hinv as (Hpb & _ & _ & _ & _ & Hgames & _).
    assert (games_bounded h) as Hbnd.
    { intros b m Hb. specialize (Hgames b m Hb). lia. }
    destruct (playout_nodes h a g n Hpb Hvi Hbnd Hsz Ha)
      as (h1' & g1' & Hplay' & _ & _ & _ & Hnodes & _).
    rewrite Hplay in Hplay'. injection Hplay' as <- <-.
    destruct (Hnodes 0%nat root Hroot)
      as (root1' & Hroot1' & (_ & _ & _ & _ & Hch) & _).
    assert (root1' = root1) as -> by congruence.
    apply Hstay. congruence.
Qed.

Lemma search_loop_shared board boards iterations k h (g : R) :
  search_inv board boards k h → visits_shared 0 k h →
  getNextStates board = Some boards → boards ≠ [] →
  0 ≤ k → k + Z.of_nat iterations < 2 ^ 64 →
  ∃ h' g', search_loop iterations (h, g) = Some (h', g') ∧
           search_inv board boards (k + Z.of_nat iterations) h' ∧
           visits_shared 0 (k + Z.of_nat iterations) h' ∧
           (iterations ≠ 0%nat → root_children boards h').
Proof.
  intros Hinv Hsh Hnext Hne. revert k h g Hinv Hsh.
  induction iterations as [|iterations IH]; intros k h g Hinv Hsh Hk Hlt.
  - exists h, g. cbn [search_loop]. split; [done|].
    rewrite Z.add_0_r. by split_and!.
  - cbn [search_loop fst snd].
    destruct (descend_shared board boards k h g Hinv Hsh Hnext Hne)
      as (h1 & g1 & -> & Hinv1 & Hrc1 & Hsh1); [lia|].
    cbn [mbind option_bind].
    destruct (IH (k + 1) h1 g1 Hinv1 Hsh1)
      as (h' & g' & Hloop & Hinv' & Hsh' & Hrc'); [lia|lia|].
    exists h', g'. split; [done|].
    replace (k + Z.of_nat (S iterations)) with (k + 1 + Z.of_nat iterations)
      by lia.
    split; [done|]. split; [done|]. intros _.
    destruct iterations; [|by apply Hrc'].
    cbn [search_loop] in Hloop. by injection Hloop as <- <-.
Qed.

(** X21. The children of the root share its visits: after one iteration
    or more of the loop of [searchMove] the root has one child for every
    board of [getNextStates], no child is listed twice, and the visits of
    the children add up to the number of iterations less one, the first
    iteration being the playout of the root itself. *)
Theorem root_visits_are_shared (iterations : nat) (board : Board) (g : R)
        (boards : list Board) :
  length board = 64%nat → getNextStates board = Some boards → boards ≠ [] →
  iterations ≠ 0%nat → Z.of_nat iterations < 2 ^ 64 →
  ∃ h g' root,
    search_tree iterations board g = Some (h, g') ∧
    h !! 0%nat = Some root ∧
    NoDup (children_ root) ∧ length (children_ root) = length boards ∧
    games_ root = Z.of_nat iterations ∧
    sum_games h (children_ root) = Z.of_nat iterations - 1.
Proof.
  intros Hlen Hnext Hne Hit0 Hit.
  unfold search_tree. rewrite expand_new_root. cbn [mbind option_bind].
  destruct (search_loop_shared board boards iterations 0
              [new_Node board PBLACK None] g)
    as (h & g' & Hloop & Hinv & Hsh & Hrc);
    [by apply new_root_search_inv| |done|done|lia|lia|].
  { eexists. split; [done|]. cbn. split_and!; [constructor| |done|done].
    intros [|c] m Hc Hp; [|done]. injection Hc as <-. done. }
  destruct Hsh as (root & Hroot & Hnd & _ & _ & Hsum).
  destruct (Hrc Hit0) as (root' & Hroot' & Hall).
  assert (root' = root) as -> by congruence.
  destruct Hinv as (_ & _ & _ & _ & _ & _ & root' & Hroot'' & _ & _ & Hg & _).
  assert (root' = root) as -> by congruence.
  exists h, g', root. split_and!; [done|done|done| |lia|].
  - by apply Forall2_length in Hall.
  - rewrite Z.add_0_l in Hsum. apply Hsum. intros Hempty.
    rewrite Hempty in Hall. apply Forall2_nil_inv_l in Hall. done.
Qed.

End Visits.

Lemma root_visits_are_shared_witness :
  ∃ h g' root,
    search_tree (FloatUCB0 := example_ucb) 3 endgame_board (42 : Z)
    = Some (h, g') ∧
    h !! 0%nat = Some root ∧
    NoDup (children_ root) ∧
    length (children_ root)
    = length (default [] (getNextStates endgame_board)) ∧
    games_ root = Z.of_nat 3 ∧
    sum_games h (children_ root) = Z.of_nat 3 - 1.
Proof.
  apply (root_visits_are_shared (FloatUCB0 := example_ucb));
    [reflexivity|by vm_compute|by vm_compute|discriminate|by vm_compute].
Defined.

(** * The arithmetic of the scan *)

(** X22. The mixed arithmetic of the scan of [put] is exact. For a cell of
    the board, a step of -1, 0 or 1 in each coordinate and [n] up to 8:
    the products [n * dx] and [n * dy], formed in [size_t] and handed to
    [isInBound] as [int], make [isInBound] answer whether the cell
    [(x + n dx, y + n dy)] is on the board; and when it is, the sums
    [x + n * dx] and [y + n * dy], formed in [size_t], address that
    cell. No wrap-around shows. *)
Theorem put_scan_arithmetic (b : Board) (x y dx dy n : Z) :
  on_board x y → -1 ≤ dx ≤ 1 → -1 ≤ dy ≤ 1 → 0 ≤ n ≤ 8 →
  isInBound x y (to_int (step_mul n dx)) (to_int (step_mul n dy))
  = bool_decide (on_board (x + n * dx) (y + n * dy)) ∧
  (on_board (x + n * dx) (y + n * dy) →
   Board_at b (to_size_t (x + step_mul n dx)) (to_size_t (y + step_mul n dy))
   = b !! pos_of (x + n * dx) (y + n * dy)).
Proof.
  intros [Hx Hy] Hdx Hdy Hn. split.
  - rewrite !to_int_step_mul by done.
    assert (-8 ≤ n * dx ≤ 8) by nia. assert (-8 ≤ n * dy ≤ 8) by nia.
    by rewrite isInBound_small.
  - intros [Hx' Hy']. unfold Board_at, cells_at.
    change (Z.to_nat (cell_index (to_size_t (x + step_mul n dx))
                                 (to_size_t (y + step_mul n dy))))
      with (ray_pos x y dx dy n).
    by rewrite ray_pos_small.
Qed.

Lemma put_scan_arithmetic_witness :
  isInBound 3 3 (to_int (step_mul 2 (-1))) (to_int (step_mul 2 1))
  = bool_decide (on_board (3 + 2 * -1) (3 + 2 * 1)) ∧
  (on_board (3 + 2 * -1) (3 + 2 * 1) →
   Board_at initial_board (to_size_t (3 + step_mul 2 (-1)))
            (to_size_t (3 + step_mul 2 1))
   = initial_board !! pos_of (3 + 2 * -1) (3 + 2 * 1)).
Proof.
  apply (put_scan_arithmetic initial_board 3 3 (-1) 1 2);
    [unfold on_board; lia|lia|lia|lia].
Defined.

(** * Layout strings *)

Lemma parseCell_layout_cell chr : parseCell chr = layout_cell chr.
Proof. by destruct chr as [[] [] [] [] [] [] [] []]. Qed.

Lemma length_list_ascii_of_string str :
  length (list_ascii_of_string str) = String.length str.
Proof. induction str; cbn; congruence. Qed.

Lemma mapM_layout_cell str :
  mapM layout_cell str = mapM parseCell str.
Proof.
  induction str as [|chr rest IH]; [done|].
  cbn. by rewrite IH, parseCell_layout_cell.
Qed.

(** C10. [parseCell] reads ['X'] and ['x'] as black and ['O'] and ['o'] as
    white, and it reads exactly the characters of the layout table. The
    constructor, on an array of 64 cells, builds from the lowercase and
    from the uppercase form of a string what it builds from the string;
    from a string of 64 layout characters, in either case or mixed, it
    builds the board those characters name; and every board of 64 cells
    is built from its layout string written in lowercase. *)
Theorem Board_of_string_case_insensitive (cells0 : Board) :
  length cells0 = 64%nat →
  (parseCell "X" = Some BLACK ∧ parseCell "x" = Some BLACK ∧
   parseCell "O" = Some WHITE ∧ parseCell "o" = Some WHITE) ∧
  (∀ chr, parseCell chr = layout_cell chr) ∧
  (∀ str,
     Board_of_string cells0 (string_map tolower str)
     = Board_of_string cells0 (string_map toupper str) ∧
     Board_of_string cells0 (string_map tolower str)
     = Board_of_string cells0 str) ∧
  (∀ str b,
     String.length str = 64%nat →
     mapM layout_cell (list_ascii_of_string str) = Some b →
     Board_of_string cells0 str = Some b ∧
     Board_of_string cells0 (string_map tolower str) = Some b ∧
     Board_of_string cells0 (string_map toupper str) = Some b) ∧
  (∀ b : Board,
     length b = 64%nat →
     Board_of_string cells0 (layout_of b) = Some b ∧
     Board_of_string cells0 (string_map tolower (layout_of b)) = Some b).
Proof.
  intros Hc.
  assert (Hlow : ∀ str, Board_of_string cells0 (string_map tolower str)
                        = Board_of_string cells0 str).
  { intros str. apply Board_of_string_map, parseCell_tolower. }
  assert (Hup : ∀ str, Board_of_string cells0 (string_map toupper str)
                       = Board_of_string cells0 str).
  { intros str. apply Board_of_string_map, parseCell_toupper. }
  assert (Hbuild : ∀ str b,
             String.length str = 64%nat →
             mapM layout_cell (list_ascii_of_string str) = Some b →
             Board_of_string cells0 str = Some b).
  { intros str b Hlen Hp. rewrite mapM_layout_cell in Hp.
    rewrite <- (string_of_list_ascii_of_string str).
    apply Board_of_string_parsed; [done| |done].
    by rewrite length_list_ascii_of_string. }
  split_and!; [done..|apply parseCell_layout_cell| | |].
  - intros str. by rewrite Hlow, Hup.
  - intros str b Hlen Hp. rewrite Hlow, Hup. auto.
  - intros b Hb. rewrite Hlow.
    assert (Board_of_string cells0 (layout_of b) = Some b); [|done].
    apply Board_of_string_parsed; [done| |].
    + by rewrite length_fmap.
    + apply mapM_parseCell_typeToChar.
Qed.

Lemma Board_of_string_case_insensitive_witness :
  Board_of_string (replicate 64 BLACK)
    "...........................ox......xo..........................."
  = Some initial_board ∧
  Board_of_string (replicate 64 BLACK)
    "...........................OX......XO..........................."
  = Some initial_board ∧
  Board_of_string (replicate 64 BLACK)
    "...........................oX......xO..........................."
  = Some initial_board.
Proof.
  destruct (Board_of_string_case_insensitive (replicate 64 BLACK) eq_refl)
    as (_ & _ & _ & Hbuild & _).
  destruct (Hbuild INITIAL_BOARD initial_board eq_refl eq_refl)
    as (_ & Hlow & Hup).
  split; [exact Hlow|]. split; [exact Hup|].
  by destruct (Hbuild
    "...........................oX......xO..........................."%string
    initial_board eq_refl eq_refl) as (? & _).
Defined.

(** * The running mean in binary32 *)

(** ** Powers of two and the number of digits *)

Lemma pow2_pos n : 0 ≤ n → 0 < 2 ^ n.
Proof. intros. by apply Z.pow_pos_nonneg. Qed.

Lemma pow2_split a b : 0 ≤ a → 0 ≤ b → 2 ^ (a + b) = 2 ^ a * 2 ^ b.
Proof. intros. by apply Z.pow_add_r. Qed.

Lemma pow2_le a b : 0 ≤ a ≤ b → 2 ^ a ≤ 2 ^ b.
Proof. intros. apply Z.pow_le_mono_r; lia. Qed.

Lemma pow2_divide a b : 0 ≤ a ≤ b → 2 ^ b = 2 ^ (b - a) * 2 ^ a.
Proof. intros. rewrite <- pow2_split by lia. f_equal. lia. Qed.

Lemma digits2_pos_bounds p :
  2 ^ (Zpos (digits2_pos p) - 1) ≤ Zpos p < 2 ^ Zpos (digits2_pos p).
Proof.
  induction p as [p IH|p IH|]; cbn [digits2_pos];
    rewrite ?Pos2Z.inj_succ; [| |by cbn].
  - replace (Z.succ (Zpos (digits2_pos p)) - 1)
      with (Z.succ (Zpos (digits2_pos p) - 1)) by lia.
    rewrite !Z.pow_succ_r by lia. rewrite Pos2Z.inj_xI. lia.
  - replace (Z.succ (Zpos (digits2_pos p)) - 1)
      with (Z.succ (Zpos (digits2_pos p) - 1)) by lia.
    rewrite !Z.pow_succ_r by lia.
    change (Z.pos p~0) with (2 * Z.pos p). lia.
Qed.

Lemma Zdigits2_bounds N :
  0 < N → 0 < Zdigits2 N ∧ 2 ^ (Zdigits2 N - 1) ≤ N < 2 ^ Zdigits2 N.
Proof.
  destruct N as [|p|p]; [lia| |lia]. intros _. cbn [Zdigits2].
  split; [lia|apply digits2_pos_bounds].
Qed.

Lemma Zdigits2_nonneg N : 0 ≤ Zdigits2 N.
Proof. destruct N; cbn; lia. Qed.

Lemma Zdigits2_unique N d :
  0 < d → 2 ^ (d - 1) ≤ N < 2 ^ d → Zdigits2 N = d.
Proof.
  intros Hd [Hlo Hhi].
  assert (0 < N) by (pose proof (pow2_pos (d - 1)); lia).
  destruct (Zdigits2_bounds N) as (Hpos & Hlo' & Hhi'); [done|].
  destruct (Z.lt_trichotomy (Zdigits2 N) d) as [Hlt|[Heq|Hgt]]; [|done|].
  - pose proof (pow2_le (Zdigits2 N) (d - 1)). lia.
  - pose proof (pow2_le d (Zdigits2 N - 1)). lia.
Qed.

Lemma Zdigits2_mono A B : 0 ≤ A ≤ B → Zdigits2 A ≤ Zdigits2 B.
Proof.
  intros [HA HAB].
  destruct (Z.eq_dec A 0) as [->|HA0]; [apply Zdigits2_nonneg|].
  destruct (Zdigits2_bounds A) as (? & HloA & HhiA); [lia|].
  destruct (Zdigits2_bounds B) as (? & HloB & HhiB); [lia|].
  destruct (Z.le_gt_cases (Zdigits2 A) (Zdigits2 B)) as [|Hgt]; [done|].
  pose proof (pow2_le (Zdigits2 B) (Zdigits2 A - 1)). lia.
Qed.

Lemma Zdigits2_mul_pow2 N j :
  0 < N → 0 ≤ j → Zdigits2 (N * 2 ^ j) = Zdigits2 N + j.
Proof.
  intros HN Hj. destruct (Zdigits2_bounds N) as (Hd & Hlo & Hhi); [done|].
  pose proof (pow2_pos j Hj).
  apply Zdigits2_unique; [lia|].
  replace (Zdigits2 N + j - 1) with (Zdigits2 N - 1 + j) by lia.
  rewrite !pow2_split by lia. nia.
Qed.

Lemma Zdigits2_upper N d : 0 ≤ N < 2 ^ d → 0 ≤ d → Zdigits2 N ≤ d.
Proof.
  intros [HN Hlt] Hd.
  destruct (Z.eq_dec N 0) as [->|]; [done|].
  destruct (Zdigits2_bounds N) as (? & Hlo & Hhi); [lia|].
  destruct (Z.le_gt_cases (Zdigits2 N) d) as [|Hgt]; [done|].
  pose proof (pow2_le d (Zdigits2 N - 1)). lia.
Qed.

Lemma Zdigits2_lower N d : 2 ^ (d - 1) ≤ N → 0 < d → d ≤ Zdigits2 N.
Proof.
  intros Hlo Hd. pose proof (pow2_pos (d - 1)).
  destruct (Zdigits2_bounds N) as (? & Hlo' & Hhi'); [lia|].
  destruct (Z.le_gt_cases d (Zdigits2 N)) as [|Hgt]; [done|].
  pose proof (pow2_le (Zdigits2 N) (d - 1)). lia.
Qed.

Lemma mod_pow2_succ m k :
  0 ≤ k → m mod 2 ^ (k + 1) = m mod 2 ^ k + 2 ^ k * ((m / 2 ^ k) mod 2).
Proof.
  intros Hk. rewrite pow2_split by lia. change (2 ^ 1) with 2.
  pose proof (pow2_pos k Hk). apply Z.rem_mul_r; lia.
Qed.

(** ** The shifts of the rounding *)

Lemma iter_pos_nat {A} (f : A → A) p x :
  SpecFloat.iter_pos f p x = Nat.iter (Pos.to_nat p) f x.
Proof.
  revert x. induction p as [p IH|p IH|]; intros x; cbn [SpecFloat.iter_pos].
  - rewrite !IH, Pos2Nat.inj_xI.
    replace (S (2 * Pos.to_nat p)) with (Pos.to_nat p + S (Pos.to_nat p))%nat
      by lia.
    by rewrite Nat.iter_add, Nat.iter_succ_r.
  - rewrite !IH, Pos2Nat.inj_xO.
    replace (2 * Pos.to_nat p)%nat with (Pos.to_nat p + Pos.to_nat p)%nat
      by lia.
    by rewrite Nat.iter_add.
  - done.
Qed.

Lemma shr_1_spec m r s :
  0 ≤ m →
  shr_1 (Build_shr_record m r s)
  = Build_shr_record (m / 2) (Z.odd m) (r || s).
Proof.
  intros Hm. destruct m as [|[p|p|]|]; [done| | |done|lia]; cbn [shr_1 Z.odd].
  - f_equal. apply (Z.div_unique _ _ _ 1); lia.
  - f_equal. apply (Z.div_unique _ _ _ 0); lia.
Qed.

Lemma shr_iter_spec n m r s :
  0 ≤ m →
  let R := Nat.iter n shr_1 (Build_shr_record m r s) in
  shr_m R = m / 2 ^ Z.of_nat n ∧
  ((0 < n)%nat →
   shr_r R = Z.odd (m / 2 ^ (Z.of_nat n - 1)) ∧
   shr_s R = negb (m mod 2 ^ (Z.of_nat n - 1) =? 0) || (r || s)).
Proof.
  intros Hm. induction n as [|n IH].
  - cbn. split; [by rewrite Z.div_1_r|lia].
  - cbn zeta in *. rewrite Nat.iter_succ.
    destruct (Nat.iter n shr_1 (Build_shr_record m r s)) as [m' r' s'] eqn:HR.
    cbn [shr_m shr_r shr_s] in IH. destruct IH as [-> IH].
    pose proof (pow2_pos (Z.of_nat n) ltac:(lia)) as Hpos.
    rewrite shr_1_spec by (apply Z.div_pos; lia).
    cbn [shr_m shr_r shr_s].
    replace (Z.of_nat (S n) - 1) with (Z.of_nat n) by lia.
    replace (Z.of_nat (S n)) with (Z.of_nat n + 1) by lia.
    split.
    + rewrite Z.div_div by lia. by rewrite pow2_split by lia.
    + intros _. split; [done|].
      destruct n as [|n].
      * cbn in HR. injection HR as _ <- <-. cbn. by rewrite Z.mod_1_r.
      * destruct IH as [-> ->]; [lia|].
        replace (Z.of_nat (S n)) with (Z.of_nat (S n) - 1 + 1) at 3 by lia.
        rewrite mod_pow2_succ by lia.
        set (k := Z.of_nat (S n) - 1).
        pose proof (pow2_pos k ltac:(lia)) as Hk.
        pose proof (Z.mod_pos_bound m (2 ^ k) Hk) as Hr.
        rewrite Zodd_mod.
        pose proof (Z.mod_pos_bound (m / 2 ^ k) 2 ltac:(lia)) as Hb.
        destruct (Z.eqb_spec ((m / 2 ^ k) mod 2) 1) as [Hone|Hzero].
        -- rewrite Hone. cbn [orb].
           destruct (Z.eqb_spec (m mod 2 ^ k + 2 ^ k * 1) 0); [lia|done].
        -- replace ((m / 2 ^ k) mod 2) with 0 by lia.
           rewrite Z.mul_0_r, Z.add_0_r. done.
Qed.

Lemma shr_nonpos mrs e n : n ≤ 0 → shr mrs e n = (mrs, e).
Proof. intros Hn. destruct n as [|p|p]; [done|lia|done]. Qed.

(** What the first shift and the rounding of [binary_round_aux] give: the
    mantissa without its last [k] digits, plus one or not; not if nothing
    is cut off; and for a number given exactly, according to the digits
    cut off. *)
Lemma round_shr m lx e k :
  0 ≤ m → 0 ≤ k →
  ∃ R up,
    shr (shr_record_of_loc m lx) e k = (R, e + k) ∧
    round_nearest_even (shr_m R) (loc_of_shr_record R) = m / 2 ^ k + up ∧
    (up = 0 ∨ up = 1) ∧
    (up = 1 → lx ≠ loc_Exact ∨ m mod 2 ^ k ≠ 0) ∧
    (lx = loc_Exact →
     up = b32_round_up (m / 2 ^ k) (m mod 2 ^ k) (2 ^ k)).
Proof.
  intros Hm Hk. destruct k as [|p|p]; [| |lia].
  - exists (shr_record_of_loc m lx),
      (round_nearest_even m lx - m).
    change (2 ^ 0) with 1. rewrite Z.div_1_r, Z.mod_1_r, Z.add_0_r.
    assert (Hloc : loc_of_shr_record (shr_record_of_loc m lx) = lx)
      by (by destruct lx as [|[]]).
    assert (Hsm : shr_m (shr_record_of_loc m lx) = m)
      by (by destruct lx as [|[]]).
    rewrite Hloc, Hsm. split; [done|]. split; [lia|].
    destruct lx as [|[]]; cbn [round_nearest_even];
      try destruct (Z.even m);
      (split_and!; [lia|intros; first [lia|by left]
                   |intros; first [done|by rewrite Z.sub_diag]]).
  - cbn [shr]. rewrite iter_pos_nat.
    assert (Hrec : ∃ r0 s0, shr_record_of_loc m lx = Build_shr_record m r0 s0
                            ∧ (lx = loc_Exact → r0 || s0 = false)).
    { destruct lx as [|[]]; cbn; eexists _, _; (split; [reflexivity|done]). }
    destruct Hrec as (r0 & s0 & -> & Hex).
    pose proof (shr_iter_spec (Pos.to_nat p) m r0 s0 Hm) as Hspec.
    cbn zeta in Hspec.
    destruct (Nat.iter (Pos.to_nat p) shr_1 (Build_shr_record m r0 s0))
      as [m' r' s'] eqn:HR.
    cbn [shr_m shr_r shr_s] in Hspec.
    rewrite positive_nat_Z in Hspec.
    destruct Hspec as [-> Hrs]. destruct Hrs as [-> ->]; [lia|].
    set (k := Zpos p) in *.
    assert (Hk1 : 0 ≤ k - 1) by lia.
    pose proof (pow2_pos (k - 1) Hk1) as Hw.
    pose proof (mod_pow2_succ m (k - 1) Hk1) as Hmod.
    replace (k - 1 + 1) with k in Hmod by lia.
    assert (Hpow : 2 ^ k = 2 * 2 ^ (k - 1)).
    { replace k with (k - 1 + 1) at 1 by lia. rewrite pow2_split by lia.
      change (2 ^ 1) with 2. lia. }
    pose proof (Z.mod_pos_bound m (2 ^ (k - 1)) Hw) as Ht.
    rewrite Zmod_odd in Hmod.
    eexists _, (round_nearest_even _ _ - m / 2 ^ k).
    split; [reflexivity|]. split; [by rewrite Zplus_minus|].
    cbn [shr_m shr_r shr_s loc_of_shr_record].
    unfold b32_round_up. rewrite Hpow in Hmod |- *.
    destruct (Z.odd (m / 2 ^ (k - 1)));
      destruct (Z.eqb_spec (m mod 2 ^ (k - 1)) 0) as [Hz|Hnz];
      destruct (r0 || s0) eqn:Hrs0;
      cbn [negb orb loc_of_shr_record round_nearest_even];
      try destruct (Z.even (m / (2 * 2 ^ (k - 1)))) eqn:Hev;
      cbn [andb];
      (split_and!;
       [try lia
       |intros; try first [lia | left; intros Hl; specialize (Hex Hl); congruence
                      | right; lia]
       |intros Hl; try first [specialize (Hex Hl); congruence|
          destruct (Z.ltb_spec (2 * (m mod (2 * 2 ^ (k - 1)))) (2 * 2 ^ (k - 1)));
          destruct (Z.eqb_spec (2 * (m mod (2 * 2 ^ (k - 1)))) (2 * 2 ^ (k - 1)));
          cbn [andb]; lia]]).
Qed.

(** ** Canonical mantissas and exponents *)

Lemma bounded_inv m e :
  bounded 24 128 m e = true →
  -149 ≤ e ≤ 104 ∧ Zpos m < 2 ^ 24 ∧ (2 ^ 23 ≤ Zpos m ∨ e = -149).
Proof.
  unfold bounded, canonical_mantissa, fexp, emin.
  intros [Hc He]%andb_true_iff.
  apply Z.eqb_eq in Hc. apply Z.leb_le in He.
  pose proof (digits2_pos_bounds m) as [Hlo Hhi].
  set (d := Zpos (digits2_pos m)) in *.
  assert (Hd : d ≤ 24) by lia.
  split; [lia|]. split.
  - pose proof (pow2_le d 24). lia.
  - destruct (Z.eq_dec d 24) as [Heq|Hne]; [|right; lia].
    left. by rewrite Heq in Hlo.
Qed.

Lemma bounded_intro m e :
  -149 ≤ e ≤ 104 → Zpos m < 2 ^ 24 → (2 ^ 23 ≤ Zpos m ∨ e = -149) →
  bounded 24 128 m e = true.
Proof.
  intros He Hm Hn. unfold bounded, canonical_mantissa, fexp, emin.
  apply andb_true_iff. split; [apply Z.eqb_eq|apply Z.leb_le; lia].
  pose proof (Zdigits2_upper (Zpos m) 24) as Hup. cbn [Zdigits2] in Hup.
  destruct Hn as [Hn| ->]; [|lia].
  pose proof (Zdigits2_lower (Zpos m) 24) as Hlow. cbn [Zdigits2] in Hlow.
  change (24 - 1) with 23 in Hlow. lia.
Qed.

(** The second shift of [binary_round_aux] and its result. *)
Lemma round_finish m2 e1 :
  0 ≤ m2 ≤ 2 ^ 24 → -149 ≤ e1 ≤ 103 → (2 ^ 23 ≤ m2 ∨ e1 = -149) →
  b32_scaled
    (let '(mrs'', e'') := shr_fexp 24 128 m2 e1 loc_Exact in
     match shr_m mrs'' with
     | Z0 => S754_zero false
     | Zpos m =>
         if e'' <=? 128 - 24 then S754_finite false m e''
         else S754_infinity false
     | Zneg _ => S754_nan
     end)
    (m2 * 2 ^ (e1 + 298)).
Proof.
  intros Hm He Hn. unfold shr_fexp.
  destruct (Z.eq_dec m2 (2 ^ 24)) as [->|Hne].
  - change (Zdigits2 (2 ^ 24)) with 25.
    replace (fexp 24 128 (25 + e1) - e1) with 1
      by (unfold fexp, emin; lia).
    cbn [shr shr_record_of_loc SpecFloat.iter_pos].
    change (shr_1 (Build_shr_record (2 ^ 24) false false))
      with (Build_shr_record (2 ^ 23) false false).
    cbn [shr_m]. change (2 ^ 23) with (Zpos 8388608).
    destruct (Z.leb_spec (e1 + 1) (128 - 24)); [|lia].
    split.
    + apply bounded_intro; [lia|done|left; done].
    + replace (e1 + 1 + 298) with (1 + (e1 + 298)) by lia.
      rewrite (pow2_split 1 (e1 + 298)) by lia.
      change (2 ^ 24) with (8388608 * 2 ^ 1). lia.
  - destruct m2 as [|m|m]; [| |lia].
    + rewrite shr_nonpos by (cbn [Zdigits2]; unfold fexp, emin; lia).
      cbn. lia.
    + assert (Hd : Zdigits2 (Zpos m) ≤ 24) by (apply Zdigits2_upper; lia).
      assert (Hd' : 2 ^ 23 ≤ Zpos m → 24 ≤ Zdigits2 (Zpos m))
        by (intros; by apply Zdigits2_lower).
      pose proof (Zdigits2_bounds (Zpos m) ltac:(lia)) as [Hd0 _].
      rewrite shr_nonpos by (unfold fexp, emin; lia).
      cbn [shr_record_of_loc shr_m].
      destruct (Z.leb_spec e1 (128 - 24)); [|lia].
      split; [|done]. apply bounded_intro; lia.
Qed.

(** [binary_round_aux] on a mantissa that is long enough for its
    exponent, and not too large: the mantissa is cut at the exponent of
    the result, and one is added to it or not. *)
Lemma binary_round_aux_spec mx ex lx :
  0 ≤ mx → -298 ≤ ex →
  ex ≤ fexp 24 128 (Zdigits2 mx + ex) → Zdigits2 mx + ex ≤ 127 →
  ∃ up,
    b32_scaled (binary_round_aux 24 128 false mx ex lx)
      ((mx / 2 ^ (fexp 24 128 (Zdigits2 mx + ex) - ex) + up)
       * 2 ^ (fexp 24 128 (Zdigits2 mx + ex) + 298)) ∧
    (up = 0 ∨ up = 1) ∧
    (up = 1 →
     lx ≠ loc_Exact ∨ mx mod 2 ^ (fexp 24 128 (Zdigits2 mx + ex) - ex) ≠ 0) ∧
    (lx = loc_Exact →
     up = b32_round_up (mx / 2 ^ (fexp 24 128 (Zdigits2 mx + ex) - ex))
            (mx mod 2 ^ (fexp 24 128 (Zdigits2 mx + ex) - ex))
            (2 ^ (fexp 24 128 (Zdigits2 mx + ex) - ex))).
Proof.
  intros Hmx Hex Hlong Hsmall.
  set (e1 := fexp 24 128 (Zdigits2 mx + ex)) in *.
  set (k := e1 - ex).
  destruct (round_shr mx lx ex k) as (R & up & Hshr & Hround & Hup & Hcut & Hrn);
    [done|lia|].
  exists up. split; [|done].
  unfold binary_round_aux. unfold shr_fexp at 1.
  fold e1. fold k. rewrite Hshr, Hround.
  replace (ex + k) with e1 by lia.
  pose proof (pow2_pos k ltac:(lia)) as Hw.
  assert (Hq : 0 ≤ mx / 2 ^ k) by (apply Z.div_pos; lia).
  assert (He1 : -149 ≤ e1 ≤ 103) by (unfold e1, fexp, emin; lia).
  assert (Hqhi : mx / 2 ^ k < 2 ^ 24 ∧ (2 ^ 23 ≤ mx / 2 ^ k ∨ e1 = -149)).
  { destruct (Z.eq_dec mx 0) as [->|Hnz].
    - rewrite Z.div_0_l by lia. split; [done|]. right.
      unfold e1, fexp, emin in *. cbn [Zdigits2] in *. lia.
    - destruct (Zdigits2_bounds mx) as (Hd & Hlo & Hhi); [lia|].
      set (d := Zdigits2 mx) in *.
      assert (Hkd : d - 24 ≤ k) by (unfold k, e1, fexp, emin; lia).
      split.
      + apply Z.div_lt_upper_bound; [lia|].
        rewrite <- pow2_split by lia.
        pose proof (pow2_le d (k + 24)). lia.
      + destruct (Z.eq_dec k (d - 24)) as [Hk|Hk];
          [|right; unfold k, e1, fexp, emin in *; lia].
        left. apply Z.div_le_lower_bound; [lia|].
        rewrite Z.mul_comm, <- pow2_split by lia.
        replace (23 + k) with (d - 1) by lia. done. }
  apply round_finish; lia.
Qed.

(** ** The nearest binary32 number *)

Lemma b32_cexp_ge N : 149 ≤ b32_cexp N.
Proof. unfold b32_cexp. lia. Qed.

Lemma b32_cexp_mono A B : 0 ≤ A ≤ B → b32_cexp A ≤ b32_cexp B.
Proof. intros H%Zdigits2_mono. unfold b32_cexp. lia. Qed.

Lemma b32_cexp_scaled m e :
  0 < m → -298 ≤ e →
  b32_cexp (m * 2 ^ (e + 298)) = fexp 24 128 (Zdigits2 m + e) + 298.
Proof.
  intros Hm He. unfold b32_cexp. rewrite Zdigits2_mul_pow2 by lia.
  unfold fexp, emin. lia.
Qed.

Lemma b32_round_up_range q r w : 0 ≤ b32_round_up q r w ≤ 1.
Proof.
  unfold b32_round_up. destruct (2 * r <? w); [lia|].
  destruct ((2 * r =? w) && Z.even q); lia.
Qed.

Lemma b32_round_up_0 q w : 0 < w → b32_round_up q 0 w = 0.
Proof.
  intros Hw. unfold b32_round_up.
  destruct (Z.ltb_spec (2 * 0) w); [done|lia].
Qed.

Lemma b32_round_up_mono q r r' w :
  r ≤ r' → b32_round_up q r w ≤ b32_round_up q r' w.
Proof.
  intros Hr. unfold b32_round_up.
  destruct (Z.ltb_spec (2 * r) w), (Z.ltb_spec (2 * r') w); try lia.
  - destruct ((2 * r' =? w) && Z.even q); lia.
  - destruct (Z.eqb_spec (2 * r) w), (Z.eqb_spec (2 * r') w);
      cbn [andb]; try lia; destruct (Z.even q); lia.
Qed.

Lemma b32_round_up_scale q r w c :
  0 < c → b32_round_up q (r * c) (w * c) = b32_round_up q r w.
Proof.
  intros Hc. unfold b32_round_up.
  destruct (Z.ltb_spec (2 * (r * c)) (w * c)), (Z.ltb_spec (2 * r) w),
    (Z.eqb_spec (2 * (r * c)) (w * c)), (Z.eqb_spec (2 * r) w);
    first [done|nia].
Qed.

Lemma b32_round_cell N c q r :
  b32_cexp N = c → N = q * 2 ^ c + r → 0 ≤ r < 2 ^ c →
  b32_round N = (q + b32_round_up q r (2 ^ c)) * 2 ^ c.
Proof.
  intros Hc HN Hr. unfold b32_round. rewrite Hc.
  assert (Hq : N / 2 ^ c = q) by (symmetry; apply (Z.div_unique _ _ _ r); lia).
  assert (Hm : N mod 2 ^ c = r) by (symmetry; apply (Z.mod_unique _ _ q); lia).
  by rewrite Hq, Hm.
Qed.

Lemma b32_round_exact N : N mod 2 ^ b32_cexp N = 0 → b32_round N = N.
Proof.
  intros Hmod. pose proof (b32_cexp_ge N).
  pose proof (pow2_pos (b32_cexp N) ltac:(lia)) as Hw.
  unfold b32_round. rewrite Hmod, b32_round_up_0 by done.
  pose proof (Z.div_mod N (2 ^ b32_cexp N) ltac:(lia)). lia.
Qed.

Lemma b32_round_floor N :
  N / 2 ^ b32_cexp N * 2 ^ b32_cexp N ≤ b32_round N.
Proof.
  pose proof (b32_cexp_ge N).
  pose proof (pow2_pos (b32_cexp N) ltac:(lia)) as Hw.
  unfold b32_round.
  pose proof (b32_round_up_range (N / 2 ^ b32_cexp N)
                (N mod 2 ^ b32_cexp N) (2 ^ b32_cexp N)).
  nia.
Qed.

Lemma b32_round_nonneg N : 0 ≤ N → 0 ≤ b32_round N.
Proof.
  intros HN. pose proof (b32_cexp_ge N).
  pose proof (pow2_pos (b32_cexp N) ltac:(lia)) as Hw.
  pose proof (b32_round_floor N).
  pose proof (Z.div_pos N (2 ^ b32_cexp N) HN Hw). nia.
Qed.

(** Rounding does not pass a number of the grid it rounds to. *)
Lemma b32_round_le_multiple A F :
  A ≤ F → F mod 2 ^ b32_cexp A = 0 → b32_round A ≤ F.
Proof.
  intros HAF Hmul. pose proof (b32_cexp_ge A).
  set (w := 2 ^ b32_cexp A) in *.
  assert (Hw : 0 < w) by (apply pow2_pos; lia).
  unfold b32_round. fold w.
  pose proof (Z.div_mod A w ltac:(lia)) as HA.
  pose proof (Z.mod_pos_bound A w Hw) as Hr.
  pose proof (Z.div_mod F w ltac:(lia)) as HF. rewrite Hmul in HF.
  destruct (Z.eq_dec (A mod w) 0) as [Hz|Hnz].
  - rewrite Hz, b32_round_up_0 by done. lia.
  - pose proof (b32_round_up_range (A / w) (A mod w) w).
    assert (A / w < F / w) by nia. nia.
Qed.

Lemma b32_round_mono A B : 0 ≤ A ≤ B → b32_round A ≤ b32_round B.
Proof.
  intros [HA HAB].
  pose proof (b32_cexp_mono A B ltac:(lia)) as Hc.
  pose proof (b32_cexp_ge A) as HcA.
  destruct (Z.eq_dec (b32_cexp A) (b32_cexp B)) as [Heq|Hne].
  - unfold b32_round. rewrite <- Heq.
    set (w := 2 ^ b32_cexp A).
    assert (Hw : 0 < w) by (apply pow2_pos; lia).
    pose proof (Z.div_mod A w ltac:(lia)) as HdA.
    pose proof (Z.mod_pos_bound A w Hw) as HrA.
    pose proof (Z.div_mod B w ltac:(lia)) as HdB.
    pose proof (Z.mod_pos_bound B w Hw) as HrB.
    pose proof (b32_round_up_range (A / w) (A mod w) w).
    pose proof (b32_round_up_range (B / w) (B mod w) w).
    assert (Hq : A / w ≤ B / w) by (apply Z.div_le_mono; lia).
    destruct (Z.eq_dec (A / w) (B / w)) as [Hqe|Hqne].
    + rewrite <- Hqe in *.
      pose proof (b32_round_up_mono (A / w) (A mod w) (B mod w) w
                    ltac:(lia)).
      nia.
    + nia.
  - assert (Hlt : b32_cexp A < b32_cexp B) by lia.
    assert (HdB : b32_cexp B = Zdigits2 B - 24) by (unfold b32_cexp in *; lia).
    assert (HB0 : 0 < B).
    { destruct (Z.eq_dec B 0) as [->|]; [|lia].
      unfold b32_cexp in HdB. cbn [Zdigits2] in HdB. lia. }
    destruct (Zdigits2_bounds B HB0) as (_ & HloB & _).
    set (F := 2 ^ (23 + b32_cexp B)).
    assert (HFB : F ≤ B).
    { unfold F. replace (23 + b32_cexp B) with (Zdigits2 B - 1) by lia. done. }
    transitivity F.
    + apply b32_round_le_multiple.
      * destruct (Z.eq_dec A 0) as [->|HA0];
          [unfold F; pose proof (pow2_pos (23 + b32_cexp B)); lia|].
        destruct (Zdigits2_bounds A ltac:(lia)) as (_ & _ & HhiA).
        assert (Zdigits2 A ≤ 23 + b32_cexp B) by (unfold b32_cexp in *; lia).
        pose proof (pow2_le (Zdigits2 A) (23 + b32_cexp B)
                      ltac:(pose proof (Zdigits2_nonneg A); lia)).
        unfold F. lia.
      * unfold F. rewrite (pow2_divide (b32_cexp A) (23 + b32_cexp B)) by lia.
        apply Z.mod_mul. pose proof (pow2_pos (b32_cexp A)). lia.
    + etransitivity; [|apply b32_round_floor].
      set (w := 2 ^ b32_cexp B).
      assert (Hw : 0 < w) by (apply pow2_pos; lia).
      assert (HF : F = 2 ^ 23 * w)
        by (unfold F, w; rewrite pow2_split by lia; done).
      assert (2 ^ 23 ≤ B / w)
        by (apply Z.div_le_lower_bound; lia).
      nia.
Qed.

Lemma binary_round_aux_exact mx ex :
  0 ≤ mx → -298 ≤ ex →
  ex ≤ fexp 24 128 (Zdigits2 mx + ex) → Zdigits2 mx + ex ≤ 127 →
  b32_scaled (binary_round_aux 24 128 false mx ex loc_Exact)
    (b32_round (mx * 2 ^ (ex + 298))).
Proof.
  intros Hmx Hex Hlong Hsmall.
  destruct (binary_round_aux_spec mx ex loc_Exact)
    as (up & Hs & _ & _ & Hup); [done..|].
  rewrite (Hup eq_refl) in Hs. clear Hup.
  set (e1 := fexp 24 128 (Zdigits2 mx + ex)) in *.
  assert (Hc : b32_cexp (mx * 2 ^ (ex + 298)) = e1 + 298).
  { destruct (Z.eq_dec mx 0) as [->|Hnz].
    - rewrite Z.mul_0_l.
      unfold e1, fexp, emin, b32_cexp in *. cbn [Zdigits2] in *. lia.
    - apply b32_cexp_scaled; lia. }
  pose proof (pow2_pos (e1 - ex) ltac:(lia)) as Hk.
  pose proof (pow2_pos (ex + 298) ltac:(lia)) as Hu.
  assert (Hw : 2 ^ (e1 + 298) = 2 ^ (e1 - ex) * 2 ^ (ex + 298)).
  { rewrite <- pow2_split by lia. f_equal. lia. }
  unfold b32_round. rewrite Hc, Hw.
  rewrite Z.div_mul_cancel_r, Z.mul_mod_distr_r by lia.
  rewrite b32_round_up_scale by lia. by rewrite <- Hw.
Qed.

(** ** Numbers and their order *)

Lemma b32_scaled_nonneg f N : b32_scaled f N → 0 ≤ N.
Proof.
  destruct f as [s| | |[] m e]; cbn; try done; [lia|].
  intros [Hb ->]. apply bounded_inv in Hb.
  pose proof (pow2_pos (e + 298)). nia.
Qed.

Lemma b32_scaled_valid f N : b32_scaled f N → valid_binary 24 128 f = true.
Proof. destruct f as [s| | |[] m e]; cbn; try done. by intros [? _]. Qed.

Lemma b32_scaled_cexp m e :
  bounded 24 128 m e = true → b32_cexp (Zpos m * 2 ^ (e + 298)) = e + 298.
Proof.
  intros Hb. pose proof (bounded_inv m e Hb) as (He & _ & _).
  rewrite b32_cexp_scaled by lia.
  unfold bounded, canonical_mantissa in Hb.
  apply andb_true_iff in Hb as [Hc%Z.eqb_eq _]. cbn [Zdigits2]. lia.
Qed.

(** A binary32 number is the nearest binary32 number to itself. *)
Lemma b32_scaled_exact f N : b32_scaled f N → b32_round N = N.
Proof.
  destruct f as [s| | |[] m e]; cbn; try done.
  - intros ->. by apply b32_round_exact.
  - intros [Hb ->]. apply b32_round_exact.
    rewrite b32_scaled_cexp by done.
    apply Z.mod_mul. pose proof (bounded_inv m e Hb).
    pose proof (pow2_pos (e + 298)). lia.
Qed.

Lemma b32_scaled_lt_exp m1 e1 m2 e2 :
  bounded 24 128 m1 e1 = true → bounded 24 128 m2 e2 = true → e1 < e2 →
  Zpos m1 * 2 ^ (e1 + 298) < Zpos m2 * 2 ^ (e2 + 298).
Proof.
  intros (He1 & Hm1 & _)%bounded_inv (He2 & _ & Hn2)%bounded_inv Hlt.
  destruct Hn2 as [Hn2|]; [|lia].
  pose proof (pow2_pos (e1 + 298) ltac:(lia)) as Ha.
  pose proof (pow2_pos (e2 - e1 - 1) ltac:(lia)) as Hb.
  replace (e2 + 298) with (e2 - e1 - 1 + (1 + (e1 + 298))) by lia.
  rewrite (pow2_split (e2 - e1 - 1)), (pow2_split 1 (e1 + 298)) by lia.
  change (2 ^ 1) with 2.
  set (a := 2 ^ (e1 + 298)) in *. set (b := 2 ^ (e2 - e1 - 1)) in *.
  assert (Z.pos m1 * a < 2 * Z.pos m2 * a) by nia.
  assert (2 * Z.pos m2 * a * 1 ≤ 2 * Z.pos m2 * a * b)
    by (apply Z.mul_le_mono_nonneg_l; lia).
  lia.
Qed.

Lemma b32_scaled_leb f1 f2 N1 N2 :
  b32_scaled f1 N1 → b32_scaled f2 N2 → SFleb f1 f2 = true ↔ N1 ≤ N2.
Proof.
  destruct f1 as [s1| | |[] m1 e1], f2 as [s2| | |[] m2 e2]; cbn [b32_scaled];
    try done.
  - intros -> ->. done.
  - intros -> [Hb ->]. apply bounded_inv in Hb.
    pose proof (pow2_pos (e2 + 298)). split; [nia|done].
  - intros [Hb ->] ->. apply bounded_inv in Hb.
    pose proof (pow2_pos (e1 + 298)). split; [done|nia].
  - intros [Hb1 ->] [Hb2 ->]. unfold SFleb, SFcompare.
    destruct (Z.compare_spec e1 e2) as [->|Hlt|Hgt].
    + pose proof (bounded_inv m2 e2 Hb2).
      pose proof (pow2_pos (e2 + 298) ltac:(lia)).
      change (Pos.compare_cont Eq m1 m2) with (Pos.compare m1 m2).
      destruct (Pos.compare_spec m1 m2) as [->|Hm|Hm].
      * done.
      * split; [nia|done].
      * split; [done|nia].
    + pose proof (b32_scaled_lt_exp m1 e1 m2 e2 Hb1 Hb2 Hlt).
      split; [lia|done].
    + pose proof (b32_scaled_lt_exp m2 e2 m1 e1 Hb2 Hb1 Hgt).
      split; [done|lia].
Qed.

Lemma b32_scaled_zero : b32_scaled (b32_of_Z 0) 0.
Proof. done. Qed.

Lemma b32_scaled_one : b32_scaled (b32_of_Z 1) (2 ^ 298).
Proof. split; [done|]. change (2 ^ 298) with (2 ^ 23 * 2 ^ 275). done. Qed.

Lemma b32_unit_scaled v :
  b32_unit v ↔ ∃ N, b32_scaled v N ∧ N ≤ 2 ^ 298.
Proof.
  split.
  - intros (Hvalid & H0 & H1).
    destruct v as [s|s| |[] m e]; try (by destruct s); try done.
    + exists 0. split; [done|]. by apply Z.lt_le_incl, pow2_pos.
    + exists (Zpos m * 2 ^ (e + 298)).
      assert (Hs : b32_scaled (S754_finite false m e)
                     (Zpos m * 2 ^ (e + 298))) by done.
      split; [done|].
      by apply (b32_scaled_leb _ _ _ _ Hs b32_scaled_one).
  - intros (N & Hs & HN). split_and!.
    + by eapply b32_scaled_valid.
    + apply (b32_scaled_leb _ _ _ _ b32_scaled_zero Hs).
      by eapply b32_scaled_nonneg.
    + by apply (b32_scaled_leb _ _ _ _ Hs b32_scaled_one).
Qed.

(** ** The operations of the update *)

Lemma shl_align_spec mx ex ex' :
  ∃ mz ez, shl_align mx ex ex' = (mz, ez) ∧ ez = Z.min ex ex' ∧
           Zpos mz = Zpos mx * 2 ^ (ex - ez).
Proof.
  unfold shl_align. destruct (ex' - ex) as [|d|d] eqn:Hd.
  - exists mx, ex. replace (ex - ex) with 0 by lia. split_and!; [done|lia|lia].
  - exists mx, ex. replace (ex - ex) with 0 by lia. split_and!; [done|lia|lia].
  - exists (Pos.iter xO mx d), ex'. split_and!; [done|lia|].
    change (Pos.iter xO mx d) with (shift_pos d mx).
    rewrite shift_pos_correct, Z.pow_pos_fold.
    replace (ex - ex') with (Zpos d) by lia. lia.
Qed.

Lemma binary_round_scaled mx ex :
  -298 ≤ ex → Zdigits2 (Zpos mx) + ex ≤ 127 →
  b32_scaled (binary_round 24 128 false mx ex)
    (b32_round (Zpos mx * 2 ^ (ex + 298))).
Proof.
  intros Hex Hsmall. unfold binary_round.
  destruct (shl_align_spec mx ex (fexp 24 128 (Zpos (digits2_pos mx) + ex)))
    as (mz & ez & -> & Hez & Hmz).
  change (Zpos (digits2_pos mx)) with (Zdigits2 (Zpos mx)) in *.
  set (e1 := fexp 24 128 (Zdigits2 (Zpos mx) + ex)) in *.
  assert (He1 : -149 ≤ e1) by (unfold e1, fexp, emin; lia).
  assert (Hd : Zdigits2 (Zpos mz) = Zdigits2 (Zpos mx) + (ex - ez))
    by (rewrite Hmz; apply Zdigits2_mul_pow2; lia).
  assert (Hval : Zpos mz * 2 ^ (ez + 298) = Zpos mx * 2 ^ (ex + 298)).
  { rewrite Hmz, <- Z.mul_assoc, <- pow2_split by lia. do 2 f_equal. lia. }
  rewrite <- Hval. apply binary_round_aux_exact; [lia|lia| |].
  - rewrite Hd. replace (Zdigits2 (Zpos mx) + (ex - ez) + ez)
      with (Zdigits2 (Zpos mx) + ex) by lia. fold e1. lia.
  - lia.
Qed.

Lemma b32_round_0 : b32_round 0 = 0.
Proof. by apply b32_round_exact. Qed.

(** The conversion of a visit count. *)
Lemma b32_of_Z_scaled g :
  0 ≤ g < 2 ^ 64 → b32_scaled (b32_of_Z g) (b32_round (g * 2 ^ 298)).
Proof.
  intros Hg. destruct g as [|p|p];
    [by rewrite Z.mul_0_l, b32_round_0| |lia].
  unfold b32_of_Z, binary_normalize.
  apply (binary_round_scaled p 0); [lia|].
  pose proof (Zdigits2_upper (Zpos p) 64). lia.
Qed.

(** The product with a number of [0, 1] does not exceed the other
    factor. *)
Lemma SFmul_unit x m X M :
  b32_scaled x X → b32_scaled m M → X ≤ 2 ^ 362 → M ≤ 2 ^ 298 →
  ∃ P, b32_scaled (SFmul 24 128 x m) P ∧ P ≤ X.
Proof.
  intros Hx Hm HX HM.
  pose proof (b32_scaled_nonneg x X Hx) as HX0.
  destruct x as [sx| | |[] mx ex], m as [sm| | |[] mm em]; try done;
    try (exists 0; split; [done|lia]).
  destruct Hx as [Hbx ->], Hm as [Hbm ->]. cbn [SFmul xorb].
  pose proof (bounded_inv mx ex Hbx) as (Hex & Hmx & Hnx).
  pose proof (bounded_inv mm em Hbm) as (Hem & Hmm & Hnm).
  pose proof (pow2_pos (ex + 149) ltac:(lia)) as Hpx.
  pose proof (pow2_pos (em + 149) ltac:(lia)) as Hpm.
  assert (Hsx : 2 ^ (ex + 298) = 2 ^ (ex + 149) * 2 ^ 149)
    by (rewrite <- pow2_split by lia; f_equal; lia).
  assert (Hsm : 2 ^ (em + 298) = 2 ^ (em + 149) * 2 ^ 149)
    by (rewrite <- pow2_split by lia; f_equal; lia).
  assert (Hsp : 2 ^ (ex + em + 298) = 2 ^ (ex + 149) * 2 ^ (em + 149))
    by (rewrite <- pow2_split by lia; f_equal; lia).
  set (N := Zpos (mx * mm) * 2 ^ (ex + em + 298)).
  assert (HNX : N ≤ Zpos mx * 2 ^ (ex + 298)).
  { unfold N. rewrite Pos2Z.inj_mul, Hsp, Hsx.
    rewrite Hsm in HM. change (2 ^ 298) with (2 ^ 149 * 2 ^ 149) in HM.
    assert (Zpos mm * 2 ^ (em + 149) ≤ 2 ^ 149) by nia.
    replace (Zpos mx * Zpos mm * (2 ^ (ex + 149) * 2 ^ (em + 149)))
      with (Zpos mx * 2 ^ (ex + 149) * (Zpos mm * 2 ^ (em + 149))) by ring.
    replace (Zpos mx * (2 ^ (ex + 149) * 2 ^ 149))
      with (Zpos mx * 2 ^ (ex + 149) * 2 ^ 149) by ring.
    apply Z.mul_le_mono_nonneg_l; [nia|done]. }
  exists (b32_round N). split.
  - apply binary_round_aux_exact; [done|lia| |].
    + assert (2 ^ 23 ≤ Zpos (mx * mm) → 24 ≤ Zdigits2 (Zpos (mx * mm)))
        by (intros; by apply Zdigits2_lower).
      pose proof (Zdigits2_nonneg (Zpos (mx * mm))).
      unfold fexp, emin.
      destruct Hnx as [Hnx|Hnx], Hnm as [Hnm|Hnm]; try lia;
        assert (2 ^ 23 ≤ Zpos (mx * mm)) by (rewrite Pos2Z.inj_mul; nia); lia.
    + assert (Zdigits2 N ≤ 363).
      { apply Zdigits2_upper; [|lia]. split; [unfold N; nia|].
        change (2 ^ 363) with (2 * 2 ^ 362). lia. }
      unfold N in *. rewrite Zdigits2_mul_pow2 in * by lia. lia.
  - rewrite <- (b32_scaled_exact (S754_finite false mx ex)
                  (Zpos mx * 2 ^ (ex + 298))) by done.
    apply b32_round_mono. split; [unfold N; nia|done].
Qed.

(** The sum of two numbers is the number nearest to their sum. *)
Lemma SFadd_scaled p v P V :
  b32_scaled p P → b32_scaled v V → P + V < 2 ^ 400 →
  b32_scaled (SFadd 24 128 p v) (b32_round (P + V)).
Proof.
  intros Hp Hv Hsmall.
  pose proof (b32_scaled_nonneg p P Hp) as HP0.
  pose proof (b32_scaled_nonneg v V Hv) as HV0.
  destruct p as [sp| | |[] mp ep], v as [sv| | |[] mv ev]; try done.
  - cbn in Hp, Hv. subst. rewrite Z.add_0_l, b32_round_0. by destruct sp, sv.
  - cbn in Hp. subst. cbn [SFadd]. rewrite Z.add_0_l.
    by rewrite (b32_scaled_exact _ _ Hv).
  - cbn in Hv. subst. cbn [SFadd]. rewrite Z.add_0_r.
    by rewrite (b32_scaled_exact _ _ Hp).
  - destruct Hp as [Hbp ->], Hv as [Hbv ->]. cbn [SFadd].
    pose proof (bounded_inv mp ep Hbp) as (Hep & _ & _).
    pose proof (bounded_inv mv ev Hbv) as (Hev & _ & _).
    set (ez := Z.min ep ev).
    destruct (shl_align_spec mp ep ez) as (a & ea & -> & Hea & Ha).
    destruct (shl_align_spec mv ev ez) as (b & eb & -> & Heb & Hb).
    cbn [fst cond_Zopp Z.add binary_normalize].
    assert (Hsum : Zpos (a + b) * 2 ^ (ez + 298)
                   = Zpos mp * 2 ^ (ep + 298) + Zpos mv * 2 ^ (ev + 298)).
    { rewrite Pos2Z.inj_add, Ha, Hb, Z.mul_add_distr_r.
      rewrite <- !Z.mul_assoc, <- !pow2_split by lia.
      do 2 f_equal; f_equal; lia. }
    rewrite <- Hsum in *. apply binary_round_scaled; [lia|].
    assert (Zdigits2 (Zpos (a + b) * 2 ^ (ez + 298)) ≤ 400)
      by (apply Zdigits2_upper; lia).
    rewrite Zdigits2_mul_pow2 in * by lia. lia.
Qed.

(** One minus a number of [0, 1]. *)
Lemma SFsub_one_unit v :
  b32_unit v → b32_unit (SFsub 24 128 (b32_of_Z 1) v).
Proof.
  intros (V & Hv & HV)%b32_unit_scaled. apply b32_unit_scaled.
  change (b32_of_Z 1) with (S754_finite false 8388608 (-23)).
  destruct v as [sv| | |[] mv ev]; try done.
  - exists (2 ^ 298). split; [apply b32_scaled_one|lia].
  - destruct Hv as [Hbv ->]. cbn [SFsub].
    pose proof (bounded_inv mv ev Hbv) as (Hev & _ & _).
    set (ez := Z.min (-23) ev).
    destruct (shl_align_spec 8388608 (-23) ez) as (a & ea & -> & Hea & Ha).
    destruct (shl_align_spec mv ev ez) as (b & eb & -> & Heb & Hb).
    cbn [fst cond_Zopp].
    assert (HA : Zpos a * 2 ^ (ez + 298) = 2 ^ 298).
    { rewrite Ha, <- Z.mul_assoc, <- pow2_split by lia.
      replace (-23 - ea + (ez + 298)) with 275 by lia. done. }
    assert (HB : Zpos b * 2 ^ (ez + 298) = Zpos mv * 2 ^ (ev + 298)).
    { rewrite Hb, <- Z.mul_assoc, <- pow2_split by lia. do 2 f_equal. lia. }
    pose proof (pow2_pos (ez + 298) ltac:(lia)) as Hw.
    destruct (Zpos a - Zpos b) as [|d|d] eqn:Hd; cbn [binary_normalize].
    + exists 0. split; [done|lia].
    + exists (b32_round (Zpos d * 2 ^ (ez + 298))). split.
      * apply binary_round_scaled; [lia|].
        assert (Zdigits2 (Zpos d * 2 ^ (ez + 298)) ≤ 299).
        { apply Zdigits2_upper; [|lia].
          change (2 ^ 299) with (2 * 2 ^ 298). nia. }
        rewrite Zdigits2_mul_pow2 in * by lia. lia.
      * rewrite <- (b32_scaled_exact _ _ b32_scaled_one).
        apply b32_round_mono. nia.
    + nia.
Qed.

(** The quotient of a number by one that is not smaller is at most
    one. *)
Lemma SFdiv_unit s d S D :
  b32_scaled s S → b32_scaled d D → 0 < D → S ≤ D →
  ∃ R, b32_scaled (SFdiv 24 128 s d) R ∧ R ≤ 2 ^ 298.
Proof.
  intros Hs Hd HD HSD.
  destruct d as [sd| | |[] md ed]; try done; [cbn in Hd; lia|].
  destruct s as [ss| | |[] ms es]; try done.
  { exists 0. split; [done|]. by apply Z.lt_le_incl, pow2_pos. }
  destruct Hs as [Hbs ->], Hd as [Hbd ->]. cbn [SFdiv xorb].
  pose proof (bounded_inv ms es Hbs) as (Hes & _ & _).
  pose proof (bounded_inv md ed Hbd) as (Hed & _ & _).
  unfold SFdiv_core_binary.
  set (d1 := Zdigits2 (Zpos ms)). set (d2 := Zdigits2 (Zpos md)).
  set (e' := Z.min (fexp 24 128 (d1 + es - (d2 + ed))) (es - ed)).
  set (sh := es - ed - e').
  assert (Hsh : 0 ≤ sh) by (unfold sh, e'; lia).
  assert (He' : -298 ≤ e') by (unfold e', fexp, emin; lia).
  set (m' := match sh with
             | 0 => Zpos ms
             | Zpos _ => Z.shiftl (Zpos ms) sh
             | Zneg _ => 0
             end).
  assert (Hm' : m' = Zpos ms * 2 ^ sh).
  { unfold m'. destruct sh as [|p|p] eqn:Hp; [| |lia].
    - change (2 ^ 0) with 1. lia.
    - by rewrite Z.shiftl_mul_pow2. }
  clearbody m'.
  pose proof (Z.div_mod m' (Zpos md) ltac:(lia)) as Hdiv.
  pose proof (Z.mod_pos_bound m' (Zpos md) ltac:(lia)) as Hrem.
  unfold Z.div, Z.modulo in Hdiv, Hrem.
  destruct (Z.div_eucl m' (Zpos md)) as [q r].
  pose proof (pow2_pos sh Hsh) as Hpsh.
  assert (Hq0 : 0 ≤ q) by nia.
  destruct (Zdigits2_bounds (Zpos ms) ltac:(lia)) as (Hd1 & Hlo1 & Hhi1).
  destruct (Zdigits2_bounds (Zpos md) ltac:(lia)) as (Hd2 & Hlo2 & Hhi2).
  fold d1 in Hd1, Hlo1, Hhi1. fold d2 in Hd2, Hlo2, Hhi2.
  (* the quotient is at most one *)
  pose proof (pow2_pos (e' + 298) ltac:(lia)) as Hu.
  pose proof (pow2_pos (ed + 298) ltac:(lia)) as Hpd.
  assert (Hexp : 2 ^ sh * 2 ^ (ed + 298) * 2 ^ (e' + 298)
                 = 2 ^ (es + 298) * 2 ^ 298).
  { rewrite <- !pow2_split by lia. f_equal. unfold sh. lia. }
  assert (Hone : q * 2 ^ (e' + 298) ≤ 2 ^ 298
                 ∧ (r ≠ 0 → q * 2 ^ (e' + 298) < 2 ^ 298)).
  { set (Dv := Zpos md * 2 ^ (ed + 298)) in *.
    set (Sv := Zpos ms * 2 ^ (es + 298)) in *.
    assert (Hm1 : m' * 2 ^ (ed + 298) * 2 ^ (e' + 298) = Sv * 2 ^ 298).
    { rewrite Hm'. unfold Sv. rewrite <- !Z.mul_assoc.
      rewrite (Z.mul_assoc (2 ^ sh)), Hexp. ring. }
    assert (Hm2 : m' * 2 ^ (ed + 298) * 2 ^ (e' + 298)
                  = q * 2 ^ (e' + 298) * Dv + r * 2 ^ (ed + 298) * 2 ^ (e' + 298)).
    { rewrite Hdiv at 1. unfold Dv. ring. }
    assert (Hr0 : 0 ≤ r * 2 ^ (ed + 298) * 2 ^ (e' + 298)) by nia.
    assert (Hle : q * 2 ^ (e' + 298) * Dv ≤ 2 ^ 298 * Dv) by nia.
    split.
    - apply (Z.mul_le_mono_pos_r _ _ Dv); [lia|done].
    - intros Hnz. apply (Z.mul_lt_mono_pos_r Dv); [lia|].
      assert (0 < r * 2 ^ (ed + 298) * 2 ^ (e' + 298)) by nia. nia. }
  destruct Hone as [Hone Hstrict].
  (* the mantissa is long enough for its exponent *)
  assert (Hlong : e' ≤ fexp 24 128 (Zdigits2 q + e')).
  { destruct (Z.le_gt_cases e' (-149)) as [|Hbig]; [unfold fexp, emin; lia|].
    assert (Hmu : 24 ≤ d1 + sh - d2) by (unfold sh, e', fexp, emin in *; lia).
    assert (2 ^ 23 ≤ q).
    { assert (Hpow : 2 ^ 23 * 2 ^ d2 ≤ 2 ^ (d1 - 1) * 2 ^ sh).
      { rewrite <- !pow2_split by lia. apply pow2_le. lia. }
      assert (2 ^ 23 * Zpos md < (q + 1) * Zpos md) by nia.
      nia. }
    assert (24 ≤ Zdigits2 q) by (by apply Zdigits2_lower).
    unfold fexp, emin. lia. }
  assert (Hdq : Zdigits2 q + e' ≤ 1).
  { destruct (Z.eq_dec q 0) as [->|Hq].
    - cbn [Zdigits2]. pose proof (Zdigits2_nonneg 0).
      unfold fexp, emin in Hlong. cbn [Zdigits2] in Hlong. lia.
    - assert (Zdigits2 (q * 2 ^ (e' + 298)) ≤ 299).
      { apply Zdigits2_upper; [|lia].
        change (2 ^ 299) with (2 * 2 ^ 298). nia. }
      rewrite Zdigits2_mul_pow2 in * by lia. lia. }
  destruct (binary_round_aux_spec q e' (new_location (Zpos md) r))
    as (up & Hres & Hup & Hcut & _); [done|done|done|lia|].
  eexists. split; [exact Hres|].
  set (e1 := fexp 24 128 (Zdigits2 q + e')) in *.
  assert (He1 : -149 ≤ e1 ≤ 0) by (unfold e1, fexp, emin; lia).
  set (k := e1 - e') in *.
  pose proof (pow2_pos k ltac:(lia)) as Hk.
  pose proof (pow2_pos (e1 + 298) ltac:(lia)) as Hw.
  assert (Hwk : 2 ^ (e1 + 298) = 2 ^ k * 2 ^ (e' + 298))
    by (rewrite <- pow2_split by lia; f_equal; lia).
  assert (HU : 2 ^ 298 = 2 ^ (- e1) * 2 ^ (e1 + 298))
    by (rewrite <- pow2_split by lia; f_equal; lia).
  pose proof (Z.div_mod q (2 ^ k) ltac:(lia)) as Hqk.
  pose proof (Z.mod_pos_bound q (2 ^ k) Hk) as Hrk.
  assert (Hfloor : q / 2 ^ k * 2 ^ (e1 + 298) ≤ 2 ^ 298) by (rewrite Hwk; nia).
  destruct Hup as [->| ->]; [by rewrite Z.add_0_r|].
  assert (Hlt : q / 2 ^ k * 2 ^ (e1 + 298) < 2 ^ 298).
  { destruct (Hcut eq_refl) as [Hloc|Hmod].
    - assert (r ≠ 0).
      { intros ->. apply Hloc. unfold new_location, new_location_even,
          new_location_odd. by destruct (IntDef.Z.even (Zpos md)). }
      specialize (Hstrict ltac:(done)). rewrite Hwk. nia.
    - rewrite Hwk. nia. }
  rewrite HU in Hlt |- *.
  assert (q / 2 ^ k < 2 ^ (- e1)) by nia. nia.
Qed.

(** ** One more visit

    The conversion of [g + 1] is not below the sum of the conversion of
    [g] and one: where [g] is rounded up, the spacing of the binary32
    numbers is two or more, and the number halfway goes to the even
    mantissa. *)

Lemma b32_cexp_normal N c :
  149 ≤ c → 2 ^ (c + 23) ≤ N < 2 ^ (c + 24) → b32_cexp N = c.
Proof.
  intros Hc HN. unfold b32_cexp.
  rewrite (Zdigits2_unique N (c + 24)); [lia|lia|].
  by replace (c + 24 - 1) with (c + 23) by lia.
Qed.

Lemma b32_round_succ g :
  0 ≤ g →
  b32_round (b32_round (g * 2 ^ 298) + 2 ^ 298)
  ≤ b32_round ((g + 1) * 2 ^ 298).
Proof.
  intros Hg. set (U := 2 ^ 298). set (G := g * U).
  assert (HU : 0 < U) by done.
  assert (HG : 0 ≤ G) by (unfold G; lia).
  pose proof (b32_round_nonneg G HG) as HR0.
  destruct (Z.le_gt_cases (b32_round G) G) as [Hle|Hgt].
  { apply b32_round_mono. fold G. lia. }
  transitivity (b32_round G);
    [|apply b32_round_mono; fold G; lia].
  pose proof (b32_cexp_ge G) as Hc149.
  set (c := b32_cexp G) in *. set (w := 2 ^ c).
  assert (Hw : 0 < w) by (apply pow2_pos; lia).
  pose proof (Z.div_mod G w ltac:(lia)) as Hdiv.
  pose proof (Z.mod_pos_bound G w Hw) as Hr.
  set (q := G / w) in *. set (r := G mod w) in *.
  assert (HR : b32_round G = (q + b32_round_up q r w) * w) by done.
  pose proof (b32_round_up_range q r w) as Hup.
  assert (Hup1 : b32_round_up q r w = 1) by nia.
  rewrite HR, Hup1 in *.
  assert (Hhalf : w ≤ 2 * r ∧ (2 * r = w → Z.even q = false)).
  { unfold b32_round_up in Hup1.
    destruct (Z.ltb_spec (2 * r) w); [done|]. split; [done|].
    intros Heq. rewrite Heq, Z.eqb_refl in Hup1.
    by destruct (Z.even q). }
  destruct Hhalf as [Hhalf Htie].
  assert (Hc : 299 ≤ c).
  { destruct (Z.le_gt_cases 299 c) as [|Hsmall]; [done|].
    assert (r = 0); [|lia].
    unfold r, G, U. rewrite (pow2_divide c 298) by lia.
    rewrite Z.mul_assoc. apply Z.mod_mul. lia. }
  set (t := 2 ^ (c - 299)).
  assert (Ht : 0 < t) by (apply pow2_pos; lia).
  assert (Hwt : w = 2 * t * U).
  { unfold w, t, U. rewrite (pow2_divide 298 c) by lia.
    replace (c - 298) with (1 + (c - 299)) by lia.
    rewrite pow2_split by lia. done. }
  assert (Hrho : r = g mod (2 * t) * U).
  { unfold r, G. rewrite Hwt. apply Z.mul_mod_distr_r; lia. }
  pose proof (Z.mod_pos_bound g (2 * t) ltac:(lia)) as Hrho'.
  set (rho := g mod (2 * t)) in *.
  assert (Hcd : c = Zdigits2 G - 24) by (unfold c, b32_cexp in *; lia).
  assert (HG0 : 0 < G).
  { destruct (Z.eq_dec G 0) as [HG0|]; [|lia].
    rewrite HG0 in Hcd. cbn [Zdigits2] in Hcd. lia. }
  destruct (Zdigits2_bounds G HG0) as (_ & Hlo & Hhi).
  replace (Zdigits2 G - 1) with (c + 23) in Hlo by lia.
  replace (Zdigits2 G) with (c + 24) in Hhi by lia.
  rewrite (pow2_split c 23) in Hlo by lia.
  rewrite (pow2_split c 24) in Hhi by lia. fold w in Hlo, Hhi.
  assert (Hq : 2 ^ 23 ≤ q < 2 ^ 24) by nia.
  assert (HUw : 2 * U ≤ w ∧ (2 * U = w → Z.even (q + 1) = true)).
  { split; [nia|]. intros Heq.
    assert (t = 1) by nia. assert (rho = 1) by nia.
    assert (Hev : Z.even q = false) by (apply Htie; nia).
    rewrite Z.even_add, Hev. done. }
  destruct HUw as [HUw HUtie].
  destruct (Z.eq_dec (q + 1) (2 ^ 24)) as [Htop|Hnottop].
  - assert (Hc' : b32_cexp ((q + 1) * w + U) = c + 1).
    { apply b32_cexp_normal; [lia|].
      replace (c + 1 + 23) with (c + 24) by lia.
      replace (c + 1 + 24) with (c + (1 + 24)) by lia.
      rewrite (pow2_split c 24), (pow2_split c (1 + 24)) by lia.
      fold w. rewrite Htop. change (2 ^ (1 + 24)) with (2 * 2 ^ 24). nia. }
    rewrite (b32_round_cell _ (c + 1) (2 ^ 23) U Hc').
    + unfold b32_round_up.
      rewrite (pow2_split c 1) by lia. fold w. change (2 ^ 1) with 2.
      destruct (Z.ltb_spec (2 * U) (w * 2)); [|lia].
      rewrite Htop. change (2 ^ 24) with (2 ^ 23 * 2). lia.
    + rewrite (pow2_split c 1) by lia. fold w. rewrite Htop.
      change (2 ^ 24) with (2 ^ 23 * 2 ^ 1). lia.
    + rewrite (pow2_split c 1) by lia. fold w. change (2 ^ 1) with 2. lia.
  - assert (Hc' : b32_cexp ((q + 1) * w + U) = c).
    { apply b32_cexp_normal; [lia|].
      rewrite (pow2_split c 23), (pow2_split c 24) by lia. fold w. nia. }
    rewrite (b32_round_cell _ c (q + 1) U Hc'); [|done|fold w; lia].
    fold w. unfold b32_round_up.
    destruct (Z.ltb_spec (2 * U) w); [lia|].
    destruct (Z.eqb_spec (2 * U) w); [|lia].
    rewrite HUtie by done. cbn [andb]. lia.
Qed.

(** ** The mean stays in [0, 1] *)

Lemma b32_of_Z_le_pow g :
  0 ≤ g < 2 ^ 64 → b32_round (g * 2 ^ 298) ≤ 2 ^ 362.
Proof.
  intros Hg. apply b32_round_le_multiple.
  - change (2 ^ 362) with (2 ^ 64 * 2 ^ 298). nia.
  - pose proof (b32_cexp_ge (g * 2 ^ 298)).
    assert (Zdigits2 (g * 2 ^ 298) ≤ 362).
    { apply Zdigits2_upper; [|lia].
      change (2 ^ 362) with (2 ^ 64 * 2 ^ 298). nia. }
    rewrite (pow2_divide (b32_cexp (g * 2 ^ 298)) 362)
      by (unfold b32_cexp in *; lia).
    apply Z.mod_mul. pose proof (pow2_pos (b32_cexp (g * 2 ^ 298))). lia.
Qed.

(** The update of the mean, on a visit count below [SIZE_MAX]. *)
Lemma update_b32_unit g m v :
  0 ≤ g < 2 ^ 64 - 1 → b32_unit m → b32_unit v →
  b32_unit (SFdiv 24 128
              (SFadd 24 128 (SFmul 24 128 (b32_of_Z g) m) v)
              (b32_of_Z (g + 1))).
Proof.
  intros Hg (M & Hm & HM)%b32_unit_scaled (V & Hv & HV)%b32_unit_scaled.
  apply b32_unit_scaled.
  pose proof (b32_of_Z_scaled g ltac:(lia)) as Hx.
  pose proof (b32_of_Z_scaled (g + 1) ltac:(lia)) as Hd.
  pose proof (b32_of_Z_le_pow g ltac:(lia)) as HX.
  set (X := b32_round (g * 2 ^ 298)) in *.
  set (D := b32_round ((g + 1) * 2 ^ 298)) in *.
  destruct (SFmul_unit _ _ X M Hx Hm HX HM) as (P & Hp & HP).
  pose proof (b32_scaled_nonneg _ _ Hp) as HP0.
  pose proof (b32_scaled_nonneg _ _ Hv) as HV0.
  pose proof (b32_scaled_nonneg _ _ Hx) as HX0.
  assert (Hsum : P + V < 2 ^ 400).
  { change (2 ^ 400) with (2 ^ 38 * 2 ^ 362).
    assert (0 < 2 ^ 362) by done. assert (2 ^ 298 ≤ 2 ^ 362) by done. nia. }
  pose proof (SFadd_scaled _ _ P V Hp Hv Hsum) as Hs.
  assert (HSD : b32_round (P + V) ≤ D).
  { transitivity (b32_round (X + 2 ^ 298)).
    - apply b32_round_mono. lia.
    - apply b32_round_succ. lia. }
  assert (HD : 0 < D).
  { assert (2 ^ 298 ≤ D); [|assert (0 < 2 ^ 298) by done; lia].
    rewrite <- (b32_scaled_exact _ _ b32_scaled_one).
    apply b32_round_mono. assert (0 < 2 ^ 298) by done. nia. }
  apply (SFdiv_unit _ _ _ D Hs Hd HD HSD).
Qed.

Lemma receive_b32_unit v (n : Node spec_float) :
  0 ≤ games_ n < 2 ^ 64 - 1 → b32_unit (mean_ n) → b32_unit v →
  b32_unit (mean_ (receive v n)).
Proof.
  intros Hg Hm Hv. cbn. rewrite to_size_t_small by lia.
  by apply update_b32_unit.
Qed.

Lemma reaches_b32_unit (h : Heap spec_float) a v b w :
  b32_unit v → reaches h a v b w → b32_unit w.
Proof.
  intros Hv Hr. induction Hr as [|a v n p b w _ _ _ IH]; [done|].
  apply IH. by apply SFsub_one_unit.
Qed.

Lemma propagateResult_b32 fuel (h : Heap spec_float) a v h' :
  parents_before h → games_bounded h → means_in_unit h → b32_unit v →
  (a < fuel)%nat → propagateResult fuel h a v = Some h' →
  parents_before h' ∧ means_in_unit h'.
Proof.
  intros Hwf Hbnd Hunit Hv Hfuel Hrun.
  assert (Ha : is_Some (h !! a)).
  { destruct fuel; [lia|]. cbn [propagateResult] in Hrun.
    by destruct (h !! a). }
  destruct (propagateResult_spec fuel h a v Hwf Ha Hfuel)
    as (h1 & Hrun' & _ & Hon & Hoff).
  rewrite Hrun in Hrun'. injection Hrun' as <-.
  assert (Hnode : ∀ b n', h' !! b = Some n' →
            ∃ n, h !! b = Some n ∧ parent_ n' = parent_ n ∧
                 b32_unit (mean_ n')).
  { intros b n' Hb. destruct (reaches_dec h a v b Hwf) as [[w Hr]|Hnot].
    - rewrite (Hon b w Hr) in Hb. destruct (h !! b) as [n|] eqn:Hn; [|done].
      injection Hb as <-. exists n. split_and!; [done|done|].
      apply receive_b32_unit; [by eapply Hbnd|by eapply Hunit|].
      by eapply reaches_b32_unit.
    - rewrite (Hoff b Hnot) in Hb. exists n'.
      split_and!; [done|done|by eapply Hunit]. }
  split.
  - intros b n' p Hb Hp. destruct (Hnode b n' Hb) as (n & Hn & Hp' & _).
    apply (Hwf b n p Hn). congruence.
  - intros b n' Hb. by destruct (Hnode b n' Hb) as (n & _ & _ & ?).
Qed.

Lemma propagated32_means_in_unit h h' :
  propagated32 h h' → parents_before h → means_in_unit h →
  parents_before h' ∧ means_in_unit h'.
Proof.
  induction 1 as [|h fuel a v h1 h2 Hv Hbnd Hfuel Hrun _ IH];
    intros Hwf Hunit; [done|].
  destruct (propagateResult_b32 fuel h a v h1) as [Hwf1 Hunit1]; [done..|].
  by apply IH.
Qed.

(** ** A root and its child in exact arithmetic *)

Lemma pair_history_child (h : Heap Qc) n0 n1 v l0 l1 :
  h !! 0%nat = Some n0 → parent_ n0 = None →
  h !! 1%nat = Some n1 → parent_ n1 = Some 0%nat →
  history_after h 1 v (pair_hist l0 l1)
    (pair_hist (l0 ++ [f_sub (f_of_int 1) v]) (l1 ++ [v])).
Proof.
  intros H0 Hp0 H1 Hp1.
  assert (Hchild : reaches h 1 v 1 v) by constructor.
  assert (Hroot : reaches h 1 v 0 (f_sub (f_of_int 1) v)).
  { apply (reaches_parent h 1 v n1 0); [done|done|constructor]. }
  split.
  - intros b w Hr. inversion Hr as [|? ? n p ? ? Hn Hp Hup]; subst; [done|].
    rewrite H1 in Hn. injection Hn as <-. rewrite Hp1 in Hp.
    injection Hp as <-.
    inversion Hup as [|? ? n p ? ? Hn Hp _]; subst; [done|].
    rewrite H0 in Hn. injection Hn as <-. congruence.
  - intros [|[|b]] Hnot; [by destruct (Hnot _ Hroot)
                         |by destruct (Hnot _ Hchild)|done].
Qed.

Lemma pair_history_root (h : Heap Qc) n0 v l0 l1 :
  h !! 0%nat = Some n0 → parent_ n0 = None →
  history_after h 0 v (pair_hist l0 l1) (pair_hist (l0 ++ [v]) l1).
Proof.
  intros H0 Hp0. split.
  - intros b w Hr. inversion Hr as [|? ? n p ? ? Hn Hp _]; subst; [done|].
    rewrite H0 in Hn. injection Hn as <-. congruence.
  - intros [|b] Hnot; [|done]. destruct (Hnot v). constructor.
Qed.

Lemma exact_pair_parents_before : parents_before exact_pair.
Proof.
  intros [|[|a]] n p Ha Hp; [| |done]; injection Ha as <-; cbn in Hp;
    simplify_eq; lia.
Qed.

Lemma exact_pair_tracks : tracks (pair_hist [] []) exact_pair.
Proof.
  intros [|[|b]] n Hb; [| |done]; injection Hb as <-;
    (split; [apply new_Node_mean_of|constructor]).
Qed.

Lemma games_bounded_pair (h : Heap Qc) n0 n1 :
  h = [n0; n1] →
  0 ≤ games_ n0 < 2 ^ 64 - 1 → 0 ≤ games_ n1 < 2 ^ 64 - 1 →
  games_bounded h.
Proof.
  intros -> H0 H1 [|[|a]] n Ha; [| |done]; by injection Ha as <-.
Qed.

(** ** Stores in binary32 *)

Lemma games_bounded_forallb (h : Heap spec_float) :
  forallb (fun n => (0 <=? games_ n) && (games_ n <? 2 ^ 64 - 1)) h = true →
  games_bounded h.
Proof.
  intros Hall a n Ha. rewrite forallb_forall in Hall.
  apply list_elem_of_lookup_2, list_elem_of_In in Ha.
  apply Hall in Ha. apply andb_true_iff in Ha as [?%Z.leb_le ?%Z.ltb_lt]. lia.
Qed.

Lemma means_in_unit_forallb (h : Heap spec_float) :
  forallb (fun n => valid_binary 24 128 (mean_ n)
                    && SFleb (b32_of_Z 0) (mean_ n)
                    && SFleb (mean_ n) (b32_of_Z 1)) h = true →
  means_in_unit h.
Proof.
  intros Hall a n Ha. rewrite forallb_forall in Hall.
  apply list_elem_of_lookup_2, list_elem_of_In in Ha.
  apply Hall in Ha. apply andb_true_iff in Ha as [Ha ?].
  apply andb_true_iff in Ha as [? ?]. by split_and!.
Qed.

Lemma new_Node_b32_unit board player parent :
  b32_unit (mean_ (new_Node (F := spec_float) board player parent)).
Proof. by split_and!. Qed.

(** ** The running mean, exactly and in binary32 *)

(** C3, as the program has it. In any arithmetic, [propagateResult(v)]
    returns once the root is passed, sets the mean of the node to
    [(games_ * mean_ + v) / (games_ + 1)] and adds one to its visit count
    (below [SIZE_MAX]), hands [1 - v] to the parent, and so on up to the
    root, touching no other node. In arithmetic without rounding, after
    any sequence of such calls with values in [0, 1] the mean of every
    node is the arithmetic mean of the values propagated to it and lies
    in [0, 1]. In the binary32 arithmetic of the program, a new node has
    the mean 0, and after any sequence of such calls with binary32 values
    in [0, 1] the mean of every node is a binary32 number in [0, 1]. *)
Theorem propagateResult_running_mean :
  (∀ (F : Type) (A : FloatArith F) fuel (h : Heap F) a n v,
      parents_before h → h !! a = Some n → (a < fuel)%nat →
      ∃ h', propagateResult fuel h a v = Some h' ∧
        h' !! a = Some (receive v n) ∧
        (0 ≤ games_ n < 2 ^ 64 - 1 →
           games_ (receive v n) = games_ n + 1 ∧
           mean_ (receive v n)
           = f_div (f_add (f_mul (f_of_size (games_ n)) (mean_ n)) v)
                   (f_of_size (games_ n + 1))) ∧
        (∀ p pn, parent_ n = Some p → h !! p = Some pn →
                 h' !! p = Some (receive (f_sub (f_of_int 1) v) pn)) ∧
        (∀ b w, reaches h a v b w → h' !! b = receive w <$> h !! b) ∧
        (∀ b, (∀ w, ¬ reaches h a v b w) → h' !! b = h !! b)) ∧
  (∀ h hist h' hist',
      parents_before h → tracks hist h → propagated h hist h' hist' →
      ∀ b n, h' !! b = Some n →
             games_ n = Z.of_nat (length (hist' b)) ∧
             mean_ n = average (hist' b) ∧
             in_unit (mean_ n)) ∧
  (∀ board player parent,
      b32_unit (mean_ (new_Node (F := spec_float) board player parent))) ∧
  (∀ h h' : Heap spec_float,
      parents_before h → means_in_unit h → propagated32 h h' →
      ∀ b n, h' !! b = Some n → b32_unit (mean_ n)).
Proof.
  split_and!.
  - intros F A fuel h a n v Hwf Ha Hfuel.
    destruct (propagateResult_spec fuel h a v Hwf) as
      (h' & Hrun & _ & Hon & Hoff); [done|done|].
    exists h'. split_and!; [done| | | |done|done].
    + rewrite (Hon a v) by constructor. by rewrite Ha.
    + intros Hg. cbn. by rewrite to_size_t_small by lia.
    + intros p pn Hp Hpn.
      rewrite (Hon p (f_sub (f_of_int 1) v)); [by rewrite Hpn|].
      apply (reaches_parent h a v n p); [done|done|constructor].
  - intros h hist h' hist' Hwf Htr Hcalls b n Hb.
    destruct (propagated_tracks _ _ _ _ Hcalls Hwf Htr) as [_ Htr'].
    destruct (Htr' b n Hb) as [[Hg Hm] Hunit].
    split_and!; [done|done|]. rewrite Hm. by apply average_in_unit.
  - apply new_Node_b32_unit.
  - intros h h' Hwf Hunit Hcalls.
    by destruct (propagated32_means_in_unit h h' Hcalls Hwf Hunit).
Qed.

(** C3, as the specification states it, does not hold of the program's
    arithmetic, not even where the arithmetic mean is a binary32 number:
    six values 0, seven values 1 and one more 0 have the mean 1/2, and
    the mean of the root after them is [8388609 / 2 ^ 24], the binary32
    number after 1/2. *)
Lemma binary32_mean_misses_half :
  ¬ (∀ vs h' n qs m f q,
       Forall b32_unit vs →
       propagate_at_root vs = Some h' → h' !! 0%nat = Some n →
       mapM SF2Q vs = Some qs → SF2Q (mean_ n) = Some m →
       valid_binary 24 128 f = true → SF2Q f = Some q →
       (q == Q_mean qs)%Q →
       (m == Q_mean qs)%Q).
Proof.
  intros Hclaim.
  pose (vs := b32_of_Z <$> [0; 0; 0; 0; 0; 0; 1; 1; 1; 1; 1; 1; 1; 0]).
  assert (Hvs : Forall b32_unit vs) by (repeat constructor).
  pose (half := S754_finite false 8388608 (-24)).
  let r := eval vm_compute in (propagate_at_root vs) in
  match r with
  | Some ?h' =>
      let q := eval vm_compute in (mapM SF2Q vs) in
      match q with
      | Some ?qs =>
          let hq := eval vm_compute in (SF2Q half) in
          match hq with
          | Some ?q =>
              assert (Heq := Hclaim vs h'
                       (mkNode initial_board PBLACK false 14
                          (S754_finite false 8388609 (-24)) None [])
                       qs (8388609 # 16777216)%Q half q Hvs)
          end
      end
  end.
  assert (Hfalse : (8388609 # 16777216 == 1 # 2)%Q);
    [|by vm_compute in Hfalse].
  rewrite Heq;
    [by vm_compute|by vm_compute|by vm_compute|by vm_compute|
     by vm_compute|by vm_compute|by vm_compute|by vm_compute].
Qed.

Lemma propagateResult_running_mean_witness :
  (∃ h' pn,
      propagateResult 4 endgame_tree 3 (b32_of_Z 1) = Some h' ∧
      endgame_tree !! 1%nat = Some pn ∧
      h' !! 1%nat = Some (receive (f_sub (f_of_int 1) (b32_of_Z 1)) pn) ∧
      (∀ b w, reaches endgame_tree 3 (b32_of_Z 1) b w →
              h' !! b = receive w <$> endgame_tree !! b)) ∧
  (∃ h1 h2 h3,
      propagateResult 2 exact_pair 1 (Q2Qc (1 # 4)) = Some h1 ∧
      propagateResult 2 h1 1 1%Qc = Some h2 ∧
      propagateResult 2 h2 0 (Q2Qc (1 # 2)) = Some h3 ∧
      ∀ b n, h3 !! b = Some n →
        let vs := pair_hist [(1 - Q2Qc (1 # 4))%Qc; (1 - 1)%Qc; Q2Qc (1 # 2)]
                            [Q2Qc (1 # 4); 1%Qc] b in
        games_ n = Z.of_nat (length vs) ∧
        mean_ n = average vs ∧ in_unit (mean_ n)) ∧
  b32_unit (mean_ (new_Node (F := spec_float) initial_board PBLACK None)) ∧
  (∀ b n, endgame_tree_propagated !! b = Some n → b32_unit (mean_ n)).
Proof.
  destruct propagateResult_running_mean as (Hany & Hexact & Hnew & Hb32).
  split_and!.
  - edestruct (Hany spec_float binary32 4%nat endgame_tree 3%nat)
      as (h' & Hrun & _ & _ & Hparent & Hon & _).
    + apply endgame_tree_parents_before.
    + reflexivity.
    + lia.
    + eexists h', _. split_and!; [exact Hrun|reflexivity| |exact Hon].
      by apply Hparent.
  - eexists _, _, _. split_and!; [reflexivity..|].
    apply (Hexact exact_pair (pair_hist [] [])).
    + apply exact_pair_parents_before.
    + apply exact_pair_tracks.
    + eapply (propagated_call _ _ 2 1 (Q2Qc (1 # 4))).
      * by split.
      * by eapply games_bounded_pair.
      * lia.
      * reflexivity.
      * by eapply (pair_history_child _ _ _ _ [] []).
      * eapply (propagated_call _ _ 2 1 1%Qc).
        -- by split.
        -- by eapply games_bounded_pair.
        -- lia.
        -- reflexivity.
        -- by eapply (pair_history_child _ _ _ _ [_] [_]).
        -- eapply (propagated_call _ _ 2 0 (Q2Qc (1 # 2))).
           ++ by split.
           ++ by eapply games_bounded_pair.
           ++ lia.
           ++ reflexivity.
           ++ by eapply (pair_history_root _ _ _ [_; _] [_; _]).
           ++ apply propagated_done.
  - apply Hnew.
  - apply (Hb32 endgame_tree).
    + apply endgame_tree_parents_before.
    + by apply means_in_unit_forallb.
    + eapply (propagated32_call _ 4 3 (S754_finite false 8388608 (-25))).
      * by split_and!.
      * by apply games_bounded_forallb.
      * lia.
      * reflexivity.
      * eapply (propagated32_call _ 4 2 (b32_of_Z 1)).
        -- by split_and!.
        -- by apply games_bounded_forallb.
        -- lia.
        -- reflexivity.
        -- eapply (propagated32_call _ 4 3 (S754_finite false 8388608 (-24))).
           ++ by split_and!.
           ++ by apply games_bounded_forallb.
           ++ lia.
           ++ reflexivity.
           ++ apply propagated32_done.
Defined.
